(** * consensus-proxy: backend state, health prober, scheduler and routing

    A shallow embedding of the Go packages [beaconnode] and [loadbalancer]
    of consensus-proxy, and the properties of the specification proved or
    refuted against it; then the packages [ratelimit] and [validator], and
    further properties of the code.

    Conventions of the embedding:
    - Go [int] and [int64] values are [Z]; the [int64] atomic counters wrap
      around ([wrap64]).
    - A [*BeaconNode] is the index of the node in [lb.nodes] (the nodes are
      allocated once by [New] and never freed); the fields of the node
      objects live in the list [nodes] of the load balancer, updated in
      place with [alter].
    - What the code reads from the outside world (probe outcomes, the order
      in which goroutines deliver their results, upstream responses, the
      clock) is an explicit argument of the function that reads it.
    - The code is modelled one critical section or one request at a time. *)

From Stdlib Require Import ZArith Lia Ascii.
From stdpp Require Import base decidable option list sorting strings gmap.

Local Open Scope Z_scope.

(* ===================================================================== *)
(** * Package beaconnode *)
(* ===================================================================== *)

Module beaconnode.

(** Two's complement wrap-around of [atomic.AddInt64]. *)
Definition wrap64 (z : Z) : Z := (z + 2 ^ 63) `mod` 2 ^ 64 - 2 ^ 63.

(** [type BeaconNode struct]. The [Proxy] handler, [LastCheck] and the
    mutex carry no data that the properties below read. *)
Record BeaconNode := mkBeaconNode {
  Name : string;
  URL : string;
  ConsecutiveErrors : Z;
  ConsecutiveSuccesses : Z;
  TotalFailures : Z;
  Requests : Z;
  Priority : Z;
  OriginalPriority : Z
}.

#[global] Instance BeaconNode_inhabited : Inhabited BeaconNode :=
  populate (mkBeaconNode "" "" 0 0 0 0 0 0).

(** [config.NodeConfig] *)
Record NodeConfig := mkNodeConfig {
  cfgName : string;
  cfgURL : string;
  cfgType : string
}.

Section Construction.
(** Whether [url.Parse] accepts the configured URL (Go library). *)
Variable url_Parse_ok : string → bool.

(** [NewBeaconNode]: fails only when the URL does not parse; all counters
      and both priorities start at the zero value. *)
Definition NewBeaconNode (nc : NodeConfig) : option BeaconNode :=
    if url_Parse_ok (cfgURL nc) then
      Some {| Name := cfgName nc; URL := cfgURL nc;
              ConsecutiveErrors := 0; ConsecutiveSuccesses := 0;
              TotalFailures := 0; Requests := 0;
              Priority := 0; OriginalPriority := 0 |}
    else None.
End Construction.

Definition IsHealthy (bn : BeaconNode) (errorThreshold : Z) : bool :=
  bool_decide (ConsecutiveErrors bn < errorThreshold).

Definition ResetErrors (bn : BeaconNode) : BeaconNode :=
  {| Name := Name bn; URL := URL bn;
     ConsecutiveErrors := 0;
     ConsecutiveSuccesses := ConsecutiveSuccesses bn;
     TotalFailures := TotalFailures bn; Requests := Requests bn;
     Priority := Priority bn; OriginalPriority := OriginalPriority bn |}.

Definition IncrementError (bn : BeaconNode) : BeaconNode :=
  {| Name := Name bn; URL := URL bn;
     ConsecutiveErrors := wrap64 (ConsecutiveErrors bn + 1);
     ConsecutiveSuccesses := 0;
     TotalFailures := wrap64 (TotalFailures bn + 1);
     Requests := Requests bn;
     Priority := Priority bn; OriginalPriority := OriginalPriority bn |}.

Definition IncrementSuccess (bn : BeaconNode) : BeaconNode :=
  {| Name := Name bn; URL := URL bn;
     ConsecutiveErrors := ConsecutiveErrors bn;
     ConsecutiveSuccesses := wrap64 (ConsecutiveSuccesses bn + 1);
     TotalFailures := TotalFailures bn; Requests := Requests bn;
     Priority := Priority bn; OriginalPriority := OriginalPriority bn |}.

Definition ResetSuccesses (bn : BeaconNode) : BeaconNode :=
  {| Name := Name bn; URL := URL bn;
     ConsecutiveErrors := ConsecutiveErrors bn;
     ConsecutiveSuccesses := 0;
     TotalFailures := TotalFailures bn; Requests := Requests bn;
     Priority := Priority bn; OriginalPriority := OriginalPriority bn |}.

Definition GetConsecutiveSuccesses (bn : BeaconNode) : Z :=
  ConsecutiveSuccesses bn.

Definition IncrementRequests (bn : BeaconNode) : BeaconNode :=
  {| Name := Name bn; URL := URL bn;
     ConsecutiveErrors := ConsecutiveErrors bn;
     ConsecutiveSuccesses := ConsecutiveSuccesses bn;
     TotalFailures := TotalFailures bn;
     Requests := wrap64 (Requests bn + 1);
     Priority := Priority bn; OriginalPriority := OriginalPriority bn |}.

Definition GetStats (bn : BeaconNode) : Z * Z * Z :=
  (ConsecutiveErrors bn, TotalFailures bn, Requests bn).

Definition SetPriority (priority : Z) (bn : BeaconNode) : BeaconNode :=
  {| Name := Name bn; URL := URL bn;
     ConsecutiveErrors := ConsecutiveErrors bn;
     ConsecutiveSuccesses := ConsecutiveSuccesses bn;
     TotalFailures := TotalFailures bn; Requests := Requests bn;
     Priority := priority; OriginalPriority := OriginalPriority bn |}.

Definition GetPriority (bn : BeaconNode) : Z := Priority bn.

Definition IsPrimary (bn : BeaconNode) : bool :=
  bool_decide (GetPriority bn = 0).

Definition IsBackup (bn : BeaconNode) : bool :=
  bool_decide (GetPriority bn > 0).

(** The four counter operations, as the alphabet of a call sequence. *)
Inductive CounterOp :=
  | OpIncrementError
  | OpIncrementSuccess
  | OpResetErrors
  | OpResetSuccesses.

Definition applyOp (op : CounterOp) (bn : BeaconNode) : BeaconNode :=
  match op with
  | OpIncrementError => IncrementError bn
  | OpIncrementSuccess => IncrementSuccess bn
  | OpResetErrors => ResetErrors bn
  | OpResetSuccesses => ResetSuccesses bn
  end.

(** The calls of [ops] in order, first call first. *)
Definition runOps (ops : list CounterOp) (bn : BeaconNode) : BeaconNode :=
  foldl (λ st op, applyOp op st) bn ops.

(** ** The health prober *)

(** The [data] object of [SyncingResponse]. *)
Record SyncingResponse := mkSyncingResponse {
  IsSyncing : bool;
  SyncDistance : string
}.

(** What [io.ReadAll(resp.Body)] returned. *)
Inductive ReadAllResult :=
  | ReadErr (err : string)
  | ReadOk (body : string).

(** What [client.Get(endpoint)] returned: a transport error (dial, timeout),
    or a response with its status code and the outcome of reading its body. *)
Inductive GetResult :=
  | GetErr (err : string)
  | GetOk (StatusCode : Z) (read : ReadAllResult).

(** The error value of [CheckSyncStatus], one constructor per [fmt.Errorf]. *)
Inductive SyncStatusError :=
  | ErrRequestFailed (err : string)
  | ErrNon200 (code : Z)
  | ErrReadBody (err : string)
  | ErrParseJSON (err : string)
  | ErrNotSynced (is_syncing : bool) (sync_distance : string).

(** [type HealthCheckError struct] *)
Record HealthCheckError := mkHealthCheckError {
  Reason : string;
  ErrStatusCode : Z;
  ErrIsSyncing : bool;
  ErrSyncDistance : string;
  Err : option string
}.

Definition http_StatusOK : Z := 200.

Section Prober.
(** [json.Unmarshal(body, &syncResp)] of the Go library: the decoded
      value, or the decoding error. *)
Variable json_Unmarshal : string → string + SyncingResponse.

Definition CheckSyncStatus (resp : GetResult)
      : bool * option SyncStatusError :=
    match resp with
    | GetErr err => (false, Some (ErrRequestFailed err))
    | GetOk code rd =>
      if bool_decide (code ≠ http_StatusOK) then (false, Some (ErrNon200 code))
      else match rd with
      | ReadErr err => (false, Some (ErrReadBody err))
      | ReadOk body =>
        match json_Unmarshal body with
        | inl err => (false, Some (ErrParseJSON err))
        | inr syncResp =>
          let isHealthy :=
            negb (IsSyncing syncResp)
            && bool_decide (SyncDistance syncResp = "0"%string) in
          if negb isHealthy then
            (false, Some (ErrNotSynced (IsSyncing syncResp)
                                       (SyncDistance syncResp)))
          else (true, None)
        end
      end
    end.

Definition HealthCheck (resp : GetResult)
      : bool * option HealthCheckError :=
    match resp with
    | GetErr err =>
      (false, Some (mkHealthCheckError "request_failed" 0 false "" (Some err)))
    | GetOk code rd =>
      if bool_decide (code ≠ http_StatusOK) then
        (false, Some (mkHealthCheckError "non_200_status" code false "" None))
      else match rd with
      | ReadErr err =>
        (false,
         Some (mkHealthCheckError "read_body_failed" 0 false "" (Some err)))
      | ReadOk body =>
        match json_Unmarshal body with
        | inl err =>
          (false,
           Some (mkHealthCheckError "json_parse_failed" 0 false "" (Some err)))
        | inr syncResp =>
          let isHealthy :=
            negb (IsSyncing syncResp)
            && bool_decide (SyncDistance syncResp = "0"%string) in
          if negb isHealthy then
            let reason : string :=
              if IsSyncing syncResp then "is_syncing"
              else if bool_decide (SyncDistance syncResp ≠ "0"%string)
                   then "sync_distance_not_zero"
                   else "not_synced" in
            (false,
             Some (mkHealthCheckError reason 0 (IsSyncing syncResp)
                                      (SyncDistance syncResp) None))
          else (true, None)
        end
      end
    end.
(** The six failure tags of the specification. *)
Definition failureTags : list string :=
  ["request_failed"; "non_200_status"; "read_body_failed";
   "json_parse_failed"; "is_syncing"; "sync_distance_not_zero"]%string.

(** The healthy verdict of a probe, read off the response. *)
Definition probeHealthy (resp : GetResult) : Prop :=
  ∃ body syncResp,
    resp = GetOk 200 (ReadOk body)
    ∧ json_Unmarshal body = inr syncResp
    ∧ IsSyncing syncResp = false
    ∧ SyncDistance syncResp = "0"%string.
End Prober.

End beaconnode.

(* ===================================================================== *)
(** * Package loadbalancer *)
(* ===================================================================== *)

Module loadbalancer.
Import beaconnode.

(** HTTP status code ranges. *)
Definition HTTPStatusSuccessMin : Z := 200.
Definition HTTPStatusSuccessMax : Z := 400.
Definition HTTPStatusClientErrorMin : Z := 400.
Definition HTTPStatusServerErrorMin : Z := 500.

Definition http_StatusForbidden : Z := 403.
Definition http_StatusBadGateway : Z := 502.
Definition http_StatusServiceUnavailable : Z := 503.
Definition http_StatusGatewayTimeout : Z := 504.

(** The options of [config.Config] that the load balancer reads:
    [Server.MaxRetries], [Server.RequestTimeout] (nanoseconds),
    [Failover.ErrorThreshold], [HealthCheck.SuccessfulChecksForFailback]
    and the parsed node list returned by [GetAllNodes]. *)
Record Config := mkConfig {
  MaxRetries : Z;
  RequestTimeout : Z;
  ErrorThreshold : Z;
  SuccessfulChecksForFailback : Z;
  GetAllNodes : list NodeConfig
}.

(** [type LoadBalancer struct]: [nodes] holds the node objects, and
    [healthyNodes] the references (indices into [nodes]) of the healthy set.
    The metrics client, the upgrader and the validator are collaborators. *)
Record LoadBalancer := mkLoadBalancer {
  nodes : list BeaconNode;
  config : Config;
  healthyNodes : list nat
}.

(** A method call [n.f()] on the node referenced by [n]. *)
Definition onNode (f : BeaconNode → BeaconNode) (n : nat)
    (ns : list BeaconNode) : list BeaconNode :=
  alter f n ns.

Definition withNodes (ns : list BeaconNode) (lb : LoadBalancer)
    : LoadBalancer :=
  {| nodes := ns; config := config lb; healthyNodes := healthyNodes lb |}.

(** [node.OriginalPriority = i] in [New]. *)
Definition setOriginalPriority (i : Z) (bn : BeaconNode) : BeaconNode :=
  {| Name := Name bn; URL := URL bn;
     ConsecutiveErrors := ConsecutiveErrors bn;
     ConsecutiveSuccesses := ConsecutiveSuccesses bn;
     TotalFailures := TotalFailures bn; Requests := Requests bn;
     Priority := Priority bn; OriginalPriority := i |}.

(** The first element of [l] that satisfies [p]: a [for ... range] loop that
    assigns and breaks at the first hit. *)
Fixpoint findFirst (p : nat → bool) (l : list nat) : option nat :=
  match l with
  | [] => None
  | x :: l' => if p x then Some x else findFirst p l'
  end.

(** The references of [lb.nodes] in slice order. *)
Definition nodeRefs (ns : list BeaconNode) : list nat :=
  seq 0 (length ns).

Section Construction.
Variable url_Parse_ok : string → bool.

(** The loop of [New]: node [i] of the configuration gets priority and
    original priority [i]; a node whose construction fails is skipped, and
    its index with it. *)
Fixpoint newNodes (i : Z) (allNodes : list NodeConfig) : list BeaconNode :=
  match allNodes with
  | [] => []
  | nodeConfig :: rest =>
    match NewBeaconNode url_Parse_ok nodeConfig with
    | None => newNodes (i + 1) rest
    | Some node =>
      setOriginalPriority i (SetPriority i node) :: newNodes (i + 1) rest
    end
  end.

(** [New]: [None] stands for the returned error. The healthy set is the nil
    slice until the startup health check. The metrics client, whose
    construction can also fail, is a collaborator and is left out. *)
Definition New (cfg : Config) : option LoadBalancer :=
  let allNodes := GetAllNodes cfg in
  if bool_decide (length allNodes = 0%nat) then None
  else
    let ns := newNodes 0 allNodes in
    if bool_decide (length ns = 0%nat) then None
    else Some {| nodes := ns; config := cfg; healthyNodes := [] |}.
End Construction.

Definition GetNodes (lb : LoadBalancer) : list BeaconNode := nodes lb.

Definition GetHealthyNodes (lb : LoadBalancer) : list nat := healthyNodes lb.

(** ** Health-check scheduler *)

(** [sort.Slice(lb.healthyNodes, less)] with [less i j] comparing
    [GetPriority]. [sort.Slice] belongs to the Go library and is not stable:
    it returns some permutation of its input that is ordered by the key,
    which is unique when the keys are distinct. *)
Definition priorityLe (ns : list BeaconNode) (a b : nat) : Prop :=
  GetPriority (ns !!! a) ≤ GetPriority (ns !!! b).

#[global] Instance priorityLe_dec ns : RelDecision (priorityLe ns).
Proof. intros a b. unfold priorityLe. apply _. Defined.

Definition sort_Slice (ns : list BeaconNode) (l : list nat) : list nat :=
  merge_sort (priorityLe ns) l.

Section Scheduler.
Variable json_Unmarshal : string → string + SyncingResponse.

(** A probe delivered on [resultsChan]: the node and what its GET returned.
    The list of arrivals is in the order of delivery. *)
Definition Arrival : Type := nat * GetResult.

(** [StartupHealthCheck]: the healthy set becomes the healthy arrivals,
    sorted by priority; the boolean is [true] when an error is returned. *)
Definition StartupHealthCheck (arrivals : list Arrival) (lb : LoadBalancer)
    : LoadBalancer * bool :=
  let healthy :=
    (filter (λ r : Arrival,
               (CheckSyncStatus json_Unmarshal r.2).1 = true) arrivals).*1 in
  let sorted := sort_Slice (nodes lb) healthy in
  ({| nodes := nodes lb; config := config lb; healthyNodes := sorted |},
   bool_decide (length sorted = 0%nat)).

(** [performHealthCheck], the nodes that are probed. *)
Definition backupNodes (ns : list BeaconNode) : list nat :=
  filter (λ n, IsBackup (ns !!! n) = true) (nodeRefs ns).

(** The collection loop, one result: the counters of the node. *)
Definition collectResult (ns : list BeaconNode) (r : Arrival)
    : list BeaconNode :=
  if (HealthCheck json_Unmarshal r.2).1
  then onNode ResetErrors r.1 (onNode IncrementSuccess r.1 ns)
  else onNode ResetSuccesses r.1 ns.

(** The collection loop, the slice it appends to. *)
Definition newHealthyBackups (arrivals : list Arrival) : list nat :=
  (filter (λ r : Arrival,
             (HealthCheck json_Unmarshal r.2).1 = true) arrivals).*1.

(** [for _, node := range lb.nodes { if node.IsPrimary() ... break }] *)
Definition findCurrentPrimary (ns : list BeaconNode) : option nat :=
  findFirst (λ n, IsPrimary (ns !!! n)) (nodeRefs ns).

(** [for _, node := range newHealthyBackups
      { if node.OriginalPriority == 0 ... break }] *)
Definition findOriginalPrimary (ns : list BeaconNode) (nhb : list nat)
    : option nat :=
  findFirst (λ n, bool_decide (OriginalPriority (ns !!! n) = 0)) nhb.

(** The failback decision and the failback itself. *)
Definition failback (cfg : Config) (nhb : list nat) (ns : list BeaconNode)
    : list BeaconNode :=
  let originalPrimary := findOriginalPrimary ns nhb in
  let shouldFailback :=
    match originalPrimary with
    | Some o =>
      bool_decide (GetConsecutiveSuccesses (ns !!! o)
                   >= SuccessfulChecksForFailback cfg)
    | None => false
    end in
  let currentPrimary := findCurrentPrimary ns in
  match originalPrimary, currentPrimary with
  | Some o, Some c =>
    if shouldFailback
       && bool_decide (Name (ns !!! c) ≠ Name (ns !!! o))
    then
      let ns1 := onNode ResetErrors o (onNode (SetPriority 0) o ns) in
      onNode (λ bn, SetPriority (OriginalPriority bn) bn) c ns1
    else ns
  | _, _ => ns
  end.

(** The sweep that restores every healthy backup to its original priority. *)
Definition restoreOne (ns : list BeaconNode) (n : nat) : list BeaconNode :=
  if bool_decide (GetPriority (ns !!! n) ≠ OriginalPriority (ns !!! n))
  then onNode (λ bn, SetPriority (OriginalPriority bn) bn) n ns
  else ns.

Definition restorePriorities (nhb : list nat) (ns : list BeaconNode)
    : list BeaconNode :=
  foldl restoreOne ns nhb.

(** The head of the rebuilt list: the current primary, when a node of that
    name is in the previous healthy set. *)
Definition primaryIfHealthy (ns : list BeaconNode) (healthy : list nat)
    (currentPrimary : option nat) : list nat :=
  match currentPrimary with
  | Some c =>
    if existsb (λ h, bool_decide (Name (ns !!! h) = Name (ns !!! c))) healthy
    then [c] else []
  | None => []
  end.

(** [int(^uint(0) >> 1)] on a 64-bit platform. *)
Definition maxInt : Z := 2 ^ 63 - 1.

(** The search for the backup with the lowest strictly positive priority. *)
Definition lowestStep (ns : list BeaconNode) (acc : Z * option nat) (n : nat)
    : Z * option nat :=
  if bool_decide (GetPriority (ns !!! n) < acc.1)
     && bool_decide (GetPriority (ns !!! n) > 0)
  then (GetPriority (ns !!! n), Some n)
  else acc.

Definition lowestPriorityBackup (ns : list BeaconNode) (nhb : list nat)
    : option nat :=
  (foldl (lowestStep ns) (maxInt, None) nhb).2.

(** Promotion, when no node has priority 0. *)
Definition promote (nhb : list nat) (currentPrimary : option nat)
    (ns : list BeaconNode) : list BeaconNode :=
  match currentPrimary with
  | Some _ => ns
  | None =>
    if bool_decide (0 < length nhb)%nat then
      let nodeToPromote :=
        match findOriginalPrimary ns nhb with
        | Some n => Some n
        | None => lowestPriorityBackup ns nhb
        end in
      match nodeToPromote with
      | Some n => onNode ResetErrors n (onNode (SetPriority 0) n ns)
      | None => ns
      end
    else ns
  end.

(** [performHealthCheck]: one pass of the periodic scheduler. [arrivals] are
    the probes of the backup nodes in their order of delivery. *)
Definition performHealthCheck (arrivals : list Arrival) (lb : LoadBalancer)
    : LoadBalancer :=
  if bool_decide (length (backupNodes (nodes lb)) = 0%nat) then lb
  else
    let ns1 := foldl collectResult (nodes lb) arrivals in
    let nhb := newHealthyBackups arrivals in
    let ns2 := failback (config lb) nhb ns1 in
    let ns3 := restorePriorities nhb ns2 in
    let currentPrimary := findCurrentPrimary ns3 in
    let updatedHealthyNodes :=
      primaryIfHealthy ns3 (healthyNodes lb) currentPrimary in
    let ns4 := promote nhb currentPrimary ns3 in
    {| nodes := ns4; config := config lb;
       healthyNodes := updatedHealthyNodes ++ nhb |}.
End Scheduler.

(** ** Routing engine *)

(** [type responseRecorder struct]; the header map is copied through
    unchanged and is left out. *)
Record responseRecorder := mkRecorder {
  statusCode : Z;
  body : string
}.

Definition WriteHeader (code : Z) (rr : responseRecorder)
    : responseRecorder :=
  if bool_decide (statusCode rr = 0)
  then {| statusCode := code; body := body rr |}
  else rr.

Definition Write (data : string) (rr : responseRecorder) : responseRecorder :=
  let rr1 :=
    if bool_decide (statusCode rr = 0)
    then {| statusCode := 200; body := body rr |}
    else rr in
  {| statusCode := statusCode rr1; body := body rr1 +:+ data |}.

(** A call that the reverse proxy of a node makes on the writer it is
    given. *)
Inductive WriterCall :=
  | CallWriteHeader (code : Z)
  | CallWrite (data : string).

Definition applyCall (rr : responseRecorder) (c : WriterCall)
    : responseRecorder :=
  match c with
  | CallWriteHeader code => WriteHeader code rr
  | CallWrite data => Write data rr
  end.

(** What the handler did with the client's [http.ResponseWriter]. *)
Inductive ClientResponse :=
  | NoResponse
      (* the handler returned without a call on the writer *)
  | HttpError (error : string) (code : Z)
      (* [http.Error(w, error, code)] *)
  | Copied (status : Z) (content : string)
      (* [recorder.copyToResponseWriter(w)] *)
  | UpgradeFailed
      (* [lb.upgrader.Upgrade] failed and answered by itself *)
  | WebSocketProxied (node : nat).
      (* the session was proxied to [node] until one side closed *)

(** [copyToResponseWriter]: [WriteHeader] is skipped for a recorder that was
    never written to, and the [Write] that follows then makes the status
    200. *)
Definition copyToResponseWriter (rr : responseRecorder) : ClientResponse :=
  if bool_decide (statusCode rr ≠ 0)
  then Copied (statusCode rr) (body rr)
  else Copied 200 (body rr).

(** What one request observes of the outside world. *)
Record Env := mkEnv {
  ctxDone : nat → bool;
    (* [overallCtx.Done()] is ready at the check before attempt [i] *)
  sinceStart : nat → Z;
    (* [time.Since(start)] when the remaining timeout of attempt [i] is
       computed *)
  proxyServe : nat → nat → list WriterCall;
    (* attempt [i] on node [n]: the calls of [node.Proxy.ServeHTTP] on the
       recorder *)
  dial : nat → bool;
    (* [websocket.DefaultDialer.Dial] to node [n] succeeded *)
  upgrade : bool
    (* [lb.upgrader.Upgrade] succeeded *)
}.

(** The request: its path, and whether gorilla's [IsWebSocketUpgrade]
    holds of its headers. *)
Record Request := mkRequest {
  Path : string;
  IsWebSocketUpgrade : bool
}.

(** The result of a handler: the state it leaves, what the client got,
    and the nodes it contacted, in order. *)
Definition Outcome : Type := LoadBalancer * ClientResponse * list nat.

Definition contacted (n : nat) (o : Outcome) : Outcome :=
  (o.1.1, o.1.2, n :: o.2).

Definition checkRequestTimeout (env : Env) (i : nat) : bool :=
  ctxDone env i.

Definition attemptNodeRequest (env : Env) (node : nat) (i : nat)
    (lb : LoadBalancer) : LoadBalancer * responseRecorder :=
  (withNodes (onNode IncrementRequests node (nodes lb)) lb,
   foldl applyCall {| statusCode := 0; body := "" |} (proxyServe env i node)).

Definition handleSuccessResponse (node : nat) (recorder : responseRecorder)
    (lb : LoadBalancer) : LoadBalancer * ClientResponse :=
  (withNodes (onNode ResetErrors node (nodes lb)) lb,
   copyToResponseWriter recorder).

(** The demotion block shared, word for word, by [handleNodeError] and
    [connectToUpstreamWebSocket]: priority [len(lb.nodes)], and the healthy
    set without the nodes of that name. *)
Definition demotePrimary (node : nat) (lb : LoadBalancer) : LoadBalancer :=
  let maxPriority := Z.of_nat (length (nodes lb)) in
  let ns := onNode (SetPriority maxPriority) node (nodes lb) in
  {| nodes := ns; config := config lb;
     healthyNodes :=
       filter (λ n, Name (ns !!! n) ≠ Name (ns !!! node)) (healthyNodes lb) |}.

Definition handleNodeError (node : nat) (status : Z) (lb : LoadBalancer)
    : LoadBalancer :=
  if bool_decide (status >= HTTPStatusServerErrorMin) then
    let lb1 := withNodes (onNode IncrementError node (nodes lb)) lb in
    let consecutiveErrors := ConsecutiveErrors (nodes lb1 !!! node) in
    if IsPrimary (nodes lb1 !!! node)
       && bool_decide (consecutiveErrors >= ErrorThreshold (config lb))
    then demotePrimary node lb1
    else lb1
  else lb.

(** The loop of [handleHTTPRequest] from attempt [i] on, over what is left
    of the snapshot. *)
Fixpoint tryNodes (env : Env) (i : nat) (snapshot : list nat)
    (lb : LoadBalancer) : Outcome :=
  match snapshot with
  | [] => (lb, HttpError "All beacon nodes unavailable" http_StatusBadGateway, [])
  | node :: rest =>
    if bool_decide (Z.of_nat i >= MaxRetries (config lb)) then
      (lb, HttpError "All beacon nodes unavailable" http_StatusBadGateway, [])
    else if checkRequestTimeout env i then (lb, NoResponse, [])
    else
      let remainingTimeout := RequestTimeout (config lb) - sinceStart env i in
      if bool_decide (remainingTimeout <= 0) then
        (lb, HttpError "Request timeout" http_StatusGatewayTimeout, [])
      else
        let '(lb1, recorder) := attemptNodeRequest env node i lb in
        let lastStatusCode := statusCode recorder in
        if bool_decide (lastStatusCode >= HTTPStatusSuccessMin)
           && bool_decide (lastStatusCode < HTTPStatusSuccessMax)
        then
          let '(lb2, resp) := handleSuccessResponse node recorder lb1 in
          (lb2, resp, [node])
        else
          contacted node
            (tryNodes env (S i) rest (handleNodeError node lastStatusCode lb1))
  end.

Definition handleHTTPRequest (env : Env) (lb : LoadBalancer) : Outcome :=
  tryNodes env 0 (GetHealthyNodes lb) lb.

(** An attempt fails: the deadline is not exceeded, and the recorded status
    is not a success. *)
Definition attemptFails (env : Env) (lb : LoadBalancer) (i node : nat)
    : Prop :=
  ctxDone env i = false
  ∧ sinceStart env i < RequestTimeout (config lb)
  ∧ ¬ (HTTPStatusSuccessMin
       ≤ statusCode (attemptNodeRequest env node i lb).2
       < HTTPStatusSuccessMax).

(** ** WebSocket proxier *)

(** The failure branch of the dial in [connectToUpstreamWebSocket]. *)
Definition dialFailed (node : nat) (lb : LoadBalancer) : LoadBalancer :=
  let lb1 := withNodes (onNode IncrementError node (nodes lb)) lb in
  if IsPrimary (nodes lb1 !!! node) then
    let consecutiveErrors := ConsecutiveErrors (nodes lb1 !!! node) in
    if bool_decide (consecutiveErrors >= ErrorThreshold (config lb))
    then demotePrimary node lb1
    else lb1
  else lb1.

(** [connectToUpstreamWebSocket]: the selected node if a dial succeeded,
    and the nodes dialled. *)
Fixpoint connectToUpstreamWebSocket (env : Env) (snapshot : list nat)
    (lb : LoadBalancer) : LoadBalancer * option nat * list nat :=
  match snapshot with
  | [] => (lb, None, [])
  | node :: rest =>
    if dial env node then (lb, Some node, [node])
    else
      let '(lb', sel, dialled) :=
        connectToUpstreamWebSocket env rest (dialFailed node lb) in
      (lb', sel, node :: dialled)
  end.

Section Serving.
(** [lb.validator.IsValidBeaconEndpoint], an external collaborator. *)
Variable IsValidBeaconEndpoint : string → bool.

Definition handleWebSocket (env : Env) (r : Request) (lb : LoadBalancer)
    : Outcome :=
  if negb (IsValidBeaconEndpoint (Path r)) then
    (lb, HttpError "Invalid Beacon Chain API endpoint" http_StatusForbidden, [])
  else
    let healthy := GetHealthyNodes lb in
    if bool_decide (length healthy = 0%nat) then
      (lb, HttpError "No healthy beacon nodes available"
                     http_StatusServiceUnavailable, [])
    else
      let '(lb1, selectedNode, dialled) :=
        connectToUpstreamWebSocket env healthy lb in
      match selectedNode with
      | None =>
        (lb1, HttpError "Failed to establish WebSocket connection to any node"
                        http_StatusBadGateway, dialled)
      | Some n =>
        if negb (upgrade env) then (lb1, UpgradeFailed, dialled)
        else
          (withNodes (onNode IncrementRequests n (nodes lb1)) lb1,
           WebSocketProxied n, dialled)
      end.

Definition ServeHTTP (env : Env) (r : Request) (lb : LoadBalancer)
    : Outcome :=
  if negb (IsValidBeaconEndpoint (Path r)) then
    (lb, HttpError "Invalid Beacon Chain API endpoint" http_StatusForbidden, [])
  else if IsWebSocketUpgrade r then handleWebSocket env r lb
  else handleHTTPRequest env lb.
End Serving.

(** ** The proxy as a transition system *)

(** The primaries of the healthy set, one entry per position. *)
Definition healthyPrimaries (lb : LoadBalancer) : list nat :=
  filter (λ n, IsPrimary (nodes lb !!! n) = true) (healthyNodes lb).

(** The healthy set is in ascending order of current priority. *)
Definition sortedByPriority (lb : LoadBalancer) : Prop :=
  Sorted (priorityLe (nodes lb)) (healthyNodes lb).

#[global] Instance sortedByPriority_dec lb : Decision (sortedByPriority lb).
Proof. unfold sortedByPriority. apply _. Defined.

(** The shape of the shared state that the operations maintain: names are
    unique; only the first node of [lb.nodes] can have original priority 0;
    the healthy set refers to nodes of [lb.nodes]; the original primary,
    while in the healthy set, is at priority 0; and at most one position of
    the healthy set holds a primary. *)
Record wellFormed (lb : LoadBalancer) : Prop := mkWellFormed {
  wf_names : NoDup (Name <$> nodes lb);
  wf_original : ∀ m, (m < length (nodes lb))%nat →
                     OriginalPriority (nodes lb !!! m) = 0 → m = 0%nat;
  wf_valid : ∀ m, m ∈ healthyNodes lb → (m < length (nodes lb))%nat;
  wf_home : ∀ m, m ∈ healthyNodes lb →
                 OriginalPriority (nodes lb !!! m) = 0 →
                 GetPriority (nodes lb !!! m) = 0;
  wf_primary : (length (healthyPrimaries lb) ≤ 1)%nat
}.

Section System.
Variable url_Parse_ok : string → bool.
Variable json_Unmarshal : string → string + SyncingResponse.
Variable IsValidBeaconEndpoint : string → bool.

(** The states in which the process starts serving: [New] succeeded, every
    node was probed once, and [StartupHealthCheck] returned no error. *)
Inductive started (cfg : Config) : LoadBalancer → Prop :=
  | started_intro lb0 arrivals lb :
      New url_Parse_ok cfg = Some lb0 →
      arrivals.*1 ≡ₚ nodeRefs (nodes lb0) →
      StartupHealthCheck json_Unmarshal arrivals lb0 = (lb, false) →
      started cfg lb.

(** One operation on the shared state: a client request served to its end,
    or one pass of the periodic scheduler, in which every backup node was
    probed once. *)
Inductive step : LoadBalancer → LoadBalancer → Prop :=
  | step_request env r lb :
      step lb (ServeHTTP IsValidBeaconEndpoint env r lb).1.1
  | step_periodic arrivals lb :
      arrivals.*1 ≡ₚ backupNodes (nodes lb) →
      step lb (performHealthCheck json_Unmarshal arrivals lb).

Inductive reachable (cfg : Config) : LoadBalancer → Prop :=
  | reachable_start lb : started cfg lb → reachable cfg lb
  | reachable_step lb lb' :
      reachable cfg lb → step lb lb' → reachable cfg lb'.
End System.

End loadbalancer.

(* ===================================================================== *)
(** * Package ratelimit *)
(* ===================================================================== *)

Module ratelimit.

(** [type clientBucket struct]. A [time.Time] is its reading in nanoseconds
    on the clock of the process. *)
Record clientBucket := mkClientBucket {
  requests : list Z;
  lastSeen : Z
}.

(** [type RateLimiter struct]: the buckets by client key, the limit and the
    window (a [time.Duration], in nanoseconds). The ticker drives [cleanup]
    and carries no data. *)
Record RateLimiter := mkRateLimiter {
  clients : gmap string clientBucket;
  rps : Z;
  window : Z
}.

Definition time_Minute : Z := 60 * 1000000000.

Definition http_StatusTooManyRequests : Z := 429.

Definition withClients (m : gmap string clientBucket) (rl : RateLimiter)
    : RateLimiter :=
  {| clients := m; rps := rps rl; window := window rl |}.

(** [New]: no client is known. *)
Definition New (requestsPerSecond : Z) (window : Z) : RateLimiter :=
  {| clients := ∅; rps := requestsPerSecond; window := window |}.

(** [Allow], with [now] the reading of [time.Now()]. The bucket of the
    client is created when missing, stamped, purged of the requests that
    are not after [now - window], and the request is recorded in it when
    fewer than [rps] remain. *)
Definition Allow (now : Z) (ip : string) (rl : RateLimiter)
    : RateLimiter * bool :=
  let bucket :=
    match clients rl !! ip with
    | Some bucket => bucket
    | None => {| requests := []; lastSeen := now |}
    end in
  let cutoff := now - window rl in
  let validRequests :=
    filter (λ reqTime, cutoff < reqTime) (requests bucket) in
  if bool_decide (Z.of_nat (length validRequests) >= rps rl)
  then
    (withClients
       (<[ip := {| requests := validRequests; lastSeen := now |}]>
          (clients rl)) rl,
     false)
  else
    (withClients
       (<[ip := {| requests := validRequests ++ [now]; lastSeen := now |}]>
          (clients rl)) rl,
     true).

(** One tick of [cleanup], with [now] the reading of [time.Now()]: the
    buckets last seen before [now - 5 minutes] are deleted. *)
Definition cleanup (now : Z) (rl : RateLimiter) : RateLimiter :=
  let cutoff := now - 5 * time_Minute in
  withClients
    (filter (λ kv : string * clientBucket, ¬ lastSeen kv.2 < cutoff)
            (clients rl)) rl.

(** What [getClientIP] reads of a request: [r.Header.Get] of the two
    headers (empty when absent) and [r.RemoteAddr]. *)
Record Request := mkRequest {
  XForwardedFor : string;
  XRealIP : string;
  RemoteAddr : string
}.

(** [ips[:i]] for the first [i] with [ips[i] == ','], if any. *)
Fixpoint beforeComma (ips : string) : option string :=
  match ips with
  | EmptyString => None
  | String char rest =>
    if bool_decide (char = ","%char) then Some EmptyString
    else String char <$> beforeComma rest
  end.

Section ClientIP.
(** [net.ParseIP(s) != nil] and [net.SplitHostPort], which returns the host
    or an error (Go library). *)
Variable net_ParseIP_ok : string → bool.
Variable net_SplitHostPort : string → option string.

Definition parseFirstIP (ips : string) : string :=
  match beforeComma ips with
  | Some ip =>
    if net_ParseIP_ok ip then ip
    else if net_ParseIP_ok ips then ips else ""
  | None => if net_ParseIP_ok ips then ips else ""
  end.

Definition getClientIP (r : Request) : string :=
  let xff := XForwardedFor r in
  let fromXff :=
    if bool_decide (xff ≠ ""%string) then parseFirstIP xff
    else ""%string in
  if bool_decide (fromXff ≠ ""%string) then fromXff
  else
    let xri := XRealIP r in
    if bool_decide (xri ≠ ""%string) && net_ParseIP_ok xri then xri
    else
      match net_SplitHostPort (RemoteAddr r) with
      | None => RemoteAddr r
      | Some host => host
      end.

(** What the middleware answers: its own [http.Error], or what the next
    handler answers. *)
Inductive Response (A : Type) :=
  | HttpError (error : string) (code : Z)
  | Next (a : A).

(** [Middleware(next)], serving one request; [S] is the state of the next
    handler. *)
Definition Middleware {S A : Type} (next : Request → S → S * A) (now : Z)
    (r : Request) (st : RateLimiter * S) : (RateLimiter * S) * Response A :=
  let ip := getClientIP r in
  let allowed := Allow now ip st.1 in
  if negb allowed.2
  then ((allowed.1, st.2),
        HttpError A "Rate limit exceeded" http_StatusTooManyRequests)
  else
    let served := next r st.2 in
    ((allowed.1, served.1), Next A served.2).
End ClientIP.

End ratelimit.

(* ===================================================================== *)
(** * Package validator *)
(* ===================================================================== *)

Module validator.

(** The syntax of the patterns of the validator. Every pattern is anchored
    at both ends ([^] ... [$]) and is a sequence of literal text and of the
    class [[^/]+]: one or more bytes other than a slash. *)
Inductive Piece :=
  | Lit (text : string)
  | NotSlashPlus.

Definition Regexp : Type := list Piece.

(** [s] without the prefix [p], when it has it. *)
Fixpoint stripPrefix (p s : string) : option string :=
  match p with
  | EmptyString => Some s
  | String c p' =>
    match s with
    | EmptyString => None
    | String c' s' => if bool_decide (c = c') then stripPrefix p' s' else None
    end
  end.

(** [re.MatchString(s)] for an anchored pattern of that syntax. *)
Fixpoint MatchString (re : Regexp) (s : string) : bool :=
  match re with
  | [] => bool_decide (s = EmptyString)
  | Lit text :: re' =>
    match stripPrefix text s with
    | Some rest => MatchString re' rest
    | None => false
    end
  | NotSlashPlus :: re' =>
    (fix plus (s : string) : bool :=
       match s with
       | EmptyString => false
       | String c s' =>
         negb (bool_decide (c = "/"%char)) && (MatchString re' s' || plus s')
       end) s
  end.

(** [NewBeaconEndpointValidator]: the compiled patterns, in the order of the
    source (the three rewards patterns occur twice). *)
Definition validPaths : list Regexp :=
  [
    (* Beacon endpoints *)
    [Lit "/eth/v1/beacon/genesis"];
    [Lit "/eth/v1/beacon/states/"; NotSlashPlus; Lit "/root"];
    [Lit "/eth/v1/beacon/states/"; NotSlashPlus; Lit "/fork"];
    [Lit "/eth/v1/beacon/states/"; NotSlashPlus; Lit "/finality_checkpoints"];
    [Lit "/eth/v1/beacon/states/"; NotSlashPlus; Lit "/validators"];
    [Lit "/eth/v1/beacon/states/";
     NotSlashPlus; Lit "/validators/"; NotSlashPlus];
    [Lit "/eth/v1/beacon/states/"; NotSlashPlus; Lit "/validator_balances"];
    [Lit "/eth/v1/beacon/states/"; NotSlashPlus; Lit "/committees"];
    [Lit "/eth/v1/beacon/states/"; NotSlashPlus; Lit "/sync_committees"];
    [Lit "/eth/v1/beacon/states/"; NotSlashPlus; Lit "/randao"];
    [Lit "/eth/v1/beacon/headers"];
    [Lit "/eth/v1/beacon/headers/"; NotSlashPlus];
    [Lit "/eth/v1/beacon/blocks/"; NotSlashPlus];
    [Lit "/eth/v1/beacon/blocks/"; NotSlashPlus; Lit "/root"];
    [Lit "/eth/v1/beacon/blocks/"; NotSlashPlus; Lit "/attestations"];
    [Lit "/eth/v1/beacon/blob_sidecars/"; NotSlashPlus];
    [Lit "/eth/v1/beacon/blobs/"; NotSlashPlus];
    [Lit "/eth/v1/beacon/pool/attestations"];
    [Lit "/eth/v1/beacon/pool/attester_slashings"];
    [Lit "/eth/v1/beacon/pool/proposer_slashings"];
    [Lit "/eth/v1/beacon/pool/voluntary_exits"];
    [Lit "/eth/v1/beacon/pool/bls_to_execution_changes"];
    [Lit "/eth/v1/beacon/light_client/bootstrap/"; NotSlashPlus];
    [Lit "/eth/v1/beacon/light_client/updates"];
    [Lit "/eth/v1/beacon/light_client/finality_update"];
    [Lit "/eth/v1/beacon/light_client/optimistic_update"];
    [Lit "/eth/v1/beacon/deposit_snapshot"];
    [Lit "/eth/v1/beacon/rewards/blocks/"; NotSlashPlus];
    [Lit "/eth/v1/beacon/rewards/attestations/"; NotSlashPlus];
    [Lit "/eth/v1/beacon/rewards/sync_committee/"; NotSlashPlus];
    (* V2 Beacon endpoints *)
    [Lit "/eth/v2/beacon/blocks/"; NotSlashPlus];
    [Lit "/eth/v2/beacon/pool/attestations"];
    (* V3 Beacon endpoints *)
    [Lit "/eth/v3/beacon/blocks/"; NotSlashPlus];
    (* Config endpoints *)
    [Lit "/eth/v1/config/fork_schedule"];
    [Lit "/eth/v1/config/spec"];
    [Lit "/eth/v1/config/deposit_contract"];
    (* Debug endpoints (may want to restrict these in production) *)
    [Lit "/eth/v1/debug/beacon/states/"; NotSlashPlus];
    [Lit "/eth/v1/debug/beacon/heads"];
    [Lit "/eth/v1/debug/fork_choice"];
    [Lit "/eth/v2/debug/beacon/states/"; NotSlashPlus];
    [Lit "/eth/v2/debug/beacon/heads"];
    (* Events (WebSocket) *)
    [Lit "/eth/v1/events"];
    (* Node endpoints *)
    [Lit "/eth/v1/node/identity"];
    [Lit "/eth/v1/node/peers"];
    [Lit "/eth/v1/node/peers/"; NotSlashPlus];
    [Lit "/eth/v1/node/peer_count"];
    [Lit "/eth/v1/node/version"];
    [Lit "/eth/v1/node/syncing"];
    [Lit "/eth/v1/node/health"];
    (* Validator endpoints *)
    [Lit "/eth/v1/validator/duties/attester/"; NotSlashPlus];
    [Lit "/eth/v1/validator/duties/proposer/"; NotSlashPlus];
    [Lit "/eth/v1/validator/duties/sync/"; NotSlashPlus];
    [Lit "/eth/v1/validator/blocks/"; NotSlashPlus];
    [Lit "/eth/v1/validator/attestation_data"];
    [Lit "/eth/v1/validator/aggregate_attestation"];
    [Lit "/eth/v1/validator/aggregate_and_proofs"];
    [Lit "/eth/v1/validator/beacon_committee_subscriptions"];
    [Lit "/eth/v1/validator/sync_committee_subscriptions"];
    [Lit "/eth/v1/validator/sync_committee_contribution"];
    [Lit "/eth/v1/validator/contribution_and_proofs"];
    [Lit "/eth/v1/validator/prepare_beacon_proposer"];
    [Lit "/eth/v1/validator/register_validator"];
    [Lit "/eth/v1/validator/liveness/"; NotSlashPlus];
    (* V2 Validator endpoints *)
    [Lit "/eth/v2/validator/blocks/"; NotSlashPlus];
    [Lit "/eth/v2/validator/aggregate_attestation"];
    (* V3 Validator endpoints *)
    [Lit "/eth/v3/validator/blocks/"; NotSlashPlus];
    (* Builder endpoints (MEV-Boost) *)
    [Lit "/eth/v1/builder/states/"; NotSlashPlus; Lit "/expected_withdrawals"];
    (* Rewards endpoints *)
    [Lit "/eth/v1/beacon/rewards/blocks/"; NotSlashPlus];
    [Lit "/eth/v1/beacon/rewards/attestations/"; NotSlashPlus];
    [Lit "/eth/v1/beacon/rewards/sync_committee/"; NotSlashPlus]
  ]%string.

(** [strings.TrimRight(path, "/")] *)
Fixpoint TrimRight_slash (s : string) : string :=
  match s with
  | EmptyString => EmptyString
  | String c s' =>
    match TrimRight_slash s' with
    | EmptyString =>
      if bool_decide (c = "/"%char) then EmptyString
      else String c EmptyString
    | rest => String c rest
    end
  end.

Section Validator.
(** [strings.TrimSpace] (Go library). *)
Variable strings_TrimSpace : string → string.

Definition IsValidBeaconEndpoint (path : string) : bool :=
  let path := strings_TrimSpace path in
  let path := TrimRight_slash path in
  if bool_decide (path = ""%string) then false
  else existsb (λ pattern, MatchString pattern path) validPaths.

Definition GetValidationError (path : string) : string :=
  if negb (IsValidBeaconEndpoint path)
  then ("Invalid Beacon Chain API endpoint: " +:+ path)%string
  else ""%string.
End Validator.

End validator.

(* ===================================================================== *)
(** * Concrete deployments, used as examples *)
(* ===================================================================== *)

Import beaconnode loadbalancer.

Section Scenarios.

(** Every URL parses, every path is valid, and every probe body decodes to
    a synced node. *)
Definition anyURL : string → bool := λ _, true.
Definition anyPath : string → bool := λ _, true.
Definition syncedJSON : string → string + SyncingResponse :=
  λ _, inr (mkSyncingResponse false "0").

(** A probe answered 200 with a body. *)
Definition probeOK : GetResult := GetOk 200 (ReadOk "{}").
(** A probe that failed in transport. *)
Definition probeDown : GetResult := GetErr "connection refused".

(** Backends [p, b] (and [p, b, c]) with [error_threshold = 3]. *)
Definition nodeP : NodeConfig := mkNodeConfig "p" "http://p:5052" "lighthouse".
Definition nodeB : NodeConfig := mkNodeConfig "b" "http://b:5052" "prysm".
Definition nodeC : NodeConfig := mkNodeConfig "c" "http://c:5052" "teku".

Definition configWith (maxRetries failbackChecks : Z)
    (allNodes : list NodeConfig) : Config :=
  {| MaxRetries := maxRetries; RequestTimeout := 1200000000;
     ErrorThreshold := 3; SuccessfulChecksForFailback := failbackChecks;
     GetAllNodes := allNodes |}.

Definition configOf (maxRetries : Z) (allNodes : list NodeConfig) : Config :=
  configWith maxRetries 3 allNodes.

(** The state after [New] and a startup health check with the given
    arrivals. *)
Definition startWith (cfg : Config) (arrivals : list Arrival)
    : LoadBalancer :=
  match New anyURL cfg with
  | Some lb0 => (StartupHealthCheck syncedJSON arrivals lb0).1
  | None => {| nodes := []; config := cfg; healthyNodes := [] |}
  end.

(** A request environment: node 0 answers 500, every other node answers
    200; no deadline is hit, no dial succeeds. *)
Definition primaryFails (bodyP bodyB : string) : Env :=
  {| ctxDone := λ _, false;
     sinceStart := λ _, 1000;
     proxyServe := λ _ n,
       if bool_decide (n = 0%nat)
       then [CallWriteHeader 500; CallWrite bodyP]
       else [CallWriteHeader 200; CallWrite bodyB];
     dial := λ _, false;
     upgrade := true |}.

(** As [primaryFails], with the overall deadline already exceeded at the
    check before attempt [k]. *)
Definition deadlineAt (k : nat) : Env :=
  {| ctxDone := λ i, bool_decide (k ≤ i)%nat;
     sinceStart := λ _, 1000;
     proxyServe := λ _ _, [CallWriteHeader 500; CallWrite "error"];
     dial := λ _, false;
     upgrade := true |}.

(** A request environment in which every node answers with the status
    [code] and an empty JSON object, no deadline is hit, node [k] is the
    only one that accepts a WebSocket dial, and the upgrade succeeds. *)
Definition everyNodeAnswers (code : Z) (k : nat) : Env :=
  {| ctxDone := λ _, false;
     sinceStart := λ _, 1000;
     proxyServe := λ _ _, [CallWriteHeader code; CallWrite "{}"];
     dial := λ n, bool_decide (n = k);
     upgrade := true |}.

Definition httpGet : Request := mkRequest "/eth/v1/beacon/headers/head" false.
Definition wsUpgrade : Request := mkRequest "/eth/v1/events" true.

(** The state after [k] requests [r], each served to its end in [env]. *)
Definition serveAll (env : Env) (r : Request) (k : nat) (lb : LoadBalancer)
    : LoadBalancer :=
  Nat.iter k (λ st, (ServeHTTP anyPath env r st).1.1) lb.

(** Backends [p, b], both healthy at startup. *)
Definition twoNodes (maxRetries : Z) : LoadBalancer :=
  startWith (configOf maxRetries [nodeP; nodeB])
            [(0%nat, probeOK); (1%nat, probeOK)].

(** Backends [p, b] with failback after one successful check: [p] was
    demoted by three failed requests, and a scheduler pass that found [p]
    down promoted [b]. *)
Definition interimPrimary : LoadBalancer :=
  performHealthCheck syncedJSON [(0%nat, probeDown); (1%nat, probeOK)]
    (serveAll (primaryFails "" "") httpGet 3
       (startWith (configWith 3 1 [nodeP; nodeB])
                  [(0%nat, probeOK); (1%nat, probeOK)])).

(** Backends [p, b, c], all healthy at startup. *)
Definition threeNodes (maxRetries : Z) : LoadBalancer :=
  startWith (configOf maxRetries [nodeP; nodeB; nodeC])
            [(0%nat, probeOK); (1%nat, probeOK); (2%nat, probeOK)].

End Scenarios.

(* ===================================================================== *)
(** * Vocabulary of the further properties *)
(* ===================================================================== *)

Section Vocabulary.

(** The data of the [Write] calls of a call sequence, in order. *)
Fixpoint writtenData (calls : list WriterCall) : string :=
  match calls with
  | [] => ""
  | CallWrite data :: rest => data +:+ writtenData rest
  | CallWriteHeader _ :: rest => writtenData rest
  end.

(** The status that a call sequence gives a fresh recorder: the code of the
    first [WriteHeader] with a non-zero code, or 200 when a [Write] comes
    first; 0 when no call sets it. *)
Fixpoint firstStatus (calls : list WriterCall) : Z :=
  match calls with
  | [] => 0
  | CallWriteHeader code :: rest =>
    if bool_decide (code = 0) then firstStatus rest else code
  | CallWrite _ :: _ => 200
  end.

(** What the reverse proxy of [node] records at attempt [i]. *)
Definition recorded (env : Env) (i node : nat) : responseRecorder :=
  foldl applyCall {| statusCode := 0; body := "" |} (proxyServe env i node).

(** The recorded status is a success for the routing engine. *)
Definition isSuccess (rr : responseRecorder) : Prop :=
  HTTPStatusSuccessMin ≤ statusCode rr < HTTPStatusSuccessMax.

(** What a request may do to the shared state: the configuration and the
    node list keep their shape, the healthy set only loses members, and a
    node's priority is either kept or set to the number of nodes. *)
Definition requestEffect (lb lb' : LoadBalancer) : Prop :=
  config lb' = config lb
  ∧ length (nodes lb') = length (nodes lb)
  ∧ healthyNodes lb' `sublist_of` healthyNodes lb
  ∧ ∀ m, Name (nodes lb' !!! m) = Name (nodes lb !!! m)
         ∧ URL (nodes lb' !!! m) = URL (nodes lb !!! m)
         ∧ OriginalPriority (nodes lb' !!! m)
           = OriginalPriority (nodes lb !!! m)
         ∧ (GetPriority (nodes lb' !!! m) = GetPriority (nodes lb !!! m)
            ∨ GetPriority (nodes lb' !!! m) = Z.of_nat (length (nodes lb))).

(** The backup [m], at priority [p], is in the healthy set of a state with
    unique names. *)
Definition backupStays (m : nat) (p : Z) (lb : LoadBalancer) : Prop :=
  NoDup (Name <$> nodes lb)
  ∧ (m < length (nodes lb))%nat
  ∧ m ∈ healthyNodes lb
  ∧ GetPriority (nodes lb !!! m) = p.

(** A counter is kept or reset to 0. *)
Definition keptOrReset (g : BeaconNode → Z) (ns ns' : list BeaconNode)
    : Prop :=
  ∀ m, g (ns' !!! m) = g (ns !!! m) ∨ g (ns' !!! m) = 0.

(** The four counter operations are told apart. *)
#[global] Instance CounterOp_eq_dec : EqDecision CounterOp.
Proof. solve_decision. Defined.

(** How many calls of [op] a call sequence holds. *)
Definition callsOf (op : CounterOp) (ops : list CounterOp) : Z :=
  Z.of_nat (length (filter (λ o, o = op) ops)).

(** A run of the rate limiter: the calls of [Allow], each with the reading
    of the clock and the client key, in order. The log holds every call
    with its verdict. *)
Definition allowStep
    (st : ratelimit.RateLimiter * list (Z * string * bool))
    (c : Z * string) : ratelimit.RateLimiter * list (Z * string * bool) :=
  let allowed := ratelimit.Allow c.1 c.2 st.1 in
  (allowed.1, st.2 ++ [(c, allowed.2)]).

Definition allowAll (calls : list (Z * string)) (rl : ratelimit.RateLimiter)
    : ratelimit.RateLimiter * list (Z * string * bool) :=
  foldl allowStep (rl, []) calls.

(** The clock readings of the admitted calls of [ip] in a log. *)
Definition admittedAt (ip : string) (log : list (Z * string * bool))
    : list Z :=
  (filter (λ e : Z * string * bool, e.1.2 = ip ∧ e.2 = true) log).*1.*1.

(** The requests that the limiter remembers of a client. *)
Definition remembered (ip : string) (rl : ratelimit.RateLimiter) : list Z :=
  match ratelimit.clients rl !! ip with
  | Some bucket => ratelimit.requests bucket
  | None => []
  end.

(** The path as the validator matches it: without surrounding white space
    and without trailing slashes. *)
Definition normalizedPath (strings_TrimSpace : string → string)
    (path : string) : string :=
  validator.TrimRight_slash (strings_TrimSpace path).

(** The path is under [/eth/v1/], [/eth/v2/] or [/eth/v3/]. *)
Definition underEthAPI (path : string) : Prop :=
  ∃ version rest : string,
    version ∈ ["1"; "2"; "3"]%string
    ∧ path = ("/eth/v" +:+ version +:+ "/" +:+ rest)%string.

(** The pattern begins with literal text under [/eth/v1/], [/eth/v2/] or
    [/eth/v3/]. *)
Definition beginsUnderEthAPI (re : validator.Regexp) : bool :=
  match re with
  | validator.Lit text :: _ =>
    existsb (λ prefix, bool_decide (is_Some (validator.stripPrefix prefix text)))
            ["/eth/v1/"; "/eth/v2/"; "/eth/v3/"]%string
  | _ => false
  end.

(** How often node [m] is in the list of contacted nodes. *)
Definition attemptsOn (m : nat) (contactedNodes : list nat) : Z :=
  Z.of_nat (length (filter (λ n, n = m) contactedNodes)).

(** How many of the attempts on node [m] recorded a status of 500 or more,
    when the first node of the list is contacted at attempt [i]. *)
Definition serverErrorsOn (env : Env) (i m : nat)
    (contactedNodes : list nat) : Z :=
  Z.of_nat (length (filter
    (λ jn : nat * nat,
       jn.2 = m ∧ 500 ≤ statusCode (recorded env jn.1 jn.2))
    (imap (λ j n, ((i + j)%nat, n)) contactedNodes))).

(** Node 0, the one node at priority 0, is outside the healthy set, and
    every node is at its original priority. *)
Definition primaryDown (lb : LoadBalancer) : Prop :=
  NoDup (Name <$> nodes lb)
  ∧ (0 < length (nodes lb))%nat
  ∧ (∀ m, m ∈ healthyNodes lb → (m < length (nodes lb))%nat)
  ∧ (∀ m, (m < length (nodes lb))%nat →
          GetPriority (nodes lb !!! m) = OriginalPriority (nodes lb !!! m)
          ∧ (GetPriority (nodes lb !!! m) = 0 ↔ m = 0%nat))
  ∧ 0%nat ∉ healthyNodes lb.

(** From [lb] to [lb'] the routing data is the same (configuration, healthy
    set, names and priorities), and only nodes of [touched] changed. *)
Definition steady (touched : list nat) (lb lb' : LoadBalancer) : Prop :=
  config lb' = config lb
  ∧ healthyNodes lb' = healthyNodes lb
  ∧ length (nodes lb') = length (nodes lb)
  ∧ (∀ m, Name (nodes lb' !!! m) = Name (nodes lb !!! m)
          ∧ GetPriority (nodes lb' !!! m) = GetPriority (nodes lb !!! m)
          ∧ OriginalPriority (nodes lb' !!! m)
            = OriginalPriority (nodes lb !!! m))
  ∧ ∀ m, m ∉ touched → nodes lb' !!! m = nodes lb !!! m.

End Vocabulary.

(* ===================================================================== *)
(** * Properties *)
(* ===================================================================== *)

(** ** Backend counters *)

Section Counters.

Lemma wrap64_small z : - 2 ^ 63 ≤ z < 2 ^ 63 → wrap64 z = z.
Proof. intros Hz. unfold wrap64. rewrite Z.mod_small; lia. Qed.

(** A counter that starts within [0..k] stays within [0..k + n] over [n]
    calls, as long as that stays below the wrap-around. *)
Lemma runOps_bounds ops : ∀ bn k,
  0 ≤ ConsecutiveErrors bn ≤ k →
  0 ≤ ConsecutiveSuccesses bn ≤ k →
  k + Z.of_nat (length ops) < 2 ^ 63 →
  0 ≤ ConsecutiveErrors (runOps ops bn) ≤ k + Z.of_nat (length ops)
  ∧ 0 ≤ ConsecutiveSuccesses (runOps ops bn) ≤ k + Z.of_nat (length ops).
Proof.
  induction ops as [|op ops IH]; intros bn k He Hs Hk.
  - cbn [length runOps foldl] in *. lia.
  - cbn [length] in Hk |- *. rewrite Nat2Z.inj_succ in Hk |- *.
    assert (Hstep : 0 ≤ ConsecutiveErrors (applyOp op bn) ≤ k + 1
                    ∧ 0 ≤ ConsecutiveSuccesses (applyOp op bn) ≤ k + 1).
    { destruct op; cbn; rewrite ?wrap64_small; lia. }
    destruct Hstep as [He' Hs'].
    specialize (IH (applyOp op bn) (k + 1) He' Hs').
    change (runOps (op :: ops) bn) with (runOps ops (applyOp op bn)). lia.
Qed.

Lemma wrap64_add z n : wrap64 (wrap64 z + n) = wrap64 (z + n).
Proof.
  unfold wrap64.
  replace ((z + 2 ^ 63) `mod` 2 ^ 64 - 2 ^ 63 + n + 2 ^ 63)
    with ((z + 2 ^ 63) `mod` 2 ^ 64 + n) by lia.
  rewrite Zplus_mod_idemp_l. do 2 f_equal. lia.
Qed.

Lemma wrap64_range z : - 2 ^ 63 ≤ wrap64 z < 2 ^ 63.
Proof.
  unfold wrap64. pose proof (Z.mod_pos_bound (z + 2 ^ 63) (2 ^ 64)). lia.
Qed.

(** [n] calls of [IncrementError] in a row add [n] modulo [2 ^ 64]. *)
Lemma runOps_replicate_IncrementError n : ∀ bn,
  - 2 ^ 63 ≤ ConsecutiveErrors bn < 2 ^ 63 →
  ConsecutiveErrors (runOps (replicate n OpIncrementError) bn)
  = wrap64 (ConsecutiveErrors bn + Z.of_nat n).
Proof.
  induction n as [|n IH]; intros bn Hbn.
  - cbn [replicate runOps foldl]. rewrite Z.add_0_r, wrap64_small; done.
  - cbn [replicate].
    change (runOps (OpIncrementError :: ?l) bn)
      with (runOps l (IncrementError bn)).
    rewrite IH by apply wrap64_range.
    cbn [IncrementError ConsecutiveErrors].
    rewrite wrap64_add. f_equal. lia.
Qed.

(** C7, amended. For every sequence of fewer than [2 ^ 63] IncrementError /
    IncrementSuccess / ResetErrors / ResetSuccesses calls on a freshly
    constructed backend, neither counter is negative after any call; the
    two counters are not both strictly positive after an IncrementError,
    a ResetErrors or a ResetSuccesses; and after an IncrementSuccess they
    are both strictly positive exactly when [consecutive_errors] was
    strictly positive before the call, because IncrementSuccess leaves
    [consecutive_errors] as it is. *)
Theorem C7_counters_amended (url_Parse_ok : string → bool)
    (nc : NodeConfig) (bn0 : BeaconNode)
    (ops : list CounterOp) (op : CounterOp) :
  NewBeaconNode url_Parse_ok nc = Some bn0 →
  Z.of_nat (length ops) + 1 < 2 ^ 63 →
  let before := runOps ops bn0 in
  let after := applyOp op before in
  0 ≤ ConsecutiveErrors after
  ∧ 0 ≤ ConsecutiveSuccesses after
  ∧ (op ≠ OpIncrementSuccess →
       ¬ (0 < ConsecutiveErrors after ∧ 0 < ConsecutiveSuccesses after))
  ∧ (op = OpIncrementSuccess →
       (0 < ConsecutiveErrors after ∧ 0 < ConsecutiveSuccesses after)
       ↔ 0 < ConsecutiveErrors before).
Proof.
  intros Hnew Hlen before after.
  assert (Hb : 0 ≤ ConsecutiveErrors before ≤ 0 + Z.of_nat (length ops)
               ∧ 0 ≤ ConsecutiveSuccesses before
                 ≤ 0 + Z.of_nat (length ops)).
  { unfold NewBeaconNode in Hnew.
    destruct (url_Parse_ok (cfgURL nc)); [|discriminate].
    injection Hnew as <-. apply runOps_bounds; cbn; lia. }
  destruct Hb as [He Hs]. subst after.
  destruct op; cbn; rewrite ?wrap64_small by lia;
    repeat split; try lia; try congruence; try (intros; lia).
Qed.

Lemma C7_counters_amended_witness :
  let bn0 := mkBeaconNode "p" "http://p" 0 0 0 0 0 0 in
  let after :=
    applyOp OpIncrementSuccess (runOps [OpIncrementError] bn0) in
  0 ≤ ConsecutiveErrors after
  ∧ 0 ≤ ConsecutiveSuccesses after
  ∧ (OpIncrementSuccess ≠ OpIncrementSuccess →
       ¬ (0 < ConsecutiveErrors after ∧ 0 < ConsecutiveSuccesses after))
  ∧ (OpIncrementSuccess = OpIncrementSuccess →
       (0 < ConsecutiveErrors after ∧ 0 < ConsecutiveSuccesses after)
       ↔ 0 < ConsecutiveErrors (runOps [OpIncrementError] bn0)).
Proof.
  apply (C7_counters_amended (λ _, true) (mkNodeConfig "p" "http://p" "")
           (mkBeaconNode "p" "http://p" 0 0 0 0 0 0)
           [OpIncrementError] OpIncrementSuccess).
  - reflexivity.
  - vm_compute. reflexivity.
Defined.

(** C7 as stated fails twice. After IncrementError then IncrementSuccess
    both counters are 1. And [2 ^ 63] IncrementError calls in a row wrap
    the [int64] counter around to a negative value. *)
Lemma C7_counterexample :
  let bn0 := mkBeaconNode "p" "http://p" 0 0 0 0 0 0 in
  NewBeaconNode (λ _, true) (mkNodeConfig "p" "http://p" "") = Some bn0
  ∧ (let after := runOps [OpIncrementError; OpIncrementSuccess] bn0 in
     0 < ConsecutiveErrors after ∧ 0 < ConsecutiveSuccesses after)
  ∧ ConsecutiveErrors
      (runOps (replicate (Z.to_nat (2 ^ 63)) OpIncrementError) bn0) < 0.
Proof.
  intros bn0. split; [reflexivity|]. split.
  - split; reflexivity.
  - rewrite runOps_replicate_IncrementError by (cbn; lia).
    rewrite Z2Nat.id by lia. reflexivity.
Qed.

End Counters.

(** ** Health prober *)

Section ProberProperties.
Variable json_Unmarshal : string → string + SyncingResponse.

Local Ltac elem_of_tags := apply list_elem_of_In; cbn; tauto.

Lemma HealthCheck_true resp :
  (HealthCheck json_Unmarshal resp).1 = true ↔ probeHealthy json_Unmarshal resp.
Proof.
  unfold probeHealthy. split.
  - destruct resp as [err|code [err|body]]; cbn; try discriminate.
    + case_bool_decide; cbn; discriminate.
    + case_bool_decide as Hc; cbn; [discriminate|].
      destruct (json_Unmarshal body) as [err|sr] eqn:Hj; cbn; [discriminate|].
      destruct (IsSyncing sr) eqn:Hs; cbn; [discriminate|].
      case_bool_decide as Hd; cbn; [|discriminate].
      intros _. exists body, sr. repeat split; auto.
      f_equal. unfold http_StatusOK in Hc. lia.
  - intros (body & sr & -> & Hj & Hs & Hd). cbn.
    rewrite Hj, Hs, Hd. reflexivity.
Qed.

(** C6. A probe is classified healthy if and only if the status is 200, the
    body was read and decodes as JSON, [is_syncing] is false and
    [sync_distance] is "0"; a healthy verdict carries no error; every
    unhealthy verdict carries an error whose tag is one of the six tags
    request_failed, non_200_status, read_body_failed, json_parse_failed,
    is_syncing, sync_distance_not_zero (the seventh tag of the code,
    not_synced, is never produced); and the startup prober CheckSyncStatus
    gives the same verdict. *)
Theorem C6_probe_classification (resp : GetResult) :
  ((HealthCheck json_Unmarshal resp).1 = true ↔ probeHealthy json_Unmarshal resp)
  ∧ ((HealthCheck json_Unmarshal resp).1 = true →
       (HealthCheck json_Unmarshal resp).2 = None)
  ∧ ((HealthCheck json_Unmarshal resp).1 = false →
       ∃ e, (HealthCheck json_Unmarshal resp).2 = Some e
            ∧ Reason e ∈ failureTags
            ∧ Reason e ≠ "not_synced"%string)
  ∧ (CheckSyncStatus json_Unmarshal resp).1
    = (HealthCheck json_Unmarshal resp).1.
Proof.
  split; [apply HealthCheck_true|].
  unfold failureTags.
  destruct resp as [err|code [err|body]]; cbn;
    repeat first
      [ case_bool_decide; cbn
      | match goal with
        | |- context [json_Unmarshal ?b] => destruct (json_Unmarshal b); cbn
        | |- context [IsSyncing ?sr] => destruct (IsSyncing sr); cbn
        end ];
    split_and!; try done; intros _;
    (eexists; split; [done|]; cbn; split; [elem_of_tags|done]).
Qed.

End ProberProperties.

(** ** Routing engine: responses *)

Section Routing.
Variable IsValidBeaconEndpoint : string → bool.

Lemma config_handleNodeError node status lb :
  config (handleNodeError node status lb) = config lb.
Proof.
  unfold handleNodeError. case_bool_decide; [|done].
  destruct (_ && _); reflexivity.
Qed.

(** The attempts of the retry loop from attempt [i] on are the first [k]
    nodes of what is left of the snapshot, and attempt [i + k - 1], when
    there is one, is within [max_retries]. *)
Lemma tryNodes_attempts env snapshot : ∀ i lb,
  ∃ k : nat,
    (tryNodes env i snapshot lb).2 = take k snapshot
    ∧ (k ≤ length snapshot)%nat
    ∧ (k = 0%nat ∨ Z.of_nat (i + k) ≤ MaxRetries (config lb)).
Proof.
  induction snapshot as [|node rest IH]; intros i lb; cbn [tryNodes].
  - exists 0%nat. cbn. auto with lia.
  - case_bool_decide as Hmax.
    { exists 0%nat. cbn. auto with lia. }
    destruct (checkRequestTimeout env i).
    { exists 0%nat. cbn. auto with lia. }
    case_bool_decide.
    { exists 0%nat. cbn. auto with lia. }
    unfold attemptNodeRequest, handleSuccessResponse.
    destruct (_ && _).
    { exists 1%nat. cbn. split; [done|]. split; lia. }
    match goal with
    | |- context [tryNodes env (S i) rest ?lb1] =>
      destruct (IH (S i) lb1) as (k & Hk & Hlen & Hbound);
      assert (Hcfg : config lb1 = config lb)
        by (rewrite config_handleNodeError; reflexivity)
    end.
    exists (S k). cbn. rewrite Hk. split; [done|]. split; [lia|].
    right. rewrite Hcfg in Hbound. lia.
Qed.

Lemma attemptFails_config env lb lb' i node :
  config lb' = config lb →
  attemptFails env lb i node → attemptFails env lb' i node.
Proof. unfold attemptFails. cbn. intros ->. done. Qed.

Lemma tryNodes_all_fail env snapshot : ∀ i lb,
  (∀ j node, snapshot !! j = Some node →
             Z.of_nat (i + j) < MaxRetries (config lb) →
             attemptFails env lb (i + j) node) →
  (tryNodes env i snapshot lb).1.2
    = HttpError "All beacon nodes unavailable" http_StatusBadGateway
  ∧ (tryNodes env i snapshot lb).2
    = take (Z.to_nat (MaxRetries (config lb) - Z.of_nat i)) snapshot.
Proof.
  induction snapshot as [|node rest IH]; intros i lb Hall; cbn [tryNodes].
  - cbn. rewrite take_nil. done.
  - case_bool_decide as Hmax.
    { cbn. replace (Z.to_nat _) with 0%nat by lia. done. }
    destruct (Hall 0%nat node) as (Hdone & Hrem & Hfail);
      [done|rewrite Nat.add_0_r; lia|].
    rewrite Nat.add_0_r in Hdone, Hrem, Hfail.
    unfold checkRequestTimeout. rewrite Hdone.
    rewrite bool_decide_false by lia.
    destruct (attemptNodeRequest env node i lb) as [lb1 recorder] eqn:Hatt.
    cbn [snd] in Hfail.
    replace (bool_decide (statusCode recorder >= HTTPStatusSuccessMin)
             && bool_decide (statusCode recorder < HTTPStatusSuccessMax))
      with false.
    2:{ symmetry. apply andb_false_iff.
        destruct (decide (statusCode recorder >= HTTPStatusSuccessMin)).
        - right. apply bool_decide_false. lia.
        - left. by apply bool_decide_false. }
    assert (Hcfg : config (handleNodeError node (statusCode recorder) lb1)
                   = config lb).
    { rewrite config_handleNodeError.
      unfold attemptNodeRequest in Hatt. by injection Hatt as <- _. }
    destruct (IH (S i) (handleNodeError node (statusCode recorder) lb1))
      as [Hresp Hatts].
    { intros j n Hj Hlt. rewrite Hcfg in Hlt.
      eapply attemptFails_config; [exact Hcfg|].
      replace (S i + j)%nat with (i + S j)%nat by lia.
      apply Hall; [done|lia]. }
    cbn. split; [done|]. rewrite Hatts, Hcfg.
    replace (Z.to_nat (MaxRetries (config lb) - Z.of_nat i))
      with (S (Z.to_nat (MaxRetries (config lb) - Z.of_nat (S i)))) by lia.
    done.
Qed.

(** C2. For every HTTP request with a valid path, the nodes attempted are
    the first nodes of the healthy-set snapshot, in order, and there are at
    most [min(len(snapshot), max_retries)] of them; when every one of these
    attempts fails, the client gets 502 with the body "All beacon nodes
    unavailable" after exactly that many attempts; with an empty snapshot
    it gets this 502 and no node is contacted. *)
Theorem C2_http_routing (env : Env) (r : Request) (lb : LoadBalancer) :
  IsValidBeaconEndpoint (Path r) = true →
  IsWebSocketUpgrade r = false →
  0 ≤ MaxRetries (config lb) →
  let snapshot := GetHealthyNodes lb in
  let budget :=
    Z.min (Z.of_nat (length snapshot)) (MaxRetries (config lb)) in
  let out := ServeHTTP IsValidBeaconEndpoint env r lb in
  (∃ k : nat, out.2 = take k snapshot ∧ Z.of_nat k ≤ budget)
  ∧ ((∀ i node, snapshot !! i = Some node → Z.of_nat i < budget →
                attemptFails env lb i node) →
       out.1.2 = HttpError "All beacon nodes unavailable" 502
       ∧ out.2 = take (Z.to_nat budget) snapshot)
  ∧ (snapshot = [] →
       out = (lb, HttpError "All beacon nodes unavailable" 502, [])).
Proof.
  intros Hvalid Hws Hmax snapshot budget out.
  assert (Hout : out = tryNodes env 0 snapshot lb).
  { subst out. unfold ServeHTTP. rewrite Hvalid, Hws. reflexivity. }
  rewrite Hout. split_and!.
  - destruct (tryNodes_attempts env snapshot 0%nat lb)
      as (k & Hk & Hlen & Hbound).
    exists k. split; [done|]. subst budget. lia.
  - intros Hall.
    destruct (tryNodes_all_fail env snapshot 0%nat lb) as [Hresp Hatts].
    { intros j node Hj Hlt. cbn. apply Hall; [done|].
      apply lookup_lt_Some in Hj. subst budget. cbn in Hlt. lia. }
    split; [done|]. rewrite Hatts.
    subst budget. rewrite Z.sub_0_r.
    destruct (Z.min_spec (Z.of_nat (length snapshot))
                (MaxRetries (config lb))) as [[Hlt ->]|[Hle ->]].
    + rewrite Nat2Z.id, take_ge by lia. by rewrite firstn_all.
    + done.
  - intros ->. reflexivity.
Qed.

(** The node objects: what a method call on one node does to the store. *)

Lemma onNode_length f n ns : length (onNode f n ns) = length ns.
Proof. apply length_alter. Qed.

Lemma onNode_eq f n ns :
  (n < length ns)%nat → onNode f n ns !!! n = f (ns !!! n).
Proof. apply list_lookup_total_alter_eq. Qed.

Lemma onNode_ne f n m ns : n ≠ m → onNode f n ns !!! m = ns !!! m.
Proof. apply list_lookup_total_alter_ne. Qed.

(** A field that the method leaves alone reads the same on every node. *)
Lemma onNode_field {A} (g : BeaconNode → A) f n m ns :
  (∀ bn, g (f bn) = g bn) → g (onNode f n ns !!! m) = g (ns !!! m).
Proof.
  intros Hg. unfold onNode. rewrite list_lookup_total_alter.
  case_decide as Hd; [|done]. destruct Hd as [-> _]. apply Hg.
Qed.

Lemma Name_onNode f n m ns :
  (∀ bn, Name (f bn) = Name bn) → Name (onNode f n ns !!! m) = Name (ns !!! m).
Proof. apply (onNode_field Name). Qed.

(** The demotion block: the node gets priority [len(lb.nodes)], it leaves
    the healthy set together with every node of its name, and no other node
    object changes. *)
Lemma demotePrimary_spec node lb :
  (node < length (nodes lb))%nat →
  let lb' := demotePrimary node lb in
  GetPriority (nodes lb' !!! node) = Z.of_nat (length (nodes lb))
  ∧ (node ∉ healthyNodes lb')
  ∧ (∀ m, (m ∈ healthyNodes lb')
          ↔ (m ∈ healthyNodes lb
             ∧ Name (nodes lb !!! m) ≠ Name (nodes lb !!! node)))
  ∧ (∀ m, m ≠ node → nodes lb' !!! m = nodes lb !!! m)
  ∧ length (nodes lb') = length (nodes lb).
Proof.
  intros Hlt lb'. subst lb'. unfold demotePrimary. cbn [nodes healthyNodes].
  split_and!.
  - by rewrite onNode_eq.
  - rewrite list_elem_of_filter. intros [Hne _]. by apply Hne.
  - intros m. rewrite list_elem_of_filter, !Name_onNode by done. tauto.
  - intros m Hm. by rewrite onNode_ne.
  - apply onNode_length.
Qed.

(** C4. When an attempt against the current primary yields a status of 500
    or more and that brings its [consecutive_errors] to [error_threshold],
    the node gets priority [N], the number of configured backends; it is
    removed from the healthy set, which otherwise keeps its members (those
    of another name); no other node's state changes, so nothing is promoted
    inline. These are the values that any later read ([GetHealthyNodes],
    [GetPriority]) returns until the next write. The failure branch of the
    WebSocket dial does the same. *)
Theorem C4_on_request_demotion (lb : LoadBalancer) (node : nat) (status : Z) :
  (node < length (nodes lb))%nat →
  IsPrimary (nodes lb !!! node) = true →
  ConsecutiveErrors (IncrementError (nodes lb !!! node))
    >= ErrorThreshold (config lb) →
  status >= 500 →
  let N := Z.of_nat (length (nodes lb)) in
  let lb' := handleNodeError node status lb in
  GetPriority (nodes lb' !!! node) = N
  ∧ (node ∉ GetHealthyNodes lb')
  ∧ (∀ m, (m ∈ GetHealthyNodes lb')
          ↔ (m ∈ GetHealthyNodes lb
             ∧ Name (nodes lb !!! m) ≠ Name (nodes lb !!! node)))
  ∧ (∀ m, m ≠ node → nodes lb' !!! m = nodes lb !!! m)
  ∧ length (nodes lb') = length (nodes lb)
  ∧ dialFailed node lb = lb'.
Proof.
  intros Hlt Hprim Herr Hstatus N lb'.
  set (lb1 := withNodes (onNode IncrementError node (nodes lb)) lb).
  assert (Hnode : nodes lb1 !!! node = IncrementError (nodes lb !!! node)).
  { subst lb1. cbn. by rewrite onNode_eq. }
  assert (Hprim1 : IsPrimary (nodes lb1 !!! node) = true).
  { rewrite Hnode. exact Hprim. }
  assert (Hlb' : lb' = demotePrimary node lb1).
  { subst lb'. unfold handleNodeError. fold lb1.
    rewrite bool_decide_true by (unfold HTTPStatusServerErrorMin; lia).
    rewrite Hprim1, Hnode, bool_decide_true by done. reflexivity. }
  assert (Hlen1 : length (nodes lb1) = length (nodes lb)).
  { subst lb1. cbn. apply onNode_length. }
  destruct (demotePrimary_spec node lb1) as (Hp & Hnot & Hin & Hother & Hlen);
    [by rewrite Hlen1|].
  rewrite Hlb'. unfold GetHealthyNodes. split_and!.
  - subst N. by rewrite Hp, Hlen1.
  - done.
  - intros m. rewrite Hin. subst lb1. cbn [nodes withNodes healthyNodes].
    by rewrite !Name_onNode.
  - intros m Hm. rewrite Hother by done. subst lb1. cbn. by rewrite onNode_ne.
  - by rewrite Hlen.
  - unfold dialFailed. fold lb1. by rewrite Hprim1, Hnode, bool_decide_true.
Qed.

(** The deadline check: when the overall context is done before an attempt,
    the handler returns without any call on the client's writer. *)
Lemma tryNodes_deadline_exceeded env i node rest lb :
  Z.of_nat i < MaxRetries (config lb) →
  ctxDone env i = true →
  tryNodes env i (node :: rest) lb = (lb, NoResponse, []).
Proof.
  intros Hi Hdone. cbn [tryNodes]. rewrite bool_decide_false by lia.
  unfold checkRequestTimeout. by rewrite Hdone.
Qed.

(** The computation of the remaining timeout, two lines further down, does
    answer 504. *)
Lemma tryNodes_no_time_left env i node rest lb :
  Z.of_nat i < MaxRetries (config lb) →
  ctxDone env i = false →
  RequestTimeout (config lb) - sinceStart env i ≤ 0 →
  tryNodes env i (node :: rest) lb
  = (lb, HttpError "Request timeout" http_StatusGatewayTimeout, []).
Proof.
  intros Hi Hdone Hrem. cbn [tryNodes]. rewrite bool_decide_false by lia.
  unfold checkRequestTimeout. by rewrite Hdone, bool_decide_true.
Qed.

(** C10, amended. For every WebSocket upgrade request with a valid path
    that arrives when the healthy set is empty, the proxy answers with
    status 503 (Service Unavailable) and the body "No healthy beacon nodes
    available"; no node is dialled and the state is unchanged. *)
Theorem C10_websocket_no_healthy_nodes (env : Env) (r : Request)
    (lb : LoadBalancer) :
  IsValidBeaconEndpoint (Path r) = true →
  IsWebSocketUpgrade r = true →
  GetHealthyNodes lb = [] →
  ServeHTTP IsValidBeaconEndpoint env r lb
  = (lb, HttpError "No healthy beacon nodes available" 503, []).
Proof.
  intros Hvalid Hws Hempty. unfold ServeHTTP, handleWebSocket.
  rewrite Hvalid, Hws, Hempty. reflexivity.
Qed.

(** A request whose first attempt fails and whose second attempt succeeds
    is answered with the response recorded from the second node. *)
Lemma tryNodes_fall_through env n0 n1 rest lb :
  2 ≤ MaxRetries (config lb) →
  ctxDone env 0%nat = false → ctxDone env 1%nat = false →
  sinceStart env 0%nat < RequestTimeout (config lb) →
  sinceStart env 1%nat < RequestTimeout (config lb) →
  let a0 := attemptNodeRequest env n0 0 lb in
  let lb1 := handleNodeError n0 (statusCode a0.2) a0.1 in
  let a1 := attemptNodeRequest env n1 1 lb1 in
  bool_decide (statusCode a0.2 >= HTTPStatusSuccessMin)
  && bool_decide (statusCode a0.2 < HTTPStatusSuccessMax) = false →
  bool_decide (statusCode a1.2 >= HTTPStatusSuccessMin)
  && bool_decide (statusCode a1.2 < HTTPStatusSuccessMax) = true →
  tryNodes env 0 (n0 :: n1 :: rest) lb
  = ((handleSuccessResponse n1 a1.2 a1.1).1, copyToResponseWriter a1.2,
     [n0; n1]).
Proof.
  intros Hm Hd0 Hd1 Ht0 Ht1 a0 lb1 a1 Hf Hs.
  cbn [tryNodes]. rewrite bool_decide_false by lia.
  unfold checkRequestTimeout. rewrite Hd0, bool_decide_false by lia.
  fold a0. destruct a0 as [lb0' rr0] eqn:Ha0.
  cbn [snd] in Hf. rewrite Hf.
  cbn [fst snd] in lb1. fold lb1.
  assert (Hcfg : config lb1 = config lb).
  { subst lb1. rewrite config_handleNodeError.
    unfold attemptNodeRequest in Ha0. by injection Ha0 as <- _. }
  rewrite Hcfg. rewrite bool_decide_false by lia.
  rewrite Hd1, bool_decide_false by lia.
  fold a1. destruct a1 as [lb1' rr1] eqn:Ha1.
  cbn [snd] in Hs. rewrite Hs.
  reflexivity.
Qed.

End Routing.

Lemma C2_http_routing_witness :
  let lb := twoNodes 3 in
  let env := deadlineAt 5 in
  let snapshot := GetHealthyNodes lb in
  let budget :=
    Z.min (Z.of_nat (length snapshot)) (MaxRetries (config lb)) in
  let out := ServeHTTP anyPath env httpGet lb in
  (∃ k : nat, out.2 = take k snapshot ∧ Z.of_nat k ≤ budget)
  ∧ ((∀ i node, snapshot !! i = Some node → Z.of_nat i < budget →
                attemptFails env lb i node) →
       out.1.2 = HttpError "All beacon nodes unavailable" 502
       ∧ out.2 = take (Z.to_nat budget) snapshot)
  ∧ (snapshot = [] →
       out = (lb, HttpError "All beacon nodes unavailable" 502, [])).
Proof.
  apply (C2_http_routing anyPath (deadlineAt 5) httpGet (twoNodes 3)).
  - reflexivity.
  - reflexivity.
  - vm_compute. discriminate.
Defined.

Lemma C4_on_request_demotion_witness :
  let lb := serveAll (primaryFails "" "") httpGet 2 (twoNodes 3) in
  let lb' := handleNodeError 0 500 lb in
  GetPriority (nodes lb' !!! 0%nat) = 2
  ∧ (0%nat ∉ GetHealthyNodes lb')
  ∧ (∀ m, (m ∈ GetHealthyNodes lb')
          ↔ (m ∈ GetHealthyNodes lb
             ∧ Name (nodes lb !!! m) ≠ Name (nodes lb !!! 0%nat)))
  ∧ (∀ m, m ≠ 0%nat → nodes lb' !!! m = nodes lb !!! m)
  ∧ length (nodes lb') = length (nodes lb)
  ∧ dialFailed 0 lb = lb'.
Proof.
  apply (C4_on_request_demotion
           (serveAll (primaryFails "" "") httpGet 2 (twoNodes 3)) 0%nat 500).
  - vm_compute. lia.
  - reflexivity.
  - vm_compute. discriminate.
  - lia.
Defined.

Lemma C10_websocket_no_healthy_nodes_witness :
  let lb :=
    serveAll (primaryFails "" "") httpGet 3
      (startWith (configOf 3 [nodeP]) [(0%nat, probeOK)]) in
  ServeHTTP anyPath (primaryFails "" "") wsUpgrade lb
  = (lb, HttpError "No healthy beacon nodes available" 503, []).
Proof.
  apply (C10_websocket_no_healthy_nodes anyPath (primaryFails "" "") wsUpgrade
           (serveAll (primaryFails "" "") httpGet 3
              (startWith (configOf 3 [nodeP]) [(0%nat, probeOK)]))).
  - reflexivity.
  - reflexivity.
  - reflexivity.
Defined.

(** C10 as stated fails: with the single backend demoted by three failed
    requests the healthy set is empty, and the WebSocket upgrade is answered
    503, not 502. *)
Lemma C10_counterexample :
  let lb :=
    serveAll (primaryFails "" "") httpGet 3
      (startWith (configOf 3 [nodeP]) [(0%nat, probeOK)]) in
  GetHealthyNodes lb = []
  ∧ anyPath (Path wsUpgrade) = true
  ∧ IsWebSocketUpgrade wsUpgrade = true
  ∧ (ServeHTTP anyPath (primaryFails "" "") wsUpgrade lb).1.2
    = HttpError "No healthy beacon nodes available" 503
  ∧ (ServeHTTP anyPath (primaryFails "" "") wsUpgrade lb).1.2
    ≠ HttpError "No healthy beacon nodes available" 502.
Proof. cbv zeta. split_and!; try reflexivity. vm_compute. discriminate. Qed.

(** C9 fails on the code: with the overall deadline already exceeded at the
    check before the first attempt, or between the first and the second,
    [handleHTTPRequest] returns without writing any response (the client is
    not sent the 504), and no further attempt is made. *)
Lemma C9_deadline_exceeded_no_response :
  let lb := twoNodes 3 in
  GetHealthyNodes lb = [0%nat; 1%nat]
  ∧ (ServeHTTP anyPath (deadlineAt 0) httpGet lb).1.2 = NoResponse
  ∧ (ServeHTTP anyPath (deadlineAt 0) httpGet lb).2 = []
  ∧ (ServeHTTP anyPath (deadlineAt 1) httpGet lb).1.2 = NoResponse
  ∧ (ServeHTTP anyPath (deadlineAt 1) httpGet lb).2 = [0%nat].
Proof. cbv zeta. split_and!; reflexivity. Qed.

(** One request of the failover scenario, from a state whose healthy set is
    [p, b]: [p] is attempted and fails, [b] answers. *)
Lemma failover_request (maxRetries : Z) (bodyP bodyB : string)
    (lb : LoadBalancer) :
  2 ≤ maxRetries →
  config lb = configOf maxRetries [nodeP; nodeB] →
  GetHealthyNodes lb = [0%nat; 1%nat] →
  let env := primaryFails bodyP bodyB in
  let a0 := attemptNodeRequest env 0 0 lb in
  let lb1 := handleNodeError 0 500 a0.1 in
  let a1 := attemptNodeRequest env 1 1 lb1 in
  ServeHTTP anyPath env httpGet lb
  = ((handleSuccessResponse 1 a1.2 a1.1).1, Copied 200 bodyB,
     [0%nat; 1%nat]).
Proof.
  intros Hm Hcfg Hh env a0 lb1 a1.
  unfold ServeHTTP, handleHTTPRequest.
  cbn [anyPath negb httpGet IsWebSocketUpgrade]. rewrite Hh.
  rewrite tryNodes_fall_through; rewrite ?Hcfg; try reflexivity;
    cbn; lia.
Qed.

(** C3, amended. With backends [p, b] where [p] always returns 500 and [b]
    returns 200, [error_threshold = 3] and [max_retries] at least 2, each
    of the first three client requests attempts [p], then falls through to
    [b] within the same request, and returns [b]'s 200 response; after
    requests 1 and 2, [p] has 1 and 2 consecutive errors and is still the
    primary in the healthy set; on request 3 [p] reaches 3 consecutive
    errors, is demoted (priority 2) and removed from the healthy set. *)
Theorem C3_primary_failure_failover (maxRetries : Z) (bodyP bodyB : string) :
  2 ≤ maxRetries →
  let env := primaryFails bodyP bodyB in
  let lb0 := twoNodes maxRetries in
  let out1 := ServeHTTP anyPath env httpGet lb0 in
  let out2 := ServeHTTP anyPath env httpGet out1.1.1 in
  let out3 := ServeHTTP anyPath env httpGet out2.1.1 in
  (out1.1.2 = Copied 200 bodyB ∧ out1.2 = [0%nat; 1%nat]
   ∧ ConsecutiveErrors (nodes out1.1.1 !!! 0%nat) = 1
   ∧ GetPriority (nodes out1.1.1 !!! 0%nat) = 0
   ∧ GetHealthyNodes out1.1.1 = [0%nat; 1%nat])
  ∧ (out2.1.2 = Copied 200 bodyB ∧ out2.2 = [0%nat; 1%nat]
     ∧ ConsecutiveErrors (nodes out2.1.1 !!! 0%nat) = 2
     ∧ GetPriority (nodes out2.1.1 !!! 0%nat) = 0
     ∧ GetHealthyNodes out2.1.1 = [0%nat; 1%nat])
  ∧ (out3.1.2 = Copied 200 bodyB ∧ out3.2 = [0%nat; 1%nat]
     ∧ ConsecutiveErrors (nodes out3.1.1 !!! 0%nat) = 3
     ∧ GetPriority (nodes out3.1.1 !!! 0%nat) = 2
     ∧ GetPriority (nodes out3.1.1 !!! 1%nat) = 1
     ∧ GetHealthyNodes out3.1.1 = [1%nat]).
Proof.
  intros Hm env lb0 out1 out2 out3.
  assert (E1 : out1 = _) by (apply (failover_request maxRetries); [exact Hm|done|done]).
  cbv zeta in E1. clearbody out1. subst out1.
  assert (E2 : out2 = _) by (apply (failover_request maxRetries); [exact Hm|done|done]).
  cbv zeta in E2. clearbody out2. subst out2.
  assert (E3 : out3 = _) by (apply (failover_request maxRetries); [exact Hm|done|done]).
  cbv zeta in E3. clearbody out3. subst out3.
  split_and!; reflexivity.
Qed.

Lemma C3_primary_failure_failover_witness :
  let env := primaryFails "{}" "{}" in
  let lb0 := twoNodes 10 in
  let out1 := ServeHTTP anyPath env httpGet lb0 in
  let out2 := ServeHTTP anyPath env httpGet out1.1.1 in
  let out3 := ServeHTTP anyPath env httpGet out2.1.1 in
  (out1.1.2 = Copied 200 "{}" ∧ out1.2 = [0%nat; 1%nat]
   ∧ ConsecutiveErrors (nodes out1.1.1 !!! 0%nat) = 1
   ∧ GetPriority (nodes out1.1.1 !!! 0%nat) = 0
   ∧ GetHealthyNodes out1.1.1 = [0%nat; 1%nat])
  ∧ (out2.1.2 = Copied 200 "{}" ∧ out2.2 = [0%nat; 1%nat]
     ∧ ConsecutiveErrors (nodes out2.1.1 !!! 0%nat) = 2
     ∧ GetPriority (nodes out2.1.1 !!! 0%nat) = 0
     ∧ GetHealthyNodes out2.1.1 = [0%nat; 1%nat])
  ∧ (out3.1.2 = Copied 200 "{}" ∧ out3.2 = [0%nat; 1%nat]
     ∧ ConsecutiveErrors (nodes out3.1.1 !!! 0%nat) = 3
     ∧ GetPriority (nodes out3.1.1 !!! 0%nat) = 2
     ∧ GetPriority (nodes out3.1.1 !!! 1%nat) = 1
     ∧ GetHealthyNodes out3.1.1 = [1%nat]).
Proof.
  apply (C3_primary_failure_failover 10 "{}" "{}"). lia.
Defined.

(** C3 as stated fails on the first request already: [p] answers 500 with
    one consecutive error, below the threshold of 3, and yet [b] is tried
    within the same request and the client gets [b]'s 200, not [p]'s 500. *)
Lemma C3_counterexample :
  let env := primaryFails "{}" "{}" in
  let out1 := ServeHTTP anyPath env httpGet (twoNodes 10) in
  ConsecutiveErrors (nodes out1.1.1 !!! 0%nat) = 1
  ∧ out1.2 = [0%nat; 1%nat]
  ∧ out1.1.2 = Copied 200 "{}"
  ∧ out1.1.2 ≠ Copied 500 "{}".
Proof. cbv zeta. split_and!; try reflexivity. vm_compute. discriminate. Qed.

(** ** Health-check scheduler *)

Section SchedulerProperties.
Variable json_Unmarshal : string → string + SyncingResponse.

(** *** Loops that pick the first hit *)

Lemma findFirst_Some p l x :
  findFirst p l = Some x → x ∈ l ∧ p x = true.
Proof.
  induction l as [|y l IH]; cbn; [discriminate|].
  destruct (p y) eqn:Hy.
  - intros [= <-]. split; [left|done].
  - intros [Hin Hp]%IH. split; [by right|done].
Qed.

Lemma findFirst_None p l x :
  findFirst p l = None → x ∈ l → p x = false.
Proof.
  induction l as [|y l IH]; cbn; [by intros _ ?%not_elem_of_nil|].
  destruct (p y) eqn:Hy; [discriminate|].
  intros Hnone [->|Hin]%elem_of_cons; auto.
Qed.

Lemma findFirst_ext p q l :
  (∀ x, x ∈ l → p x = q x) → findFirst p l = findFirst q l.
Proof.
  induction l as [|y l IH]; intros Hpq; cbn; [done|].
  rewrite <- (Hpq y) by left. destruct (p y); [done|].
  apply IH. intros x Hx. apply Hpq. by right.
Qed.

Lemma findFirst_unique p l x :
  x ∈ l → p x = true → (∀ y, y ∈ l → p y = true → y = x) →
  findFirst p l = Some x.
Proof.
  intros Hin Hp Huniq.
  destruct (findFirst p l) as [y|] eqn:Hf.
  - apply findFirst_Some in Hf as [Hy Hpy]. f_equal. by apply Huniq.
  - rewrite (findFirst_None p l x Hf Hin) in Hp. discriminate.
Qed.

(** The first primary of [lb.nodes] is node 0 as soon as node 0 is one. *)
Lemma findCurrentPrimary_head ns :
  (0 < length ns)%nat → IsPrimary (ns !!! 0%nat) = true →
  findCurrentPrimary ns = Some 0%nat.
Proof.
  intros Hlen Hp. unfold findCurrentPrimary, nodeRefs.
  destruct (length ns) as [|n]; [lia|]. cbn. by rewrite Hp.
Qed.

Lemma findCurrentPrimary_Some ns c :
  findCurrentPrimary ns = Some c →
  (c < length ns)%nat ∧ IsPrimary (ns !!! c) = true.
Proof.
  intros [Hin Hp]%findFirst_Some. split; [|done].
  unfold nodeRefs in Hin. apply elem_of_seq in Hin. lia.
Qed.

Lemma findCurrentPrimary_None ns m :
  findCurrentPrimary ns = None → (m < length ns)%nat →
  IsPrimary (ns !!! m) = false.
Proof.
  intros Hnone Hm.
  apply (findFirst_None (λ n, IsPrimary (ns !!! n)) (nodeRefs ns) m Hnone).
  unfold nodeRefs. apply elem_of_seq. lia.
Qed.

(** *** Fields that a stage of the pass leaves alone *)

(** A loop whose body keeps a field of every node keeps it. *)
Lemma foldl_field {A X} (g : BeaconNode → A)
    (body : list BeaconNode → X → list BeaconNode) (xs : list X) :
  (∀ ns x m, g (body ns x !!! m) = g (ns !!! m)) →
  ∀ ns m, g (foldl body ns xs !!! m) = g (ns !!! m).
Proof.
  intros Hbody. induction xs as [|x xs IH]; intros ns m; cbn; [done|].
  by rewrite IH, Hbody.
Qed.

Lemma foldl_length {X} (body : list BeaconNode → X → list BeaconNode)
    (xs : list X) :
  (∀ ns x, length (body ns x) = length ns) →
  ∀ ns, length (foldl body ns xs) = length ns.
Proof.
  intros Hbody. induction xs as [|x xs IH]; intros ns; cbn; [done|].
  by rewrite IH, Hbody.
Qed.

Lemma collectResult_field {A} (g : BeaconNode → A) ns r m :
  (∀ bn, g (IncrementSuccess bn) = g bn) →
  (∀ bn, g (ResetErrors bn) = g bn) →
  (∀ bn, g (ResetSuccesses bn) = g bn) →
  g (collectResult json_Unmarshal ns r !!! m) = g (ns !!! m).
Proof.
  intros H1 H2 H3. unfold collectResult.
  destruct (HealthCheck json_Unmarshal r.2).1; by rewrite !onNode_field.
Qed.

Lemma collectResult_length ns r :
  length (collectResult json_Unmarshal ns r) = length ns.
Proof.
  unfold collectResult.
  destruct (HealthCheck json_Unmarshal r.2).1; by rewrite !onNode_length.
Qed.

Lemma collect_field {A} (g : BeaconNode → A) arrivals ns m :
  (∀ bn, g (IncrementSuccess bn) = g bn) →
  (∀ bn, g (ResetErrors bn) = g bn) →
  (∀ bn, g (ResetSuccesses bn) = g bn) →
  g (foldl (collectResult json_Unmarshal) ns arrivals !!! m) = g (ns !!! m).
Proof.
  intros H1 H2 H3. apply foldl_field. intros. by apply collectResult_field.
Qed.

Lemma collect_length arrivals ns :
  length (foldl (collectResult json_Unmarshal) ns arrivals) = length ns.
Proof. apply foldl_length, collectResult_length. Qed.

Lemma failback_field {A} (g : BeaconNode → A) cfg nhb ns m :
  (∀ p bn, g (SetPriority p bn) = g bn) →
  (∀ bn, g (ResetErrors bn) = g bn) →
  g (failback cfg nhb ns !!! m) = g (ns !!! m).
Proof.
  intros H1 H2. unfold failback.
  destruct (findOriginalPrimary ns nhb) as [o|]; [|done].
  destruct (findCurrentPrimary ns) as [c|]; [|done].
  destruct (_ && _); [|done]. by rewrite !onNode_field.
Qed.

Lemma failback_length cfg nhb ns :
  length (failback cfg nhb ns) = length ns.
Proof.
  unfold failback.
  destruct (findOriginalPrimary ns nhb) as [o|]; [|done].
  destruct (findCurrentPrimary ns) as [c|]; [|done].
  destruct (_ && _); [|done]. by rewrite !onNode_length.
Qed.

Lemma restoreOne_field {A} (g : BeaconNode → A) ns n m :
  (∀ p bn, g (SetPriority p bn) = g bn) →
  g (restoreOne ns n !!! m) = g (ns !!! m).
Proof.
  intros H1. unfold restoreOne. case_bool_decide; [|done].
  by rewrite onNode_field.
Qed.

Lemma restoreOne_length ns n : length (restoreOne ns n) = length ns.
Proof.
  unfold restoreOne. case_bool_decide; [|done]. apply onNode_length.
Qed.

Lemma restorePriorities_field {A} (g : BeaconNode → A) nhb ns m :
  (∀ p bn, g (SetPriority p bn) = g bn) →
  g (restorePriorities nhb ns !!! m) = g (ns !!! m).
Proof.
  intros H1. apply foldl_field. intros. by apply restoreOne_field.
Qed.

Lemma restorePriorities_length nhb ns :
  length (restorePriorities nhb ns) = length ns.
Proof. apply foldl_length, restoreOne_length. Qed.

Lemma promote_field {A} (g : BeaconNode → A) nhb cp ns m :
  (∀ p bn, g (SetPriority p bn) = g bn) →
  (∀ bn, g (ResetErrors bn) = g bn) →
  g (promote nhb cp ns !!! m) = g (ns !!! m).
Proof.
  intros H1 H2. unfold promote. destruct cp; [done|].
  case_bool_decide; [|done].
  destruct (findOriginalPrimary ns nhb) as [n|];
    [by rewrite !onNode_field|].
  destruct (lowestPriorityBackup ns nhb) as [n|]; [|done].
  by rewrite !onNode_field.
Qed.

Lemma promote_length nhb cp ns : length (promote nhb cp ns) = length ns.
Proof.
  unfold promote. destruct cp; [done|]. case_bool_decide; [|done].
  destruct (findOriginalPrimary ns nhb) as [n|];
    [by rewrite !onNode_length|].
  destruct (lowestPriorityBackup ns nhb) as [n|]; [|done].
  by rewrite !onNode_length.
Qed.

(** *** The restoration sweep *)

Lemma restoreOne_priority ns n m :
  GetPriority (restoreOne ns n !!! m)
  = if decide (n = m ∧ (n < length ns)%nat)
    then OriginalPriority (ns !!! m) else GetPriority (ns !!! m).
Proof.
  unfold restoreOne. case_bool_decide as Hne.
  - unfold onNode. rewrite list_lookup_total_alter.
    case_decide as Hd; [|done]. by destruct Hd as [-> _].
  - case_decide as Hd; [|done]. destruct Hd as [-> _].
    by destruct (decide (GetPriority (ns !!! m)
                         = OriginalPriority (ns !!! m))).
Qed.

(** After the sweep every node of the new healthy-backup slice has its
    original priority, and no other node changed priority. *)
Lemma restorePriorities_priority nhb : ∀ ns m,
  (m < length ns)%nat →
  GetPriority (restorePriorities nhb ns !!! m)
  = if decide (m ∈ nhb)
    then OriginalPriority (ns !!! m) else GetPriority (ns !!! m).
Proof.
  unfold restorePriorities.
  induction nhb as [|n l IH]; intros ns m Hm; cbn [foldl].
  - rewrite decide_False by apply not_elem_of_nil. done.
  - rewrite IH by (by rewrite restoreOne_length).
    rewrite (restoreOne_field OriginalPriority) by done.
    rewrite restoreOne_priority.
    destruct (decide (m ∈ l)) as [Hl|Hl].
    + rewrite decide_True by (by right). done.
    + destruct (decide (n = m)) as [->|Hnm].
      * rewrite decide_True by done. rewrite decide_True by left. done.
      * rewrite decide_False by (by intros [? _]).
        rewrite decide_False; [done|].
        intros [->|?]%elem_of_cons; done.
Qed.

(** *** The probed nodes *)

Lemma elem_of_backupNodes ns m :
  m ∈ backupNodes ns ↔ (m < length ns)%nat ∧ IsBackup (ns !!! m) = true.
Proof.
  unfold backupNodes, nodeRefs. rewrite list_elem_of_filter, elem_of_seq.
  split; intros [? ?]; split; auto with lia.
Qed.

Lemma NoDup_backupNodes ns : NoDup (backupNodes ns).
Proof. apply NoDup_filter, NoDup_seq. Qed.

Lemma newHealthyBackups_sublist arrivals :
  newHealthyBackups json_Unmarshal arrivals `sublist_of` arrivals.*1.
Proof. unfold newHealthyBackups. apply fmap_sublist, sublist_filter. Qed.

Lemma elem_of_newHealthyBackups arrivals m :
  m ∈ newHealthyBackups json_Unmarshal arrivals
  ↔ ∃ resp, (m, resp) ∈ arrivals
            ∧ (HealthCheck json_Unmarshal resp).1 = true.
Proof.
  unfold newHealthyBackups. rewrite list_elem_of_fmap. split.
  - intros ([m' resp] & -> & [Hh Hin]%list_elem_of_filter). by exists resp.
  - intros (resp & Hin & Hh). exists (m, resp). split; [done|].
    by apply list_elem_of_filter.
Qed.

(** What the pass knows of its slice of healthy backups when every backup
    node was probed once: no node twice, and only nodes that were backups
    when the pass began. *)
Lemma newHealthyBackups_probed arrivals ns :
  arrivals.*1 ≡ₚ backupNodes ns →
  NoDup (newHealthyBackups json_Unmarshal arrivals)
  ∧ ∀ m, m ∈ newHealthyBackups json_Unmarshal arrivals →
         (m < length ns)%nat ∧ IsBackup (ns !!! m) = true.
Proof.
  intros Hperm. split.
  - eapply sublist_NoDup; [|apply newHealthyBackups_sublist].
    rewrite Hperm. apply NoDup_backupNodes.
  - intros m Hm. apply elem_of_backupNodes. rewrite <- Hperm.
    eapply elem_of_sublist; [exact Hm|apply newHealthyBackups_sublist].
Qed.

(** *** Failback *)

Lemma Name_inj ns a b :
  NoDup (Name <$> ns) → (a < length ns)%nat → (b < length ns)%nat →
  Name (ns !!! a) = Name (ns !!! b) → a = b.
Proof.
  intros Hnd Ha Hb Hab.
  apply (NoDup_lookup (Name <$> ns) a b (Name (ns !!! a))); [done| |].
  - rewrite list_lookup_fmap, list_lookup_lookup_total_lt by done. done.
  - rewrite list_lookup_fmap, list_lookup_lookup_total_lt by done.
    cbn. by rewrite Hab.
Qed.

Lemma findCurrentPrimary_ext ns ns' :
  length ns = length ns' →
  (∀ m, GetPriority (ns !!! m) = GetPriority (ns' !!! m)) →
  findCurrentPrimary ns = findCurrentPrimary ns'.
Proof.
  intros Hlen Hp. unfold findCurrentPrimary, nodeRefs. rewrite Hlen.
  apply findFirst_ext. intros m _. unfold IsPrimary. by rewrite Hp.
Qed.

Lemma IsPrimary_not_IsBackup bn : IsPrimary bn = true → IsBackup bn = false.
Proof.
  unfold IsPrimary, IsBackup. intros Hp%bool_decide_eq_true.
  apply bool_decide_false. lia.
Qed.

(** C5. For any backends with unique names among which [o] is the one with
    [original_priority == 0]: after a scheduler pass in which every backup
    was probed once, [o] was probed healthy, and [o] ends up with
    [consecutive_successes >= successful_checks_for_failback], [o] has
    priority 0; and when there was a current primary [c] when the pass began
    (the first backend of [lb.nodes] with priority 0), [c] is a node other
    than [o] and ends the pass with its own original priority. *)
Theorem C5_failback (arrivals : list Arrival) (lb : LoadBalancer)
    (o : nat) (resp : GetResult) :
  NoDup (Name <$> nodes lb) →
  arrivals.*1 ≡ₚ backupNodes (nodes lb) →
  OriginalPriority (nodes lb !!! o) = 0 →
  (∀ m, (m < length (nodes lb))%nat →
        OriginalPriority (nodes lb !!! m) = 0 → m = o) →
  (o, resp) ∈ arrivals →
  (HealthCheck json_Unmarshal resp).1 = true →
  let lb' := performHealthCheck json_Unmarshal arrivals lb in
  ConsecutiveSuccesses (nodes lb' !!! o)
    >= SuccessfulChecksForFailback (config lb) →
  GetPriority (nodes lb' !!! o) = 0
  ∧ ∀ c, findCurrentPrimary (nodes lb) = Some c →
         c ≠ o
         ∧ GetPriority (nodes lb' !!! c) = OriginalPriority (nodes lb !!! c).
Proof.
  intros Hnames Hperm Ho Huniq Hin Hhealthy lb'.
  destruct (newHealthyBackups_probed arrivals (nodes lb) Hperm)
    as [Hnd Hbackup].
  set (nhb := newHealthyBackups json_Unmarshal arrivals) in *.
  assert (Honhb : o ∈ nhb).
  { apply elem_of_newHealthyBackups. by exists resp. }
  destruct (Hbackup o Honhb) as [Holt Hobackup].
  (* the pass does not return early *)
  subst lb'. unfold performHealthCheck.
  rewrite bool_decide_false.
  2:{ intros Hz. apply length_zero_iff_nil in Hz.
      assert (Hob : o ∈ backupNodes (nodes lb))
        by (by apply elem_of_backupNodes).
      rewrite Hz in Hob. by apply not_elem_of_nil in Hob. }
  fold nhb. cbn [nodes].
  set (ns := nodes lb) in *.
  set (ns1 := foldl (collectResult json_Unmarshal) ns arrivals).
  assert (Hlen1 : length ns1 = length ns) by apply collect_length.
  assert (Horig1 : ∀ m, OriginalPriority (ns1 !!! m)
                        = OriginalPriority (ns !!! m))
    by (intros; by apply collect_field).
  assert (Hprio1 : ∀ m, GetPriority (ns1 !!! m) = GetPriority (ns !!! m))
    by (intros; by apply (collect_field GetPriority)).
  assert (Hname1 : ∀ m, Name (ns1 !!! m) = Name (ns !!! m))
    by (intros; by apply collect_field).
  set (ns2 := failback (config lb) nhb ns1).
  set (ns3 := restorePriorities nhb ns2).
  assert (Hlen2 : length ns2 = length ns)
    by (subst ns2; by rewrite failback_length).
  assert (Hlen3 : length ns3 = length ns)
    by (subst ns3; by rewrite restorePriorities_length).
  assert (Horig2 : ∀ m, OriginalPriority (ns2 !!! m)
                        = OriginalPriority (ns !!! m)).
  { intros. subst ns2. by rewrite failback_field. }
  (* [o] ends the sweep with priority 0, so nothing is promoted *)
  assert (Hprio3o : GetPriority (ns3 !!! o) = 0).
  { subst ns3. rewrite restorePriorities_priority by lia.
    rewrite decide_True by done. by rewrite Horig2. }
  assert (Hcp3 : ∃ c3, findCurrentPrimary ns3 = Some c3).
  { destruct (findCurrentPrimary ns3) as [c3|] eqn:Hc3; [by eexists|].
    apply (findCurrentPrimary_None _ o) in Hc3; [|lia].
    unfold IsPrimary in Hc3. rewrite Hprio3o in Hc3. done. }
  destruct Hcp3 as [c3 Hc3]. rewrite Hc3. cbn [promote].
  intros Hsucc. split; [done|].
  intros c Hc.
  apply findCurrentPrimary_Some in Hc as Hc'. destruct Hc' as [Hclt Hcprim].
  assert (Hco : c ≠ o).
  { intros ->. rewrite (IsPrimary_not_IsBackup _ Hcprim) in Hobackup.
    discriminate. }
  split; [done|].
  assert (Hcnhb : c ∉ nhb).
  { intros [_ Hcb]%Hbackup.
    rewrite (IsPrimary_not_IsBackup _ Hcprim) in Hcb. discriminate. }
  subst ns3. rewrite restorePriorities_priority by lia.
  rewrite decide_False by done.
  (* the failback branch is taken *)
  assert (Hfo : findOriginalPrimary ns1 nhb = Some o).
  { apply findFirst_unique; [done|..].
    - apply bool_decide_eq_true. by rewrite Horig1.
    - intros y Hy Hy0%bool_decide_eq_true. rewrite Horig1 in Hy0.
      apply Huniq; [|done]. by apply Hbackup. }
  assert (Hfc : findCurrentPrimary ns1 = Some c).
  { rewrite (findCurrentPrimary_ext ns1 ns) by done. exact Hc. }
  assert (Hsucc1 : ConsecutiveSuccesses (ns1 !!! o)
                   >= SuccessfulChecksForFailback (config lb)).
  { rewrite (restorePriorities_field ConsecutiveSuccesses) in Hsucc by done.
    subst ns2.
    by rewrite (failback_field ConsecutiveSuccesses) in Hsucc. }
  subst ns2. unfold failback. rewrite Hfo, Hfc.
  unfold GetConsecutiveSuccesses. rewrite (bool_decide_true _ Hsucc1).
  rewrite bool_decide_true.
  2:{ rewrite !Hname1. intros Heq. apply Hco.
      by apply (Name_inj ns). }
  cbn [andb]. rewrite onNode_eq by (by rewrite !onNode_length, Hlen1).
  cbn [SetPriority GetPriority Priority].
  rewrite (onNode_field OriginalPriority) by done.
  rewrite (onNode_field OriginalPriority) by done.
  apply Horig1.
Qed.

End SchedulerProperties.

Local Ltac by_decide :=
  match goal with
  | |- ?P => apply (bool_decide_eq_true_1 P); vm_compute; reflexivity
  end.

Lemma C5_failback_witness :
  let lb := interimPrimary in
  let arrivals := [(0%nat, probeOK)] in
  let lb' := performHealthCheck syncedJSON arrivals lb in
  findCurrentPrimary (nodes lb) = Some 1%nat
  ∧ GetPriority (nodes lb' !!! 0%nat) = 0
  ∧ ∀ c, findCurrentPrimary (nodes lb) = Some c →
         c ≠ 0%nat
         ∧ GetPriority (nodes lb' !!! c) = OriginalPriority (nodes lb !!! c).
Proof.
  intros lb arrivals lb'. split; [vm_compute; reflexivity|].
  apply (C5_failback syncedJSON [(0%nat, probeOK)] interimPrimary
           0%nat probeOK).
  - by_decide.
  - by_decide.
  - vm_compute. reflexivity.
  - intros m Hm H0. destruct m as [|[|m]].
    + reflexivity.
    + vm_compute in H0. discriminate.
    + vm_compute in Hm. lia.
  - apply elem_of_cons. by left.
  - vm_compute. reflexivity.
  - vm_compute. discriminate.
Defined.

(** The restoration sweep and the failback threshold. With
    [successful_checks_for_failback = 3], backends [p, b], [p] demoted and
    [b] promoted by a pass that found [p] down: at the first healthy probe
    of [p] (one consecutive success, below the threshold) the sweep puts
    [p] back at its original priority 0, the interim primary [b] keeps
    priority 0, and the rebuilt healthy set is [p] alone. *)
Lemma restoration_sweep_precedes_failback :
  let interim :=
    performHealthCheck syncedJSON [(0%nat, probeDown); (1%nat, probeOK)]
      (serveAll (primaryFails "" "") httpGet 3 (twoNodes 3)) in
  let lb' := performHealthCheck syncedJSON [(0%nat, probeOK)] interim in
  GetHealthyNodes interim = [1%nat]
  ∧ GetPriority (nodes interim !!! 1%nat) = 0
  ∧ [(0%nat, probeOK)].*1 ≡ₚ backupNodes (nodes interim)
  ∧ ConsecutiveSuccesses (nodes lb' !!! 0%nat) = 1
  ∧ GetPriority (nodes lb' !!! 0%nat) = 0
  ∧ GetPriority (nodes lb' !!! 1%nat) = 0
  ∧ GetHealthyNodes lb' = [0%nat].
Proof.
  cbv zeta. split_and!; first [by_decide | vm_compute; reflexivity].
Qed.

(** C8 fails on the code in the periodic rebuild, which appends the healthy
    backups in the order in which their probes were delivered and does not
    sort. With backends [p, b, c] all healthy at startup the healthy set is
    [p, b, c], sorted; in the next scheduler pass the probe of [c] is
    delivered before the probe of [b], both healthy, and the rebuilt healthy
    set is [p, c, b], with priorities 0, 2, 1. With backends [p, b], after
    [p] was demoted, a pass in which the probe of [b] is delivered before
    the probe of [p], both healthy, rebuilds the healthy set as [b, p] with
    priorities 1, 0: the primary comes second. *)
Lemma C8_periodic_rebuild_unsorted :
  let lb := threeNodes 3 in
  let arrivals := [(2%nat, probeOK); (1%nat, probeOK)] in
  let lb' := performHealthCheck syncedJSON arrivals lb in
  let demoted := serveAll (primaryFails "" "") httpGet 3 (twoNodes 3) in
  let arrivals2 := [(1%nat, probeOK); (0%nat, probeOK)] in
  let recovered := performHealthCheck syncedJSON arrivals2 demoted in
  (GetHealthyNodes lb = [0%nat; 1%nat; 2%nat]
   ∧ sortedByPriority lb
   ∧ arrivals.*1 ≡ₚ backupNodes (nodes lb)
   ∧ GetHealthyNodes lb' = [0%nat; 2%nat; 1%nat]
   ∧ (λ n, GetPriority (nodes lb' !!! n)) <$> GetHealthyNodes lb' = [0; 2; 1]
   ∧ ¬ sortedByPriority lb')
  ∧ (GetHealthyNodes demoted = [1%nat]
     ∧ sortedByPriority demoted
     ∧ arrivals2.*1 ≡ₚ backupNodes (nodes demoted)
     ∧ GetHealthyNodes recovered = [1%nat; 0%nat]
     ∧ (λ n, GetPriority (nodes recovered !!! n)) <$> GetHealthyNodes recovered
       = [1; 0]
     ∧ ¬ sortedByPriority recovered).
Proof.
  cbv zeta. split; split_and!;
    try (vm_compute; reflexivity); try by_decide;
    intros Hs; apply bool_decide_eq_true_2 in Hs; vm_compute in Hs;
    discriminate.
Qed.

(** ** The primary of the healthy set *)

Section PrimaryInvariant.
Variable url_Parse_ok : string → bool.
Variable json_Unmarshal : string → string + SyncingResponse.
Variable IsValidBeaconEndpoint : string → bool.

(** *** Generalities *)

Lemma length_le_1_of_constant {A} (l : list A) (a : A) :
  NoDup l → (∀ x, x ∈ l → x = a) → (length l ≤ 1)%nat.
Proof.
  intros Hnd Hall. destruct l as [|x [|y l]]; cbn; [lia|lia|].
  exfalso. apply NoDup_cons in Hnd as [Hx _]. apply Hx.
  rewrite (Hall x) by left. rewrite (Hall y) by (right; left). left.
Qed.

Lemma filter_sublist_impl {A} (P Q : A → Prop)
    `{!∀ x, Decision (P x), !∀ x, Decision (Q x)} (l : list A) :
  (∀ x, x ∈ l → P x → Q x) → filter P l `sublist_of` filter Q l.
Proof.
  induction l as [|x l IH]; intros HPQ; [done|].
  rewrite !filter_cons.
  assert (IH' : filter P l `sublist_of` filter Q l).
  { apply IH. intros y Hy. apply HPQ. by right. }
  destruct (decide (P x)) as [HP|HP].
  - rewrite decide_True by (apply HPQ; [left|done]). by apply sublist_skip.
  - destruct (decide (Q x)); [by apply sublist_cons|done].
Qed.

Lemma fmap_Name_eq ns ns' :
  length ns' = length ns →
  (∀ m, Name (ns' !!! m) = Name (ns !!! m)) →
  Name <$> ns' = Name <$> ns.
Proof.
  intros Hlen Hname. apply list_eq. intros i. rewrite !list_lookup_fmap.
  destruct (decide (i < length ns)%nat) as [Hi|Hi].
  - rewrite !list_lookup_lookup_total_lt by lia. cbn. by rewrite Hname.
  - rewrite !lookup_ge_None_2 by lia. done.
Qed.

Lemma filter_primary_ext (ns ns' : list BeaconNode) (l : list nat) :
  (∀ m, m ∈ l → GetPriority (ns' !!! m) = GetPriority (ns !!! m)) →
  filter (λ n, IsPrimary (ns' !!! n) = true) l
  = filter (λ n, IsPrimary (ns !!! n) = true) l.
Proof.
  induction l as [|x l IH]; intros Hp; [done|].
  assert (Hx : IsPrimary (ns' !!! x) = IsPrimary (ns !!! x)).
  { unfold IsPrimary. by rewrite (Hp x) by left. }
  rewrite !filter_cons, IH by (intros m Hm; apply Hp; by right).
  destruct (decide (IsPrimary (ns' !!! x) = true)),
           (decide (IsPrimary (ns !!! x) = true)); congruence.
Qed.

Lemma healthyPrimaries_ext lb lb' :
  healthyNodes lb' = healthyNodes lb →
  (∀ m, m ∈ healthyNodes lb →
        GetPriority (nodes lb' !!! m) = GetPriority (nodes lb !!! m)) →
  healthyPrimaries lb' = healthyPrimaries lb.
Proof.
  intros Hh Hp. unfold healthyPrimaries. rewrite Hh.
  by apply filter_primary_ext.
Qed.

(** A write to the node objects that keeps names and both priorities keeps
    the state well formed. *)
Lemma wellFormed_quiet lb ns' :
  length ns' = length (nodes lb) →
  (∀ m, Name (ns' !!! m) = Name (nodes lb !!! m)) →
  (∀ m, OriginalPriority (ns' !!! m) = OriginalPriority (nodes lb !!! m)) →
  (∀ m, GetPriority (ns' !!! m) = GetPriority (nodes lb !!! m)) →
  wellFormed lb → wellFormed (withNodes ns' lb).
Proof.
  intros Hlen Hname Horig Hprio [Hn Ho Hv Hh Hp].
  split; cbn [nodes healthyNodes withNodes].
  - by rewrite (fmap_Name_eq (nodes lb) ns').
  - intros m. rewrite Hlen, Horig. apply Ho.
  - intros m. rewrite Hlen. apply Hv.
  - intros m. rewrite Horig, Hprio. apply Hh.
  - rewrite (healthyPrimaries_ext lb); [done|done|]. intros m _. apply Hprio.
Qed.

Lemma wellFormed_onNode f n lb :
  (∀ bn, Name (f bn) = Name bn) →
  (∀ bn, OriginalPriority (f bn) = OriginalPriority bn) →
  (∀ bn, GetPriority (f bn) = GetPriority bn) →
  wellFormed lb → wellFormed (withNodes (onNode f n (nodes lb)) lb).
Proof.
  intros H1 H2 H3. apply wellFormed_quiet.
  - apply onNode_length.
  - intros m. by apply onNode_field.
  - intros m. by apply onNode_field.
  - intros m. by apply (onNode_field GetPriority).
Qed.

(** *** On-request demotion *)

Lemma demotePrimary_wellFormed node lb :
  wellFormed lb → wellFormed (demotePrimary node lb).
Proof.
  intros [Hn Ho Hv Hh Hp]. unfold demotePrimary.
  set (ns' := onNode _ node (nodes lb)).
  assert (Hlen : length ns' = length (nodes lb)) by apply onNode_length.
  assert (Hname : ∀ m, Name (ns' !!! m) = Name (nodes lb !!! m))
    by (intros; by apply onNode_field).
  assert (Horig : ∀ m, OriginalPriority (ns' !!! m)
                       = OriginalPriority (nodes lb !!! m))
    by (intros; by apply onNode_field).
  assert (Hkept : ∀ m, Name (ns' !!! m) ≠ Name (ns' !!! node) →
                       ns' !!! m = nodes lb !!! m).
  { intros m Hne. subst ns'. apply onNode_ne. by intros ->. }
  split; cbn [nodes healthyNodes].
  - by rewrite (fmap_Name_eq (nodes lb) ns').
  - intros m. rewrite Hlen, Horig. apply Ho.
  - intros m [_ Hm]%list_elem_of_filter. rewrite Hlen. by apply Hv.
  - intros m [Hne Hm]%list_elem_of_filter. rewrite (Hkept m Hne).
    by apply Hh.
  - unfold healthyPrimaries. cbn [nodes healthyNodes].
    rewrite list_filter_filter.
    etrans; [|exact Hp]. unfold healthyPrimaries.
    apply sublist_length, filter_sublist_impl.
    intros x _ [Hx Hne]. by rewrite (Hkept x Hne) in Hx.
Qed.

Lemma handleNodeError_wellFormed node status lb :
  wellFormed lb → wellFormed (handleNodeError node status lb).
Proof.
  intros Hwf. unfold handleNodeError. case_bool_decide; [|done].
  assert (Hwf1 : wellFormed
            (withNodes (onNode IncrementError node (nodes lb)) lb))
    by (by apply wellFormed_onNode).
  destruct (_ && _); [by apply demotePrimary_wellFormed|done].
Qed.

Lemma dialFailed_wellFormed node lb :
  wellFormed lb → wellFormed (dialFailed node lb).
Proof.
  intros Hwf. unfold dialFailed.
  assert (Hwf1 : wellFormed
            (withNodes (onNode IncrementError node (nodes lb)) lb))
    by (by apply wellFormed_onNode).
  destruct (IsPrimary _); [|done].
  case_bool_decide; [by apply demotePrimary_wellFormed|done].
Qed.

(** *** Requests *)

Lemma tryNodes_wellFormed env snapshot : ∀ i lb,
  wellFormed lb → wellFormed (tryNodes env i snapshot lb).1.1.
Proof.
  induction snapshot as [|node rest IH]; intros i lb Hwf; cbn [tryNodes].
  - done.
  - case_bool_decide; [done|].
    destruct (checkRequestTimeout env i); [done|].
    case_bool_decide; [done|].
    unfold attemptNodeRequest, handleSuccessResponse.
    assert (Hwf1 : wellFormed
              (withNodes (onNode IncrementRequests node (nodes lb)) lb))
      by (by apply wellFormed_onNode).
    destruct (_ && _); cbn [fst].
    + by apply wellFormed_onNode.
    + apply IH. by apply handleNodeError_wellFormed.
Qed.

Lemma connectToUpstreamWebSocket_wellFormed env snapshot : ∀ lb,
  wellFormed lb →
  wellFormed (connectToUpstreamWebSocket env snapshot lb).1.1.
Proof.
  induction snapshot as [|node rest IH]; intros lb Hwf;
    cbn [connectToUpstreamWebSocket].
  - done.
  - destruct (dial env node); [done|].
    specialize (IH (dialFailed node lb) (dialFailed_wellFormed _ _ Hwf)).
    destruct (connectToUpstreamWebSocket env rest (dialFailed node lb))
      as [[lb' sel] dialled]. exact IH.
Qed.

Lemma ServeHTTP_wellFormed env r lb :
  wellFormed lb →
  wellFormed (ServeHTTP IsValidBeaconEndpoint env r lb).1.1.
Proof.
  intros Hwf. unfold ServeHTTP, handleWebSocket, handleHTTPRequest.
  destruct (negb _); [done|].
  destruct (IsWebSocketUpgrade r); [|by apply tryNodes_wellFormed].
  case_bool_decide; [done|].
  pose proof (connectToUpstreamWebSocket_wellFormed env
                (GetHealthyNodes lb) lb Hwf) as Hc.
  destruct (connectToUpstreamWebSocket env (GetHealthyNodes lb) lb)
    as [[lb1 sel] dialled]. cbn [fst] in Hc.
  destruct sel as [n|]; [|done].
  destruct (negb (upgrade env)); [done|].
  cbn [fst]. by apply wellFormed_onNode.
Qed.

(** *** The periodic pass *)

Lemma lowestStep_Some ns l : ∀ acc n,
  (foldl (lowestStep ns) acc l).2 = Some n → acc.2 = Some n ∨ n ∈ l.
Proof.
  induction l as [|x l IH]; intros acc n; cbn [foldl]; [by left|].
  intros [Hacc|Hin]%IH; [|right; by right].
  unfold lowestStep in Hacc. destruct (_ && _); [|by left].
  cbn in Hacc. injection Hacc as ->. right. left.
Qed.

Lemma lowestPriorityBackup_Some ns nhb n :
  lowestPriorityBackup ns nhb = Some n → n ∈ nhb.
Proof.
  unfold lowestPriorityBackup. by intros [?|?]%lowestStep_Some.
Qed.

Lemma promoted_priority ns n m :
  GetPriority (onNode ResetErrors n (onNode (SetPriority 0) n ns) !!! m) = 0
  → m = n ∨ GetPriority (ns !!! m) = 0.
Proof.
  rewrite (onNode_field GetPriority) by done.
  unfold onNode. rewrite list_lookup_total_alter.
  case_decide as Hd; [left; by destruct Hd|by right].
Qed.

Lemma performHealthCheck_wellFormed arrivals lb :
  arrivals.*1 ≡ₚ backupNodes (nodes lb) →
  wellFormed lb →
  wellFormed (performHealthCheck json_Unmarshal arrivals lb).
Proof.
  intros Hperm Hwf. unfold performHealthCheck.
  case_bool_decide; [done|].
  destruct Hwf as [Hn Ho Hv Hh _].
  destruct (newHealthyBackups_probed json_Unmarshal arrivals (nodes lb)
              Hperm) as [Hnd Hbackup].
  set (nhb := newHealthyBackups json_Unmarshal arrivals) in *.
  set (ns := nodes lb) in *.
  set (ns1 := foldl (collectResult json_Unmarshal) ns arrivals).
  set (ns2 := failback (config lb) nhb ns1).
  set (ns3 := restorePriorities nhb ns2).
  set (cp := findCurrentPrimary ns3).
  set (ns4 := promote nhb cp ns3).
  assert (Hlen3 : length ns3 = length ns).
  { subst ns3 ns2 ns1.
    by rewrite restorePriorities_length, failback_length, collect_length. }
  assert (Hlen4 : length ns4 = length ns)
    by (subst ns4; by rewrite promote_length).
  assert (Hname3 : ∀ m, Name (ns3 !!! m) = Name (ns !!! m)).
  { intros m. subst ns3 ns2 ns1.
    by rewrite restorePriorities_field, failback_field, collect_field. }
  assert (Horig3 : ∀ m, OriginalPriority (ns3 !!! m)
                        = OriginalPriority (ns !!! m)).
  { intros m. subst ns3 ns2 ns1.
    by rewrite restorePriorities_field, failback_field, collect_field. }
  assert (Hname4 : ∀ m, Name (ns4 !!! m) = Name (ns !!! m)).
  { intros m. subst ns4. by rewrite promote_field. }
  assert (Horig4 : ∀ m, OriginalPriority (ns4 !!! m)
                        = OriginalPriority (ns !!! m)).
  { intros m. subst ns4. by rewrite promote_field. }
  (* after the sweep, a healthy backup is at its original priority *)
  assert (Hprio3 : ∀ m, m ∈ nhb →
            GetPriority (ns3 !!! m) = OriginalPriority (ns !!! m)).
  { intros m Hm. destruct (Hbackup m Hm) as [Hlt _].
    subst ns3. rewrite restorePriorities_priority
      by (subst ns2 ns1; by rewrite failback_length, collect_length).
    rewrite decide_True by done. subst ns2 ns1.
    by rewrite failback_field, collect_field. }
  (* so a healthy backup at priority 0 after the sweep is node 0 *)
  assert (Hzero : ∀ m, m ∈ nhb → GetPriority (ns3 !!! m) = 0 → m = 0%nat).
  { intros m Hm H0. rewrite (Hprio3 m Hm) in H0.
    apply Ho; [by apply Hbackup|done]. }
  set (head := primaryIfHealthy ns3 (healthyNodes lb) cp).
  assert (Hhead : ∀ m, m ∈ head → cp = Some m).
  { intros m. subst head. unfold primaryIfHealthy.
    destruct cp as [c|]; [|by intros ?%not_elem_of_nil].
    destruct (existsb _ _); [|by intros ?%not_elem_of_nil].
    by intros ->%list_elem_of_singleton. }
  split; cbn [nodes healthyNodes].
  - by rewrite (fmap_Name_eq ns ns4).
  - intros m. rewrite Hlen4, Horig4. apply Ho.
  - intros m [Hm|Hm]%elem_of_app; rewrite Hlen4.
    + apply Hhead in Hm. apply findCurrentPrimary_Some in Hm as [Hlt _].
      by rewrite <- Hlen3.
    + by apply Hbackup.
  - (* the original primary, if healthy, is at priority 0 *)
    intros m Hm Hm0. rewrite Horig4 in Hm0.
    assert (Hm3 : GetPriority (ns3 !!! m) = 0).
    { apply elem_of_app in Hm as [Hm|Hm].
      - apply Hhead in Hm. apply findCurrentPrimary_Some in Hm as [_ Hp].
        by apply bool_decide_eq_true in Hp.
      - by rewrite Hprio3. }
    assert (Hmlt : (m < length ns3)%nat).
    { rewrite Hlen3. apply elem_of_app in Hm as [Hm|Hm].
      - apply Hhead in Hm. apply findCurrentPrimary_Some in Hm as [Hlt _].
        by rewrite <- Hlen3.
      - by apply Hbackup. }
    subst ns4. destruct cp as [c|] eqn:Hcp; [done|].
    apply (findCurrentPrimary_None _ m) in Hcp; [|done].
    unfold IsPrimary in Hcp. rewrite Hm3 in Hcp. done.
  - (* at most one position of the rebuilt list holds a primary *)
    unfold healthyPrimaries. cbn [nodes healthyNodes].
    fold head. rewrite filter_app, length_app.
    destruct cp as [c|] eqn:Hcp.
    + (* a primary exists: nothing is promoted *)
      subst ns4. cbn [promote].
      assert (Hback : (length (filter
                (λ n, IsPrimary (ns3 !!! n) = true) nhb) ≤ 1)%nat).
      { apply (length_le_1_of_constant _ 0%nat); [by apply NoDup_filter|].
        intros x [Hx Hin]%list_elem_of_filter.
        apply Hzero; [done|]. by apply bool_decide_eq_true in Hx. }
      assert (Hhd : (length head ≤ 1)%nat).
      { subst head. unfold primaryIfHealthy.
        destruct (existsb _ _); cbn; lia. }
      pose proof (length_filter (λ n, IsPrimary (ns3 !!! n) = true) head)
        as Hfh.
      destruct (filter (λ n, IsPrimary (ns3 !!! n) = true) nhb)
        as [|x rest] eqn:Hf; [cbn [length]; lia|].
      (* node 0 is a healthy backup at priority 0: it is the primary, and
         it was not in the previous healthy set *)
      assert (Hx : x ∈ filter (λ n, IsPrimary (ns3 !!! n) = true) nhb)
        by (rewrite Hf; left).
      apply list_elem_of_filter in Hx as [Hxp Hxin].
      apply bool_decide_eq_true in Hxp.
      assert (x = 0%nat) as -> by (by apply Hzero).
      destruct (Hbackup 0%nat Hxin) as [H0lt H0b].
      assert (Hhead0 : head = []).
      { subst head. unfold primaryIfHealthy.
        assert (c = 0%nat) as ->.
        { unfold cp in Hcp. rewrite findCurrentPrimary_head in Hcp.
          - by injection Hcp.
          - lia.
          - by apply bool_decide_eq_true. }
        destruct (existsb _ _) eqn:Hex; [|done]. exfalso.
        apply existsb_exists in Hex as (h & Hhin & Hhn).
        apply list_elem_of_In in Hhin. apply bool_decide_eq_true in Hhn.
        rewrite !Hname3 in Hhn.
        assert (h = 0%nat) as ->
          by (apply (Name_inj ns); [done|by apply Hv|done|done]).
        assert (H00 : GetPriority (ns !!! 0%nat) = 0).
        { apply Hh; [done|]. by rewrite <- Hprio3. }
        unfold IsBackup in H0b. rewrite H00 in H0b. done. }
      rewrite Hhead0, filter_nil. try rewrite Hf in Hback.
      cbn [length] in Hback |- *. lia.
    + (* no primary: the head is empty and at most one node is promoted *)
      assert (Hnone : ∀ m, m ∈ nhb → GetPriority (ns3 !!! m) ≠ 0).
      { intros m Hm H0. apply (findCurrentPrimary_None _ m) in Hcp.
        - unfold IsPrimary in Hcp. rewrite H0 in Hcp. done.
        - rewrite Hlen3. by apply Hbackup. }
      subst head. cbn [primaryIfHealthy]. rewrite filter_nil. cbn [length].
      rewrite Nat.add_0_l.
      subst ns4. unfold promote.
      assert (Hnoprimary : filter (λ n, IsPrimary (ns3 !!! n) = true) nhb
                           = []).
      { apply elem_of_nil_inv. intros x [Hx Hin]%list_elem_of_filter.
        apply bool_decide_eq_true in Hx. by apply (Hnone x). }
      assert (Hpromoted : ∀ n, (length (filter
                (λ m, IsPrimary (onNode ResetErrors n
                        (onNode (SetPriority 0) n ns3) !!! m) = true) nhb)
                ≤ 1)%nat).
      { intros n. apply (length_le_1_of_constant _ n);
          [by apply NoDup_filter|].
        intros x [Hx Hin]%list_elem_of_filter.
        apply bool_decide_eq_true in Hx.
        apply promoted_priority in Hx as [->|Hx]; [done|].
        by destruct (Hnone x Hin). }
      case_bool_decide; [|rewrite Hnoprimary; cbn; lia].
      destruct (findOriginalPrimary ns3 nhb) as [n|]; [apply Hpromoted|].
      destruct (lowestPriorityBackup ns3 nhb) as [n|]; [apply Hpromoted|].
      rewrite Hnoprimary. cbn. lia.
Qed.

(** *** Startup *)

(** After [New], the node at position [m] has an original priority of at
    least [i + m], equal to its priority. *)
Lemma newNodes_priorities allNodes : ∀ i m bn,
  newNodes url_Parse_ok i allNodes !! m = Some bn →
  i + Z.of_nat m ≤ OriginalPriority bn
  ∧ GetPriority bn = OriginalPriority bn.
Proof.
  induction allNodes as [|nc rest IH]; intros i m bn; cbn [newNodes];
    [done|].
  destruct (NewBeaconNode url_Parse_ok nc) as [node|].
  - destruct m as [|m]; cbn.
    + intros [= <-]. cbn. lia.
    + intros [Hle Hp]%IH. split; [lia|done].
  - intros [Hle Hp]%IH. split; [lia|done].
Qed.

Lemma newNodes_names allNodes : ∀ i,
  Name <$> newNodes url_Parse_ok i allNodes `sublist_of` cfgName <$> allNodes.
Proof.
  induction allNodes as [|nc rest IH]; intros i; cbn [newNodes]; [done|].
  unfold NewBeaconNode. destruct (url_Parse_ok (cfgURL nc)); cbn.
  - apply sublist_skip, IH.
  - apply sublist_cons, IH.
Qed.

Lemma priorityLe_total (ns : list BeaconNode) : Total (priorityLe ns).
Proof. intros a b. unfold priorityLe. lia. Qed.

(** The startup health check leaves the healthy set sorted by priority. *)
Lemma StartupHealthCheck_sorted arrivals lb :
  sortedByPriority (StartupHealthCheck json_Unmarshal arrivals lb).1.
Proof.
  unfold sortedByPriority, StartupHealthCheck, sort_Slice.
  cbn [fst nodes healthyNodes].
  apply (Sorted_merge_sort (priorityLe (nodes lb)) (Total0 := priorityLe_total _)).
Qed.

Lemma started_wellFormed cfg lb :
  NoDup (cfgName <$> GetAllNodes cfg) →
  started url_Parse_ok json_Unmarshal cfg lb → wellFormed lb.
Proof.
  intros Hcfg [lb0 arrivals lb' Hnew Hperm Hstart].
  unfold New in Hnew. case_bool_decide as Hl1; [discriminate|].
  case_bool_decide as Hl2; [discriminate|]. injection Hnew as <-.
  unfold StartupHealthCheck in Hstart. cbn [nodes config] in *.
  injection Hstart as <- _.
  set (ns := newNodes url_Parse_ok 0 (GetAllNodes cfg)) in *.
  set (healthy :=
    (filter (λ r : Arrival,
       (CheckSyncStatus json_Unmarshal r.2).1 = true) arrivals).*1).
  assert (Hspec : ∀ m, (m < length ns)%nat →
            Z.of_nat m ≤ OriginalPriority (ns !!! m)
            ∧ GetPriority (ns !!! m) = OriginalPriority (ns !!! m)).
  { intros m Hm.
    destruct (newNodes_priorities (GetAllNodes cfg) 0 m (ns !!! m))
      as [Hle Hp]; [by apply list_lookup_lookup_total_lt|]. split; [lia|done]. }
  assert (Hsub : healthy `sublist_of` arrivals.*1)
    by apply fmap_sublist, sublist_filter.
  assert (Hin : ∀ m, m ∈ sort_Slice ns healthy → (m < length ns)%nat).
  { intros m Hm. unfold sort_Slice in Hm.
    rewrite merge_sort_Permutation in Hm.
    eapply elem_of_sublist in Hm; [|exact Hsub].
    rewrite Hperm in Hm. unfold nodeRefs in Hm.
    apply elem_of_seq in Hm. lia. }
  split; cbn [nodes healthyNodes].
  - eapply sublist_NoDup; [exact Hcfg|apply newNodes_names].
  - intros m Hm Hz. destruct (Hspec m Hm). lia.
  - exact Hin.
  - intros m Hm Hz. destruct (Hspec m (Hin m Hm)). congruence.
  - unfold healthyPrimaries. cbn [nodes healthyNodes].
    apply (length_le_1_of_constant _ 0%nat).
    + apply NoDup_filter. unfold sort_Slice.
      rewrite merge_sort_Permutation.
      eapply sublist_NoDup; [|exact Hsub].
      rewrite Hperm. apply NoDup_seq.
    + intros x [Hx Hxin]%list_elem_of_filter.
      apply bool_decide_eq_true in Hx.
      destruct (Hspec x (Hin x Hxin)). lia.
Qed.

Lemma step_wellFormed lb lb' :
  step json_Unmarshal IsValidBeaconEndpoint lb lb' →
  wellFormed lb → wellFormed lb'.
Proof.
  intros [env r st|arrivals st Hperm] Hwf.
  - by apply ServeHTTP_wellFormed.
  - by apply performHealthCheck_wellFormed.
Qed.

Lemma reachable_wellFormed cfg lb :
  NoDup (cfgName <$> GetAllNodes cfg) →
  reachable url_Parse_ok json_Unmarshal IsValidBeaconEndpoint cfg lb →
  wellFormed lb.
Proof.
  intros Hcfg Hreach. induction Hreach as [lb Hs|lb lb' _ IH Hstep].
  - by apply (started_wellFormed cfg).
  - by apply (step_wellFormed lb).
Qed.

(** C1, amended. With unique backend names, in every state reached from a
    successful startup health check by client requests (HTTP or WebSocket,
    with their on-request demotions) and periodic scheduler passes, at most
    one backend of the healthy set has priority 0, and the healthy set
    refers to configured backends only. The healthy set can be non-empty
    without any primary: on-request demotion removes the primary and
    promotes nothing. *)
Theorem C1_at_most_one_primary (cfg : Config) (lb : LoadBalancer) :
  NoDup (cfgName <$> GetAllNodes cfg) →
  reachable url_Parse_ok json_Unmarshal IsValidBeaconEndpoint cfg lb →
  (length (healthyPrimaries lb) ≤ 1)%nat
  ∧ ∀ m, m ∈ GetHealthyNodes lb → (m < length (GetNodes lb))%nat.
Proof.
  intros Hcfg Hreach.
  destruct (reachable_wellFormed cfg lb Hcfg Hreach) as [_ _ Hv _ Hp].
  split; [exact Hp|exact Hv].
Qed.

End PrimaryInvariant.

(** The example deployments are reachable states. *)
Lemma startWith_started (cfg : Config) (arrivals : list Arrival)
    (lb0 : LoadBalancer) :
  New anyURL cfg = Some lb0 →
  arrivals.*1 ≡ₚ nodeRefs (nodes lb0) →
  (StartupHealthCheck syncedJSON arrivals lb0).2 = false →
  started anyURL syncedJSON cfg (startWith cfg arrivals).
Proof.
  intros Hnew Hperm Hok. unfold startWith. rewrite Hnew.
  apply (started_intro _ _ _ lb0 arrivals); [done|done|].
  destruct (StartupHealthCheck syncedJSON arrivals lb0) as [lb e].
  cbn in Hok |- *. by rewrite Hok.
Qed.

Lemma serveAll_reachable (cfg : Config) (env : Env) (r : Request) (k : nat)
    (lb : LoadBalancer) :
  reachable anyURL syncedJSON anyPath cfg lb →
  reachable anyURL syncedJSON anyPath cfg (serveAll env r k lb).
Proof.
  intros Hlb. induction k as [|k IH]; [done|].
  change (serveAll env r (S k) lb)
    with (ServeHTTP anyPath env r (serveAll env r k lb)).1.1.
  eapply reachable_step; [exact IH|apply step_request].
Qed.

Lemma twoNodes_reachable (maxRetries : Z) :
  reachable anyURL syncedJSON anyPath (configOf maxRetries [nodeP; nodeB])
            (twoNodes maxRetries).
Proof.
  apply reachable_start. unfold twoNodes.
  eapply startWith_started; [reflexivity|by_decide|reflexivity].
Qed.

Lemma C1_at_most_one_primary_witness :
  let lb := serveAll (primaryFails "" "") httpGet 3 (twoNodes 3) in
  (length (healthyPrimaries lb) ≤ 1)%nat
  ∧ ∀ m, m ∈ GetHealthyNodes lb → (m < length (GetNodes lb))%nat.
Proof.
  apply (C1_at_most_one_primary anyURL syncedJSON anyPath
           (configOf 3 [nodeP; nodeB])
           (serveAll (primaryFails "" "") httpGet 3 (twoNodes 3))).
  - by_decide.
  - apply serveAll_reachable, twoNodes_reachable.
Defined.

(** C1 as stated fails in two reachable states. After the third failed
    request to [p], [p] is demoted and removed and nothing is promoted: the
    healthy set is [b], with [b] at priority 1. And a startup in which [p]
    is down and [b] is healthy succeeds with the healthy set [b]. In both,
    the healthy set is not empty and holds no backend of priority 0. *)
Lemma C1_counterexample :
  let cfg := configOf 3 [nodeP; nodeB] in
  let demoted := serveAll (primaryFails "" "") httpGet 3 (twoNodes 3) in
  let partial := startWith cfg [(0%nat, probeDown); (1%nat, probeOK)] in
  (reachable anyURL syncedJSON anyPath cfg demoted
   ∧ GetHealthyNodes demoted = [1%nat]
   ∧ GetPriority (nodes demoted !!! 1%nat) = 1
   ∧ healthyPrimaries demoted = []
   ∧ ¬ (GetHealthyNodes demoted = []
        ∨ length (healthyPrimaries demoted) = 1%nat))
  ∧ (reachable anyURL syncedJSON anyPath cfg partial
     ∧ GetHealthyNodes partial = [1%nat]
     ∧ healthyPrimaries partial = []
     ∧ ¬ (GetHealthyNodes partial = []
          ∨ length (healthyPrimaries partial) = 1%nat)).
Proof.
  cbv zeta. split; split_and!.
  - apply serveAll_reachable, twoNodes_reachable.
  - vm_compute. reflexivity.
  - vm_compute. reflexivity.
  - vm_compute. reflexivity.
  - intros [H|H]; vm_compute in H; discriminate.
  - apply reachable_start.
    eapply startWith_started; [reflexivity|by_decide|vm_compute; reflexivity].
  - vm_compute. reflexivity.
  - vm_compute. reflexivity.
  - intros [H|H]; vm_compute in H; discriminate.
Qed.

(* ===================================================================== *)
(** * Further properties *)
(* ===================================================================== *)

(** ** The recording response writer *)

Section Recorder.

Lemma string_app_assoc (a b c : string) : (a +:+ b) +:+ c = a +:+ (b +:+ c).
Proof.
  induction a as [|x a IH]; [done|].
  change (String x ((a +:+ b) +:+ c) = String x (a +:+ (b +:+ c))).
  by f_equal.
Qed.

Lemma string_app_nil_r (a : string) : a +:+ "" = a.
Proof.
  induction a as [|x a IH]; [done|].
  change (String x (a +:+ "") = String x a). by f_equal.
Qed.

Lemma applyCall_sticky (rr : responseRecorder) (calls : list WriterCall) :
  statusCode rr ≠ 0 →
  statusCode (foldl applyCall rr calls) = statusCode rr.
Proof.
  revert rr. induction calls as [|c calls IH]; intros rr Hrr; [done|].
  cbn [foldl]. destruct c as [code|data]; cbn [applyCall].
  - unfold WriteHeader. rewrite bool_decide_false by done. by apply IH.
  - unfold Write. rewrite bool_decide_false by done.
    rewrite IH by done. done.
Qed.

Lemma applyCall_body (rr : responseRecorder) (calls : list WriterCall) :
  body (foldl applyCall rr calls) = body rr +:+ writtenData calls.
Proof.
  revert rr. induction calls as [|c calls IH]; intros rr;
    cbn [foldl writtenData].
  - by rewrite string_app_nil_r.
  - destruct c as [code|data]; rewrite IH; cbn [applyCall].
    + unfold WriteHeader. by case_bool_decide.
    + unfold Write. case_bool_decide; cbn; by rewrite string_app_assoc.
Qed.

(** X1. The recorder keeps every byte written to it, in order, whatever the
    [WriteHeader] calls in between; its status is set once, by the first
    [WriteHeader] with a non-zero code or to 200 by the first [Write], and
    no later call changes it. *)
Theorem recorder_records (calls more : list WriterCall) :
  let rr := foldl applyCall {| statusCode := 0; body := "" |} calls in
  body rr = writtenData calls
  ∧ statusCode rr = firstStatus calls
  ∧ (statusCode rr ≠ 0 →
       statusCode (foldl applyCall rr more) = statusCode rr
       ∧ body (foldl applyCall rr more)
         = writtenData calls +:+ writtenData more).
Proof.
  cbv zeta. split_and!.
  - by rewrite applyCall_body.
  - generalize (eq_refl : statusCode {| statusCode := 0; body := "" |} = 0).
    generalize {| statusCode := 0; body := "" |}.
    induction calls as [|c calls IH]; intros rr Hrr; [done|].
    cbn [foldl firstStatus]. destruct c as [code|data]; cbn [applyCall].
    + unfold WriteHeader. rewrite bool_decide_true by done.
      case_bool_decide as Hc.
      * apply IH. cbn. done.
      * by rewrite applyCall_sticky.
    + unfold Write. rewrite bool_decide_true by done.
      by rewrite applyCall_sticky.
  - intros Hne. split; [by apply applyCall_sticky|].
    by rewrite !applyCall_body.
Qed.

End Recorder.

(** ** What a request does to the shared state *)

Section RequestEffects.
Variable IsValidBeaconEndpoint : string → bool.

Lemma requestEffect_refl lb : requestEffect lb lb.
Proof. unfold requestEffect. split_and!; try done. intros m. auto. Qed.

Lemma requestEffect_trans lb1 lb2 lb3 :
  requestEffect lb1 lb2 → requestEffect lb2 lb3 → requestEffect lb1 lb3.
Proof.
  intros (Hc1 & Hl1 & Hs1 & Hn1) (Hc2 & Hl2 & Hs2 & Hn2).
  unfold requestEffect. split_and!.
  - congruence.
  - congruence.
  - by etrans.
  - intros m. destruct (Hn1 m) as (? & ? & ? & Hp1).
    destruct (Hn2 m) as (? & ? & ? & Hp2).
    split_and!; try congruence.
    rewrite Hl1 in Hp2. destruct Hp1, Hp2; [left|right|right|right];
      congruence.
Qed.

(** A method that keeps name, URL and priorities. *)
Lemma requestEffect_onNode f n lb :
  (∀ bn, Name (f bn) = Name bn) →
  (∀ bn, URL (f bn) = URL bn) →
  (∀ bn, OriginalPriority (f bn) = OriginalPriority bn) →
  (∀ bn, GetPriority (f bn) = GetPriority bn) →
  requestEffect lb (withNodes (onNode f n (nodes lb)) lb).
Proof.
  intros H1 H2 H3 H4. unfold requestEffect. cbn [withNodes nodes config healthyNodes].
  split_and!; [done|apply onNode_length|done|].
  intros m. split_and!; [by apply onNode_field..|].
  left. by apply (onNode_field GetPriority).
Qed.

Lemma requestEffect_demotePrimary node lb :
  requestEffect lb (demotePrimary node lb).
Proof.
  unfold requestEffect, demotePrimary. cbn [nodes config healthyNodes].
  split_and!; [done|apply onNode_length|apply sublist_filter|].
  intros m. split_and!; [by apply onNode_field..|].
  unfold onNode. rewrite list_lookup_total_alter.
  case_decide; [by right|by left].
Qed.

Lemma requestEffect_handleNodeError node status lb :
  requestEffect lb (handleNodeError node status lb).
Proof.
  unfold handleNodeError. case_bool_decide; [|apply requestEffect_refl].
  destruct (_ && _).
  - eapply requestEffect_trans;
      [|apply requestEffect_demotePrimary]. by apply requestEffect_onNode.
  - by apply requestEffect_onNode.
Qed.

Lemma requestEffect_dialFailed node lb :
  requestEffect lb (dialFailed node lb).
Proof.
  unfold dialFailed. destruct (IsPrimary _);
    [|by apply requestEffect_onNode].
  case_bool_decide; [|by apply requestEffect_onNode].
  eapply requestEffect_trans;
    [|apply requestEffect_demotePrimary]. by apply requestEffect_onNode.
Qed.

Lemma requestEffect_tryNodes env snapshot : ∀ i lb,
  requestEffect lb (tryNodes env i snapshot lb).1.1.
Proof.
  induction snapshot as [|node rest IH]; intros i lb; cbn [tryNodes].
  - apply requestEffect_refl.
  - case_bool_decide; [apply requestEffect_refl|].
    destruct (checkRequestTimeout env i); [apply requestEffect_refl|].
    case_bool_decide; [apply requestEffect_refl|].
    unfold attemptNodeRequest, handleSuccessResponse.
    set (lb1 := withNodes (onNode IncrementRequests node (nodes lb)) lb).
    assert (H1 : requestEffect lb lb1) by (by apply requestEffect_onNode).
    destruct (_ && _); cbn [fst].
    + apply (requestEffect_trans lb lb1); [done|].
      by apply requestEffect_onNode.
    + match goal with
      | |- context [tryNodes env (S i) rest ?x] =>
        apply (requestEffect_trans lb x); [|apply IH]
      end.
      apply (requestEffect_trans lb lb1); [done|].
      apply requestEffect_handleNodeError.
Qed.

Lemma requestEffect_connect env snapshot : ∀ lb,
  requestEffect lb (connectToUpstreamWebSocket env snapshot lb).1.1.
Proof.
  induction snapshot as [|node rest IH]; intros lb;
    cbn [connectToUpstreamWebSocket].
  - apply requestEffect_refl.
  - destruct (dial env node); [apply requestEffect_refl|].
    specialize (IH (dialFailed node lb)).
    destruct (connectToUpstreamWebSocket env rest (dialFailed node lb))
      as [[lb' sel] dialled]. cbn [fst] in IH |- *.
    eapply requestEffect_trans; [apply requestEffect_dialFailed|exact IH].
Qed.

Lemma requestEffect_ServeHTTP env r lb :
  requestEffect lb (ServeHTTP IsValidBeaconEndpoint env r lb).1.1.
Proof.
  unfold ServeHTTP, handleWebSocket, handleHTTPRequest.
  destruct (negb _); [apply requestEffect_refl|].
  destruct (IsWebSocketUpgrade r); [|apply requestEffect_tryNodes].
  case_bool_decide; [apply requestEffect_refl|].
  pose proof (requestEffect_connect env (GetHealthyNodes lb) lb) as Hc.
  destruct (connectToUpstreamWebSocket env (GetHealthyNodes lb) lb)
    as [[lb1 sel] dialled]. cbn [fst] in Hc.
  destruct sel as [n|]; [|exact Hc].
  destruct (negb (upgrade env)); [exact Hc|]. cbn [fst].
  eapply requestEffect_trans; [exact Hc|]. by apply requestEffect_onNode.
Qed.

(** X2. Whatever a request (HTTP or WebSocket) observes, it never adds a
    node to the healthy set nor reorders it (the new healthy set is a
    sublist of the old one); it never changes the configuration, the
    number of nodes, or the name, URL or original priority of a node; and
    the only change it can make to a priority is to set it to the number
    of nodes. *)
Theorem request_only_shrinks_healthy_set (env : Env) (r : Request)
    (lb : LoadBalancer) :
  let lb' := (ServeHTTP IsValidBeaconEndpoint env r lb).1.1 in
  config lb' = config lb
  ∧ length (nodes lb') = length (nodes lb)
  ∧ healthyNodes lb' `sublist_of` healthyNodes lb
  ∧ ∀ m, Name (nodes lb' !!! m) = Name (nodes lb !!! m)
         ∧ URL (nodes lb' !!! m) = URL (nodes lb !!! m)
         ∧ OriginalPriority (nodes lb' !!! m)
           = OriginalPriority (nodes lb !!! m)
         ∧ (GetPriority (nodes lb' !!! m) = GetPriority (nodes lb !!! m)
            ∨ GetPriority (nodes lb' !!! m) = Z.of_nat (length (nodes lb))).
Proof. apply requestEffect_ServeHTTP. Qed.

End RequestEffects.

(** ** The response of an HTTP request *)

Section HttpResponse.

Lemma success_test rr :
  bool_decide (statusCode rr >= HTTPStatusSuccessMin)
  && bool_decide (statusCode rr < HTTPStatusSuccessMax) = true
  ↔ isSuccess rr.
Proof.
  unfold isSuccess. rewrite andb_true_iff, !bool_decide_eq_true. lia.
Qed.

Lemma tryNodes_shape env snapshot : ∀ i lb,
  let out := tryNodes env i snapshot lb in
  ((out.1.2 = NoResponse
    ∨ out.1.2 = HttpError "Request timeout" 504
    ∨ out.1.2 = HttpError "All beacon nodes unavailable" 502)
   ∧ ∀ j n, out.2 !! j = Some n → ¬ isSuccess (recorded env (i + j) n))
  ∨ ∃ pre node,
      out.2 = pre ++ [node]
      ∧ (∀ j n, pre !! j = Some n → ¬ isSuccess (recorded env (i + j) n))
      ∧ isSuccess (recorded env (i + length pre) node)
      ∧ out.1.2 = Copied (statusCode (recorded env (i + length pre) node))
                         (body (recorded env (i + length pre) node))
      ∧ ((node < length (nodes lb))%nat →
           ConsecutiveErrors (nodes out.1.1 !!! node) = 0).
Proof.
  induction snapshot as [|node rest IH]; intros i lb; cbn [tryNodes].
  - left. cbn. split; [auto|]. intros j n Hj. done.
  - case_bool_decide.
    { left. cbn. split; [auto|]. intros j n Hj. done. }
    destruct (checkRequestTimeout env i).
    { left. cbn. split; [auto|]. intros j n Hj. done. }
    case_bool_decide.
    { left. cbn. split; [auto|]. intros j n Hj. done. }
    unfold attemptNodeRequest, handleSuccessResponse.
    fold (recorded env i node).
    set (lb1 := withNodes (onNode IncrementRequests node (nodes lb)) lb).
    destruct (_ && _) eqn:Hs.
    + apply success_test in Hs.
      right. exists [], node. cbn [length app fst snd].
      rewrite Nat.add_0_r. split_and!; try done.
      * unfold copyToResponseWriter. unfold isSuccess in Hs.
        rewrite bool_decide_true; [done|].
        unfold HTTPStatusSuccessMin in Hs. lia.
      * intros Hlt. cbn [withNodes nodes].
        rewrite onNode_eq by (subst lb1; cbn; by rewrite onNode_length).
        done.
    + assert (Hfail : ¬ isSuccess (recorded env i node)).
      { intros Hok%success_test. congruence. }
      set (lb2 := handleNodeError node (statusCode (recorded env i node)) lb1).
      assert (Hlen : length (nodes lb2) = length (nodes lb)).
      { destruct (requestEffect_handleNodeError node
                    (statusCode (recorded env i node)) lb1) as (_ & Hl & _).
        fold lb2 in Hl. rewrite Hl. subst lb1. cbn. apply onNode_length. }
      destruct (IH (S i) lb2) as [[Hresp Hall]|(pre & n & Ho & Hpre & Hok & Hr & He)].
      * left. cbn [contacted fst snd]. split; [exact Hresp|].
        intros [|j] m Hj; cbn in Hj.
        -- injection Hj as <-. by rewrite Nat.add_0_r.
        -- replace (i + S j)%nat with (S i + j)%nat by lia. by apply Hall.
      * right. exists (node :: pre), n. cbn [contacted fst snd length].
        replace (i + S (length pre))%nat with (S i + length pre)%nat by lia.
        split_and!; try done.
        -- by rewrite Ho.
        -- intros [|j] m Hj; cbn in Hj.
           ++ injection Hj as <-. by rewrite Nat.add_0_r.
           ++ replace (i + S j)%nat with (S i + j)%nat by lia. by apply Hpre.
        -- intros Hlt. apply He. by rewrite Hlen.
Qed.

(** X3. An HTTP request is answered in exactly one of these ways: nothing
    is written (deadline check), 504 "Request timeout", 502 "All beacon
    nodes unavailable", or the recorded response of the last node
    contacted, byte for byte; the last happens only when that recording has
    a status in 200..399, every node contacted before it recorded a
    failure, and the answering node, when it is a node of [lb.nodes], ends
    with zero consecutive errors. A failed attempt's recording never
    reaches the client. *)
Theorem http_response_is_canonical_or_first_success (env : Env)
    (lb : LoadBalancer) :
  let out := handleHTTPRequest env lb in
  ((out.1.2 = NoResponse
    ∨ out.1.2 = HttpError "Request timeout" 504
    ∨ out.1.2 = HttpError "All beacon nodes unavailable" 502)
   ∧ ∀ j n, out.2 !! j = Some n → ¬ isSuccess (recorded env j n))
  ∨ ∃ pre node,
      out.2 = pre ++ [node]
      ∧ (∀ j n, pre !! j = Some n → ¬ isSuccess (recorded env j n))
      ∧ isSuccess (recorded env (length pre) node)
      ∧ out.1.2 = Copied (statusCode (recorded env (length pre) node))
                         (body (recorded env (length pre) node))
      ∧ ((node < length (nodes lb))%nat →
           ConsecutiveErrors (nodes out.1.1 !!! node) = 0).
Proof.
  apply (tryNodes_shape env (GetHealthyNodes lb) 0%nat lb).
Qed.

End HttpResponse.

(** ** Failures that are not the backend's *)

Section ClientErrors.

Lemma handleNodeError_below_500 node status lb :
  status < 500 → handleNodeError node status lb = lb.
Proof.
  intros Hs. unfold handleNodeError.
  rewrite bool_decide_false; [done|]. unfold HTTPStatusServerErrorMin. lia.
Qed.

Lemma tryNodes_without_5xx env snapshot : ∀ i lb,
  (∀ j n, statusCode (recorded env j n) < 500) →
  let lb' := (tryNodes env i snapshot lb).1.1 in
  healthyNodes lb' = healthyNodes lb
  ∧ ∀ m, TotalFailures (nodes lb' !!! m) = TotalFailures (nodes lb !!! m)
         ∧ ConsecutiveSuccesses (nodes lb' !!! m)
           = ConsecutiveSuccesses (nodes lb !!! m)
         ∧ GetPriority (nodes lb' !!! m) = GetPriority (nodes lb !!! m)
         ∧ (ConsecutiveErrors (nodes lb' !!! m)
            = ConsecutiveErrors (nodes lb !!! m)
            ∨ ConsecutiveErrors (nodes lb' !!! m) = 0).
Proof.
  induction snapshot as [|node rest IH]; intros i lb Hall; cbn [tryNodes].
  - cbn. split; [done|]. intros m. auto.
  - case_bool_decide; [cbn; split; [done|]; intros m; auto|].
    destruct (checkRequestTimeout env i);
      [cbn; split; [done|]; intros m; auto|].
    case_bool_decide; [cbn; split; [done|]; intros m; auto|].
    unfold attemptNodeRequest, handleSuccessResponse.
    fold (recorded env i node).
    set (lb1 := withNodes (onNode IncrementRequests node (nodes lb)) lb).
    assert (H1 : ∀ m,
      TotalFailures (nodes lb1 !!! m) = TotalFailures (nodes lb !!! m)
      ∧ ConsecutiveSuccesses (nodes lb1 !!! m)
        = ConsecutiveSuccesses (nodes lb !!! m)
      ∧ GetPriority (nodes lb1 !!! m) = GetPriority (nodes lb !!! m)
      ∧ ConsecutiveErrors (nodes lb1 !!! m)
        = ConsecutiveErrors (nodes lb !!! m)).
    { intros m. subst lb1. cbn [withNodes nodes].
      split_and!; by apply onNode_field. }
    destruct (_ && _); cbn [fst].
    + split; [done|]. intros m. cbn [withNodes nodes].
      destruct (H1 m) as (Ht & Hs & Hp & He).
      rewrite !(onNode_field TotalFailures),
              !(onNode_field ConsecutiveSuccesses),
              !(onNode_field GetPriority) by done.
      split_and!; try done.
      unfold onNode. rewrite list_lookup_total_alter.
      case_decide as Hd; [by right|]. left. exact He.
    + rewrite handleNodeError_below_500 by apply Hall.
      destruct (IH (S i) lb1 Hall) as [Hh Hm].
      cbn [contacted fst snd].
      split; [exact Hh|]. intros m.
      destruct (Hm m) as (Ht & Hs & Hp & He).
      destruct (H1 m) as (Ht1 & Hs1 & Hp1 & He1).
      split_and!; try congruence.
Qed.

(** X4. A request in which no upstream recording has a status of 500 or
    more (successes, 4xx, or nothing written) leaves the healthy set, every
    priority, every [total_failures] and every [consecutive_successes] as
    they were; a node's [consecutive_errors] is either unchanged or reset
    to 0: client errors (4xx) are never counted against a backend and never
    demote it. *)
Theorem client_errors_are_not_counted (env : Env) (lb : LoadBalancer) :
  (∀ j n, statusCode (recorded env j n) < 500) →
  let lb' := (handleHTTPRequest env lb).1.1 in
  healthyNodes lb' = healthyNodes lb
  ∧ ∀ m, TotalFailures (nodes lb' !!! m) = TotalFailures (nodes lb !!! m)
         ∧ ConsecutiveSuccesses (nodes lb' !!! m)
           = ConsecutiveSuccesses (nodes lb !!! m)
         ∧ GetPriority (nodes lb' !!! m) = GetPriority (nodes lb !!! m)
         ∧ (ConsecutiveErrors (nodes lb' !!! m)
            = ConsecutiveErrors (nodes lb !!! m)
            ∨ ConsecutiveErrors (nodes lb' !!! m) = 0).
Proof.
  intros Hall. apply (tryNodes_without_5xx env (GetHealthyNodes lb) 0%nat lb Hall).
Qed.

End ClientErrors.

Lemma client_errors_are_not_counted_witness :
  let env := everyNodeAnswers 404 0 in
  let lb := serveAll (primaryFails "" "") httpGet 2 (twoNodes 3) in
  let lb' := (handleHTTPRequest env lb).1.1 in
  healthyNodes lb' = healthyNodes lb
  ∧ ∀ m, TotalFailures (nodes lb' !!! m) = TotalFailures (nodes lb !!! m)
         ∧ ConsecutiveSuccesses (nodes lb' !!! m)
           = ConsecutiveSuccesses (nodes lb !!! m)
         ∧ GetPriority (nodes lb' !!! m) = GetPriority (nodes lb !!! m)
         ∧ (ConsecutiveErrors (nodes lb' !!! m)
            = ConsecutiveErrors (nodes lb !!! m)
            ∨ ConsecutiveErrors (nodes lb' !!! m) = 0).
Proof.
  apply (client_errors_are_not_counted (everyNodeAnswers 404 0)
           (serveAll (primaryFails "" "") httpGet 2 (twoNodes 3))).
  intros j n. vm_compute. reflexivity.
Defined.

(** ** Backups on the request path *)

Section BackupsStay.
Variable IsValidBeaconEndpoint : string → bool.

Lemma backupStays_onNode f n m p lb :
  (∀ bn, Name (f bn) = Name bn) →
  (∀ bn, GetPriority (f bn) = GetPriority bn) →
  backupStays m p lb →
  backupStays m p (withNodes (onNode f n (nodes lb)) lb).
Proof.
  intros H1 H2 (Hn & Hlt & Hin & Hp). unfold backupStays.
  cbn [withNodes nodes healthyNodes]. split_and!.
  - rewrite (fmap_Name_eq (nodes lb)); [done|apply onNode_length|].
    intros k. by apply onNode_field.
  - by rewrite onNode_length.
  - done.
  - by rewrite (onNode_field GetPriority).
Qed.

Lemma backupStays_demotePrimary node m p lb :
  p ≠ 0 → (node < length (nodes lb))%nat →
  IsPrimary (nodes lb !!! node) = true →
  backupStays m p lb → backupStays m p (demotePrimary node lb).
Proof.
  intros Hp0 Hnode Hprim (Hn & Hlt & Hin & Hp).
  assert (Hne : m ≠ node).
  { intros ->. apply bool_decide_eq_true in Hprim. congruence. }
  unfold backupStays, demotePrimary. cbn [nodes healthyNodes].
  split_and!.
  - rewrite (fmap_Name_eq (nodes lb)); [done|apply onNode_length|].
    intros k. by apply onNode_field.
  - by rewrite onNode_length.
  - apply list_elem_of_filter. split; [|done].
    rewrite !Name_onNode by done. intros Heq. apply Hne.
    by apply (Name_inj (nodes lb)).
  - by rewrite onNode_ne.
Qed.

Lemma backupStays_handleNodeError node status m p lb :
  p ≠ 0 → (node < length (nodes lb))%nat →
  backupStays m p lb → backupStays m p (handleNodeError node status lb).
Proof.
  intros Hp0 Hnode Hb. unfold handleNodeError. case_bool_decide; [|done].
  assert (Hb1 : backupStays m p
            (withNodes (onNode IncrementError node (nodes lb)) lb))
    by (by apply backupStays_onNode).
  destruct (IsPrimary _) eqn:Hprim; cbn [andb]; [|done].
  case_bool_decide; [|done].
  apply backupStays_demotePrimary; try done.
  cbn. by rewrite onNode_length.
Qed.

Lemma backupStays_dialFailed node m p lb :
  p ≠ 0 → (node < length (nodes lb))%nat →
  backupStays m p lb → backupStays m p (dialFailed node lb).
Proof.
  intros Hp0 Hnode Hb. unfold dialFailed.
  assert (Hb1 : backupStays m p
            (withNodes (onNode IncrementError node (nodes lb)) lb))
    by (by apply backupStays_onNode).
  destruct (IsPrimary _) eqn:Hprim; [|done].
  case_bool_decide; [|done].
  apply backupStays_demotePrimary; try done.
  cbn. by rewrite onNode_length.
Qed.

Lemma backupStays_tryNodes env m p snapshot : ∀ i lb,
  p ≠ 0 →
  (∀ n, n ∈ snapshot → (n < length (nodes lb))%nat) →
  backupStays m p lb → backupStays m p (tryNodes env i snapshot lb).1.1.
Proof.
  induction snapshot as [|node rest IH]; intros i lb Hp0 Hvalid Hb;
    cbn [tryNodes]; [done|].
  case_bool_decide; [done|].
  destruct (checkRequestTimeout env i); [done|].
  case_bool_decide; [done|].
  unfold attemptNodeRequest, handleSuccessResponse.
  set (lb1 := withNodes (onNode IncrementRequests node (nodes lb)) lb).
  assert (Hb1 : backupStays m p lb1) by (by apply backupStays_onNode).
  assert (Hlen1 : length (nodes lb1) = length (nodes lb))
    by (subst lb1; cbn; apply onNode_length).
  destruct (_ && _); cbn [fst contacted].
  - by apply backupStays_onNode.
  - apply IH; [done| |].
    + intros n Hn.
      match goal with
      | |- (_ < length (nodes (handleNodeError ?a ?b ?c)))%nat =>
        destruct (requestEffect_handleNodeError a b c) as (_ & Hl & _)
      end.
      rewrite Hl, Hlen1. apply Hvalid. by right.
    + apply backupStays_handleNodeError; [done| |done].
      rewrite Hlen1. apply Hvalid. left.
Qed.

Lemma backupStays_connect env m p snapshot : ∀ lb,
  p ≠ 0 →
  (∀ n, n ∈ snapshot → (n < length (nodes lb))%nat) →
  backupStays m p lb →
  backupStays m p (connectToUpstreamWebSocket env snapshot lb).1.1.
Proof.
  induction snapshot as [|node rest IH]; intros lb Hp0 Hvalid Hb;
    cbn [connectToUpstreamWebSocket]; [done|].
  destruct (dial env node); [done|].
  assert (Hlen : length (nodes (dialFailed node lb)) = length (nodes lb)).
  { by destruct (requestEffect_dialFailed node lb) as (_ & Hl & _). }
  specialize (IH (dialFailed node lb) Hp0).
  destruct (connectToUpstreamWebSocket env rest (dialFailed node lb))
    as [[lb' sel] dialled]. cbn [fst] in IH |- *.
  apply IH.
  - intros n Hn. rewrite Hlen. apply Hvalid. by right.
  - apply backupStays_dialFailed; [done| |done]. apply Hvalid. left.
Qed.

(** X5. In a well-formed state, no request (HTTP or WebSocket), whatever
    the upstreams answer, removes a backup from the healthy set or changes
    its priority: on the request path only the primary is demoted. *)
Theorem request_never_removes_a_backup (env : Env) (r : Request)
    (lb : LoadBalancer) (m : nat) :
  wellFormed lb →
  m ∈ healthyNodes lb →
  IsPrimary (nodes lb !!! m) = false →
  let lb' := (ServeHTTP IsValidBeaconEndpoint env r lb).1.1 in
  m ∈ healthyNodes lb'
  ∧ GetPriority (nodes lb' !!! m) = GetPriority (nodes lb !!! m).
Proof.
  intros [Hn _ Hv _ _] Hin Hnp lb'.
  assert (Hp0 : GetPriority (nodes lb !!! m) ≠ 0).
  { intros H0. unfold IsPrimary in Hnp. rewrite H0 in Hnp. done. }
  assert (Hb : backupStays m (GetPriority (nodes lb !!! m)) lb).
  { unfold backupStays. split_and!; auto. }
  enough (Hb' : backupStays m (GetPriority (nodes lb !!! m)) lb').
  { destruct Hb' as (_ & _ & ? & ?). done. }
  subst lb'. unfold ServeHTTP, handleWebSocket, handleHTTPRequest.
  destruct (negb _); [done|].
  destruct (IsWebSocketUpgrade r); [|by apply backupStays_tryNodes].
  case_bool_decide; [done|].
  pose proof (backupStays_connect env m _ (GetHealthyNodes lb) lb Hp0 Hv Hb)
    as Hc.
  destruct (connectToUpstreamWebSocket env (GetHealthyNodes lb) lb)
    as [[lb1 sel] dialled]. cbn [fst] in Hc.
  destruct sel as [n|]; [|done].
  destruct (negb (upgrade env)); [done|]. cbn [fst].
  by apply backupStays_onNode.
Qed.

End BackupsStay.

Lemma request_never_removes_a_backup_witness :
  let lb := serveAll (primaryFails "" "") httpGet 2 (twoNodes 3) in
  let lb' := (ServeHTTP anyPath (primaryFails "" "") httpGet lb).1.1 in
  1%nat ∈ healthyNodes lb'
  ∧ GetPriority (nodes lb' !!! 1%nat) = GetPriority (nodes lb !!! 1%nat).
Proof.
  apply (request_never_removes_a_backup anyPath (primaryFails "" "") httpGet
           (serveAll (primaryFails "" "") httpGet 2 (twoNodes 3)) 1%nat).
  - apply (reachable_wellFormed anyURL syncedJSON anyPath
             (configOf 3 [nodeP; nodeB])).
    + by_decide.
    + apply serveAll_reachable, twoNodes_reachable.
  - by_decide.
  - vm_compute. reflexivity.
Defined.

(** ** WebSocket connection selection *)

Section WebSocketSelection.
Variable IsValidBeaconEndpoint : string → bool.

Lemma connect_all_fail env snapshot : ∀ lb,
  (∀ n, n ∈ snapshot → dial env n = false) →
  (connectToUpstreamWebSocket env snapshot lb).1.2 = None
  ∧ (connectToUpstreamWebSocket env snapshot lb).2 = snapshot.
Proof.
  induction snapshot as [|node rest IH]; intros lb Hall;
    cbn [connectToUpstreamWebSocket]; [done|].
  rewrite (Hall node) by left.
  destruct (IH (dialFailed node lb)) as [Hs Hd];
    [intros n Hn; apply Hall; by right|].
  destruct (connectToUpstreamWebSocket env rest (dialFailed node lb))
    as [[lb' sel] dialled]. cbn in *. by subst.
Qed.

Lemma connect_first_dialable env pre n post : ∀ lb,
  (∀ x, x ∈ pre → dial env x = false) → dial env n = true →
  (connectToUpstreamWebSocket env (pre ++ n :: post) lb).1.2 = Some n
  ∧ (connectToUpstreamWebSocket env (pre ++ n :: post) lb).2 = pre ++ [n].
Proof.
  induction pre as [|x pre IH]; intros lb Hpre Hn;
    cbn [connectToUpstreamWebSocket app].
  - by rewrite Hn.
  - rewrite (Hpre x) by left.
    destruct (IH (dialFailed x lb)) as [Hs Hd];
      [intros y Hy; apply Hpre; by right|done|].
    destruct (connectToUpstreamWebSocket env (pre ++ n :: post)
                (dialFailed x lb)) as [[lb' sel] dialled].
    cbn in *. by subst.
Qed.

(** X6. A WebSocket upgrade with a valid path and a non-empty healthy set
    dials the healthy nodes in order and stops at the first dial that
    succeeds: the session is proxied to that node (or the client upgrade
    fails), and the nodes after it are not dialled. When no dial succeeds,
    every healthy node was dialled once, in order, and the answer is 502
    "Failed to establish WebSocket connection to any node". *)
Theorem websocket_selects_first_dialable (env : Env) (r : Request)
    (lb : LoadBalancer) :
  IsValidBeaconEndpoint (Path r) = true →
  IsWebSocketUpgrade r = true →
  GetHealthyNodes lb ≠ [] →
  let out := ServeHTTP IsValidBeaconEndpoint env r lb in
  ((∀ n, n ∈ GetHealthyNodes lb → dial env n = false) →
     out.1.2 = HttpError "Failed to establish WebSocket connection to any node"
                         502
     ∧ out.2 = GetHealthyNodes lb)
  ∧ (∀ pre n post,
       GetHealthyNodes lb = pre ++ n :: post →
       (∀ x, x ∈ pre → dial env x = false) → dial env n = true →
       out.1.2 = (if upgrade env then WebSocketProxied n else UpgradeFailed)
       ∧ out.2 = pre ++ [n]).
Proof.
  intros Hvalid Hws Hne out. subst out.
  unfold ServeHTTP, handleWebSocket. rewrite Hvalid, Hws. cbn [negb].
  rewrite bool_decide_false
    by (intros Hz; by apply length_zero_iff_nil in Hz).
  split.
  - intros Hall.
    destruct (connect_all_fail env (GetHealthyNodes lb) lb Hall) as [Hs Hd].
    destruct (connectToUpstreamWebSocket env (GetHealthyNodes lb) lb)
      as [[lb' sel] dialled]. cbn in Hs, Hd. by subst.
  - intros pre n post Heq Hpre Hn. rewrite Heq.
    destruct (connect_first_dialable env pre n post lb Hpre Hn) as [Hs Hd].
    destruct (connectToUpstreamWebSocket env (pre ++ n :: post) lb)
      as [[lb' sel] dialled]. cbn in Hs, Hd. subst.
    by destruct (upgrade env).
Qed.

(** X7. The answer 403 "Invalid Beacon Chain API endpoint" is given exactly
    to the requests whose path the validator rejects, HTTP and WebSocket
    alike; such a request contacts no node and leaves the shared state
    untouched. *)
Theorem forbidden_iff_invalid_path (env : Env) (r : Request)
    (lb : LoadBalancer) :
  let out := ServeHTTP IsValidBeaconEndpoint env r lb in
  (out.1.2 = HttpError "Invalid Beacon Chain API endpoint" 403
   ↔ IsValidBeaconEndpoint (Path r) = false)
  ∧ (IsValidBeaconEndpoint (Path r) = false →
       out = (lb, HttpError "Invalid Beacon Chain API endpoint" 403, [])).
Proof.
  cbv zeta. split.
  2:{ intros Hv. unfold ServeHTTP. by rewrite Hv. }
  split.
  2:{ intros Hv. unfold ServeHTTP. by rewrite Hv. }
  destruct (IsValidBeaconEndpoint (Path r)) eqn:Hv; [|done].
  intros Hresp. exfalso.
  unfold ServeHTTP, handleWebSocket in Hresp. rewrite Hv in Hresp.
  cbn [negb] in Hresp.
  destruct (IsWebSocketUpgrade r).
  - case_bool_decide; [cbn in Hresp; discriminate|].
    destruct (connectToUpstreamWebSocket env (GetHealthyNodes lb) lb)
      as [[lb' sel] dialled].
    destruct sel as [n|]; [|cbn in Hresp; discriminate].
    destruct (negb (upgrade env)); cbn in Hresp; discriminate.
  - unfold handleHTTPRequest in Hresp.
    destruct (tryNodes_shape env (GetHealthyNodes lb) 0 lb)
      as [[[H|[H|H]] _]|(pre & node & _ & _ & _ & H & _)];
      rewrite H in Hresp; discriminate.
Qed.

End WebSocketSelection.

Lemma websocket_selects_first_dialable_witness :
  let env := everyNodeAnswers 200 1 in
  let lb := twoNodes 3 in
  let out := ServeHTTP anyPath env wsUpgrade lb in
  ((∀ n, n ∈ GetHealthyNodes lb → dial env n = false) →
     out.1.2 = HttpError "Failed to establish WebSocket connection to any node"
                         502
     ∧ out.2 = GetHealthyNodes lb)
  ∧ (∀ pre n post,
       GetHealthyNodes lb = pre ++ n :: post →
       (∀ x, x ∈ pre → dial env x = false) → dial env n = true →
       out.1.2 = (if upgrade env then WebSocketProxied n else UpgradeFailed)
       ∧ out.2 = pre ++ [n]).
Proof.
  apply (websocket_selects_first_dialable anyPath (everyNodeAnswers 200 1)
           wsUpgrade (twoNodes 3)).
  - reflexivity.
  - reflexivity.
  - vm_compute. discriminate.
Defined.

(** ** The startup health check *)

Section Startup.
Variable json_Unmarshal : string → string + SyncingResponse.

(** X8. The startup health check leaves the node objects untouched; the
    healthy set it builds holds exactly the nodes whose probe was healthy,
    each as often as it was probed, in ascending order of priority; and it
    reports an error exactly when no probe was healthy, that is when the
    healthy set is empty. *)
Theorem startup_builds_sorted_healthy_set (arrivals : list Arrival)
    (lb : LoadBalancer) :
  let out := StartupHealthCheck json_Unmarshal arrivals lb in
  nodes out.1 = nodes lb
  ∧ config out.1 = config lb
  ∧ healthyNodes out.1
    ≡ₚ (filter (λ r : Arrival,
                  (CheckSyncStatus json_Unmarshal r.2).1 = true) arrivals).*1
  ∧ sortedByPriority out.1
  ∧ (out.2 = true ↔ healthyNodes out.1 = [])
  ∧ (out.2 = true
     ↔ ∀ r, r ∈ arrivals → (CheckSyncStatus json_Unmarshal r.2).1 = false).
Proof.
  cbv zeta. split_and!.
  - reflexivity.
  - reflexivity.
  - unfold StartupHealthCheck, sort_Slice. cbn [fst healthyNodes].
    apply merge_sort_Permutation.
  - apply StartupHealthCheck_sorted.
  - unfold StartupHealthCheck. cbn [fst snd healthyNodes].
    rewrite bool_decide_eq_true. apply length_zero_iff_nil.
  - unfold StartupHealthCheck, sort_Slice. cbn [fst snd healthyNodes].
    rewrite bool_decide_eq_true, length_zero_iff_nil.
    split.
    + intros Hnil r Hr.
      destruct ((CheckSyncStatus json_Unmarshal r.2).1) eqn:Hh; [|done].
      exfalso.
      assert (Hin : r.1 ∈ merge_sort (priorityLe (nodes lb))
                (filter (λ r : Arrival,
                   (CheckSyncStatus json_Unmarshal r.2).1 = true)
                   arrivals).*1).
      { rewrite merge_sort_Permutation. apply list_elem_of_fmap.
        exists r. split; [done|]. by apply list_elem_of_filter. }
      rewrite Hnil in Hin. by apply not_elem_of_nil in Hin.
    + intros Hall.
      apply Permutation_nil_r. rewrite merge_sort_Permutation.
      replace (filter _ arrivals) with (@nil Arrival); [done|].
      symmetry. apply elem_of_nil_inv.
      intros r [Hh Hr]%list_elem_of_filter. rewrite (Hall r Hr) in Hh.
      discriminate.
Qed.

End Startup.

(** ** What a scheduler pass does to a node *)

Section PassEffects.
Variable json_Unmarshal : string → string + SyncingResponse.

Lemma keptOrReset_refl g ns : keptOrReset g ns ns.
Proof. intros m. by left. Qed.

Lemma keptOrReset_trans g ns1 ns2 ns3 :
  keptOrReset g ns1 ns2 → keptOrReset g ns2 ns3 → keptOrReset g ns1 ns3.
Proof.
  intros H1 H2 m. destruct (H1 m), (H2 m); [left|right|right|right];
    congruence.
Qed.

Lemma keptOrReset_kept g f n ns :
  (∀ bn, g (f bn) = g bn) → keptOrReset g ns (onNode f n ns).
Proof. intros Hf m. left. by apply onNode_field. Qed.

Lemma keptOrReset_ResetErrors n ns :
  keptOrReset ConsecutiveErrors ns (onNode ResetErrors n ns).
Proof.
  intros m. unfold onNode. rewrite list_lookup_total_alter.
  case_decide; [by right|by left].
Qed.

Lemma keptOrReset_foldl {X} g
    (body : list BeaconNode → X → list BeaconNode) (xs : list X) :
  (∀ ns x, keptOrReset g ns (body ns x)) →
  ∀ ns, keptOrReset g ns (foldl body ns xs).
Proof.
  intros Hbody. induction xs as [|x xs IH]; intros ns; cbn [foldl].
  - apply keptOrReset_refl.
  - eapply keptOrReset_trans; [apply Hbody|apply IH].
Qed.

Lemma errors_collectResult ns r :
  keptOrReset ConsecutiveErrors ns (collectResult json_Unmarshal ns r).
Proof.
  unfold collectResult. destruct (HealthCheck json_Unmarshal r.2).1.
  - eapply keptOrReset_trans; [|apply keptOrReset_ResetErrors].
    by apply keptOrReset_kept.
  - by apply keptOrReset_kept.
Qed.

Lemma errors_failback cfg nhb ns :
  keptOrReset ConsecutiveErrors ns (failback cfg nhb ns).
Proof.
  unfold failback.
  destruct (findOriginalPrimary ns nhb) as [o|]; [|apply keptOrReset_refl].
  destruct (findCurrentPrimary ns) as [c|]; [|apply keptOrReset_refl].
  destruct (_ && _); [|apply keptOrReset_refl].
  eapply keptOrReset_trans; [|by apply keptOrReset_kept].
  eapply keptOrReset_trans; [|apply keptOrReset_ResetErrors].
  by apply keptOrReset_kept.
Qed.

Lemma errors_promote nhb cp ns :
  keptOrReset ConsecutiveErrors ns (promote nhb cp ns).
Proof.
  unfold promote. destruct cp; [apply keptOrReset_refl|].
  case_bool_decide; [|apply keptOrReset_refl].
  assert (Hp : ∀ n, keptOrReset ConsecutiveErrors ns
                  (onNode ResetErrors n (onNode (SetPriority 0) n ns))).
  { intros n. eapply keptOrReset_trans; [|apply keptOrReset_ResetErrors].
    by apply keptOrReset_kept. }
  destruct (findOriginalPrimary ns nhb) as [n|]; [apply Hp|].
  destruct (lowestPriorityBackup ns nhb) as [n|];
    [apply Hp|apply keptOrReset_refl].
Qed.

(** X9. A scheduler pass, whatever the probes return and in whatever order,
    never changes the configuration, the number of nodes, or a node's name,
    URL, original priority, [total_failures] or request count, and it never
    raises a node's [consecutive_errors]: each is kept or reset to 0. A
    failed probe is not counted as an error of the backend. *)
Theorem pass_never_counts_a_failure (arrivals : list Arrival)
    (lb : LoadBalancer) :
  let lb' := performHealthCheck json_Unmarshal arrivals lb in
  config lb' = config lb
  ∧ length (nodes lb') = length (nodes lb)
  ∧ ∀ m, Name (nodes lb' !!! m) = Name (nodes lb !!! m)
         ∧ URL (nodes lb' !!! m) = URL (nodes lb !!! m)
         ∧ OriginalPriority (nodes lb' !!! m)
           = OriginalPriority (nodes lb !!! m)
         ∧ TotalFailures (nodes lb' !!! m) = TotalFailures (nodes lb !!! m)
         ∧ Requests (nodes lb' !!! m) = Requests (nodes lb !!! m)
         ∧ (ConsecutiveErrors (nodes lb' !!! m)
            = ConsecutiveErrors (nodes lb !!! m)
            ∨ ConsecutiveErrors (nodes lb' !!! m) = 0).
Proof.
  cbv zeta. unfold performHealthCheck.
  case_bool_decide.
  { split_and!; try done. intros m. split_and!; auto. }
  cbn [config nodes]. split_and!.
  - done.
  - by rewrite promote_length, restorePriorities_length, failback_length,
      collect_length.
  - intros m.
    assert (Hf : ∀ {A} (g : BeaconNode → A),
      (∀ p bn, g (SetPriority p bn) = g bn) →
      (∀ bn, g (ResetErrors bn) = g bn) →
      (∀ bn, g (IncrementSuccess bn) = g bn) →
      (∀ bn, g (ResetSuccesses bn) = g bn) →
      g (promote (newHealthyBackups json_Unmarshal arrivals)
           (findCurrentPrimary
              (restorePriorities (newHealthyBackups json_Unmarshal arrivals)
                 (failback (config lb)
                    (newHealthyBackups json_Unmarshal arrivals)
                    (foldl (collectResult json_Unmarshal) (nodes lb)
                       arrivals))))
           (restorePriorities (newHealthyBackups json_Unmarshal arrivals)
              (failback (config lb)
                 (newHealthyBackups json_Unmarshal arrivals)
                 (foldl (collectResult json_Unmarshal) (nodes lb) arrivals)))
         !!! m) = g (nodes lb !!! m)).
    { intros A g H1 H2 H3 H4.
      by rewrite promote_field, restorePriorities_field, failback_field,
        collect_field. }
    split_and!; try (by apply Hf).
    eapply keptOrReset_trans; [|apply errors_promote].
    eapply keptOrReset_trans;
      [|apply keptOrReset_foldl; intros ns x; unfold restoreOne;
        case_bool_decide; [by apply keptOrReset_kept|apply keptOrReset_refl]].
    eapply keptOrReset_trans; [|apply errors_failback].
    apply keptOrReset_foldl. apply errors_collectResult.
Qed.

End PassEffects.

(** ** The probes of a pass *)

Section ProbeEffects.
Variable json_Unmarshal : string → string + SyncingResponse.

Lemma arrival_unique (arrivals : list Arrival) m r1 r2 :
  NoDup arrivals.*1 → (m, r1) ∈ arrivals → (m, r2) ∈ arrivals → r1 = r2.
Proof.
  induction arrivals as [|[k r] l IH]; intros Hnd H1 H2;
    [by apply not_elem_of_nil in H1|].
  cbn in Hnd. apply NoDup_cons in Hnd as [Hk Hnd].
  apply elem_of_cons in H1 as [H1|H1], H2 as [H2|H2].
  - congruence.
  - injection H1 as -> ->. exfalso. apply Hk.
    apply list_elem_of_fmap. by exists (k, r2).
  - injection H2 as -> ->. exfalso. apply Hk.
    apply list_elem_of_fmap. by exists (k, r1).
  - by apply IH.
Qed.

Lemma collect_other (arrivals : list Arrival) : ∀ ns m,
  m ∉ arrivals.*1 →
  foldl (collectResult json_Unmarshal) ns arrivals !!! m = ns !!! m.
Proof.
  induction arrivals as [|[k r] l IH]; intros ns m Hm; cbn [foldl]; [done|].
  cbn in Hm. apply not_elem_of_cons in Hm as [Hmk Hm].
  rewrite IH by done. unfold collectResult. cbn [fst snd].
  destruct (HealthCheck json_Unmarshal r).1; by rewrite !onNode_ne.
Qed.

(** The collection loop on the node of a probe. *)
Lemma collect_probed (arrivals : list Arrival) : ∀ ns m resp,
  NoDup arrivals.*1 → (m, resp) ∈ arrivals → (m < length ns)%nat →
  foldl (collectResult json_Unmarshal) ns arrivals !!! m
  = if (HealthCheck json_Unmarshal resp).1
    then ResetErrors (IncrementSuccess (ns !!! m))
    else ResetSuccesses (ns !!! m).
Proof.
  induction arrivals as [|[k r] l IH]; intros ns m resp Hnd Hin Hlt;
    [by apply not_elem_of_nil in Hin|].
  cbn in Hnd. apply NoDup_cons in Hnd as [Hk Hnd]. cbn [foldl].
  apply elem_of_cons in Hin as [Hin|Hin].
  - injection Hin as <- <-. rewrite collect_other by done.
    unfold collectResult. cbn [fst snd].
    destruct (HealthCheck json_Unmarshal resp).1.
    + rewrite onNode_eq by (by rewrite onNode_length).
      by rewrite onNode_eq.
    + by rewrite onNode_eq.
  - assert (Hmk : k ≠ m).
    { intros ->. apply Hk. apply list_elem_of_fmap. by exists (m, resp). }
    rewrite (IH _ m resp) by (by rewrite ?collectResult_length).
    unfold collectResult. cbn [fst snd].
    destruct (HealthCheck json_Unmarshal r).1; by rewrite !onNode_ne.
Qed.

Lemma failback_other cfg nhb ns m :
  m ∉ nhb → IsPrimary (ns !!! m) = false →
  failback cfg nhb ns !!! m = ns !!! m.
Proof.
  intros Hm Hp. unfold failback.
  destruct (findOriginalPrimary ns nhb) as [o|] eqn:Ho; [|done].
  destruct (findCurrentPrimary ns) as [c|] eqn:Hc; [|done].
  destruct (_ && _); [|done].
  apply findFirst_Some in Ho as [Ho _].
  apply findCurrentPrimary_Some in Hc as [_ Hc].
  rewrite !onNode_ne; [done|by intros ->..|].
  intros ->. congruence.
Qed.

Lemma restorePriorities_other nhb : ∀ ns m,
  m ∉ nhb → restorePriorities nhb ns !!! m = ns !!! m.
Proof.
  unfold restorePriorities.
  induction nhb as [|n l IH]; intros ns m Hm; cbn [foldl]; [done|].
  apply not_elem_of_cons in Hm as [Hmn Hm]. rewrite IH by done.
  unfold restoreOne. case_bool_decide; [|done]. by rewrite onNode_ne.
Qed.

Lemma promote_other nhb cp ns m :
  m ∉ nhb → promote nhb cp ns !!! m = ns !!! m.
Proof.
  intros Hm. unfold promote. destruct cp; [done|].
  case_bool_decide; [|done].
  destruct (findOriginalPrimary ns nhb) as [n|] eqn:Hn.
  - apply findFirst_Some in Hn as [Hn _].
    rewrite !onNode_ne; [done|by intros ->..].
  - destruct (lowestPriorityBackup ns nhb) as [n|] eqn:Hl; [|done].
    apply lowestPriorityBackup_Some in Hl.
    rewrite !onNode_ne; [done|by intros ->..].
Qed.

Lemma priority_promote nhb cp ns :
  keptOrReset GetPriority ns (promote nhb cp ns).
Proof.
  unfold promote. destruct cp; [apply keptOrReset_refl|].
  case_bool_decide; [|apply keptOrReset_refl].
  assert (Hp : ∀ n, keptOrReset GetPriority ns
                  (onNode ResetErrors n (onNode (SetPriority 0) n ns))).
  { intros n m. rewrite (onNode_field GetPriority) by done.
    unfold onNode. rewrite list_lookup_total_alter.
    case_decide; [by right|by left]. }
  destruct (findOriginalPrimary ns nhb) as [n|]; [apply Hp|].
  destruct (lowestPriorityBackup ns nhb) as [n|];
    [apply Hp|apply keptOrReset_refl].
Qed.

(** X10. In a scheduler pass in which every backup is probed once, a node
    whose probe is healthy is in the new healthy set, has its
    [consecutive_errors] at 0 and its [consecutive_successes] increased by
    one, and ends at its original priority or at priority 0; a node whose
    probe is unhealthy is not in the new healthy set, has its
    [consecutive_successes] at 0 and nothing else changed. *)
Theorem pass_effect_of_a_probe (arrivals : list Arrival) (lb : LoadBalancer)
    (m : nat) (resp : GetResult) :
  arrivals.*1 ≡ₚ backupNodes (nodes lb) →
  (m, resp) ∈ arrivals →
  let lb' := performHealthCheck json_Unmarshal arrivals lb in
  if (HealthCheck json_Unmarshal resp).1 then
    (m ∈ healthyNodes lb')
    ∧ ConsecutiveErrors (nodes lb' !!! m) = 0
    ∧ ConsecutiveSuccesses (nodes lb' !!! m)
      = wrap64 (ConsecutiveSuccesses (nodes lb !!! m) + 1)
    ∧ (GetPriority (nodes lb' !!! m) = OriginalPriority (nodes lb !!! m)
       ∨ GetPriority (nodes lb' !!! m) = 0)
  else
    (m ∉ healthyNodes lb')
    ∧ nodes lb' !!! m = ResetSuccesses (nodes lb !!! m).
Proof.
  intros Hperm Hin lb'.
  assert (Hnd : NoDup arrivals.*1)
    by (rewrite Hperm; apply NoDup_backupNodes).
  assert (Hmb : m ∈ backupNodes (nodes lb)).
  { rewrite <- Hperm. apply list_elem_of_fmap. by exists (m, resp). }
  apply elem_of_backupNodes in Hmb as Hmb'. destruct Hmb' as [Hlt Hback].
  destruct (newHealthyBackups_probed json_Unmarshal arrivals (nodes lb)
              Hperm) as [Hndh Hbackup].
  subst lb'. unfold performHealthCheck.
  rewrite bool_decide_false.
  2:{ intros Hz. apply length_zero_iff_nil in Hz. rewrite Hz in Hmb.
      by apply not_elem_of_nil in Hmb. }
  cbn [nodes healthyNodes].
  set (nhb := newHealthyBackups json_Unmarshal arrivals) in *.
  set (ns := nodes lb) in *.
  set (ns1 := foldl (collectResult json_Unmarshal) ns arrivals).
  set (ns2 := failback (config lb) nhb ns1).
  set (ns3 := restorePriorities nhb ns2).
  set (cp := findCurrentPrimary ns3).
  assert (H1 : ns1 !!! m
               = if (HealthCheck json_Unmarshal resp).1
                 then ResetErrors (IncrementSuccess (ns !!! m))
                 else ResetSuccesses (ns !!! m))
    by (by apply collect_probed).
  destruct (HealthCheck json_Unmarshal resp).1 eqn:Hh.
  - assert (Hmh : m ∈ nhb)
      by (apply elem_of_newHealthyBackups; by exists resp).
    split_and!.
    + apply elem_of_app. by right.
    + assert (He1 : ConsecutiveErrors (ns1 !!! m) = 0) by (by rewrite H1).
      assert (Hk : keptOrReset ConsecutiveErrors ns1
                     (promote nhb cp ns3)).
      { eapply keptOrReset_trans; [|apply errors_promote].
        eapply keptOrReset_trans;
          [apply errors_failback|].
        apply keptOrReset_foldl. intros ns' x. unfold restoreOne.
        case_bool_decide; [by apply keptOrReset_kept|apply keptOrReset_refl]. }
      destruct (Hk m) as [Hk'|Hk']; [by rewrite Hk'|done].
    + subst ns3 ns2.
      rewrite (promote_field ConsecutiveSuccesses),
        (restorePriorities_field ConsecutiveSuccesses),
        (failback_field ConsecutiveSuccesses) by done.
      by rewrite H1.
    + destruct (priority_promote nhb cp ns3 m) as [Hp|Hp]; [|by right].
      left. rewrite Hp. subst ns3.
      rewrite restorePriorities_priority
        by (subst ns2 ns1; by rewrite failback_length, collect_length).
      rewrite decide_True by done. subst ns2 ns1.
      by rewrite failback_field, collect_field.
  - assert (Hmh : m ∉ nhb).
    { intros (resp' & Hin' & Hh')%elem_of_newHealthyBackups.
      rewrite (arrival_unique arrivals m resp resp') in Hh by done.
      congruence. }
    assert (Hp1 : IsPrimary (ns1 !!! m) = false).
    { rewrite H1. unfold IsPrimary, IsBackup in *.
      apply bool_decide_eq_true in Hback. apply bool_decide_false.
      cbn. unfold GetPriority in Hback. lia. }
    assert (H3 : ns3 !!! m = ns1 !!! m).
    { subst ns3 ns2. rewrite restorePriorities_other by done.
      by apply failback_other. }
    split.
    + intros [Hu|Hn]%elem_of_app; [|done].
      unfold primaryIfHealthy in Hu. destruct cp as [c|] eqn:Hcp;
        [|by apply not_elem_of_nil in Hu].
      destruct (existsb _ _); [|by apply not_elem_of_nil in Hu].
      apply list_elem_of_singleton in Hu as ->.
      apply findCurrentPrimary_Some in Hcp as [_ Hcp].
      rewrite H3 in Hcp. congruence.
    + rewrite promote_other by done. by rewrite H3, H1.
Qed.

End ProbeEffects.

Lemma pass_effect_of_a_probe_witness :
  let lb := serveAll (primaryFails "" "") httpGet 3 (twoNodes 3) in
  let arrivals := [(1%nat, probeOK); (0%nat, probeDown)] in
  let lb' := performHealthCheck syncedJSON arrivals lb in
  if (HealthCheck syncedJSON probeDown).1 then
    (0%nat ∈ healthyNodes lb')
    ∧ ConsecutiveErrors (nodes lb' !!! 0%nat) = 0
    ∧ ConsecutiveSuccesses (nodes lb' !!! 0%nat)
      = wrap64 (ConsecutiveSuccesses (nodes lb !!! 0%nat) + 1)
    ∧ (GetPriority (nodes lb' !!! 0%nat)
       = OriginalPriority (nodes lb !!! 0%nat)
       ∨ GetPriority (nodes lb' !!! 0%nat) = 0)
  else
    (0%nat ∉ healthyNodes lb')
    ∧ nodes lb' !!! 0%nat = ResetSuccesses (nodes lb !!! 0%nat).
Proof.
  apply (pass_effect_of_a_probe syncedJSON
           [(1%nat, probeOK); (0%nat, probeDown)]
           (serveAll (primaryFails "" "") httpGet 3 (twoNodes 3))
           0%nat probeDown).
  - by_decide.
  - apply elem_of_cons. right. apply elem_of_cons. by left.
Defined.

(** ** The primary across a pass *)

Section PrimaryAcrossPass.
Variable json_Unmarshal : string → string + SyncingResponse.

Lemma findFirst_None_intro p l :
  (∀ x, x ∈ l → p x = false) → findFirst p l = None.
Proof.
  induction l as [|y l IH]; intros Hall; cbn; [done|].
  rewrite (Hall y) by left. apply IH. intros x Hx. apply Hall. by right.
Qed.

(** X11. While no healthy probe belongs to a node of original priority 0,
    a pass that probes every backup once leaves the current primary at
    priority 0, rebuilds the healthy set as that primary followed by the
    backups probed healthy, in the order in which their probes were
    delivered, and leaves every one of these backups at its original
    priority. *)
Theorem pass_keeps_primary_at_head (arrivals : list Arrival)
    (lb : LoadBalancer) (c : nat) :
  arrivals.*1 ≡ₚ backupNodes (nodes lb) →
  backupNodes (nodes lb) ≠ [] →
  findCurrentPrimary (nodes lb) = Some c →
  c ∈ healthyNodes lb →
  (∀ m, m ∈ newHealthyBackups json_Unmarshal arrivals →
        OriginalPriority (nodes lb !!! m) ≠ 0) →
  let lb' := performHealthCheck json_Unmarshal arrivals lb in
  healthyNodes lb' = c :: newHealthyBackups json_Unmarshal arrivals
  ∧ GetPriority (nodes lb' !!! c) = 0
  ∧ ∀ m, m ∈ newHealthyBackups json_Unmarshal arrivals →
         GetPriority (nodes lb' !!! m) = OriginalPriority (nodes lb !!! m).
Proof.
  intros Hperm Hne Hc Hch Horig lb'.
  destruct (newHealthyBackups_probed json_Unmarshal arrivals (nodes lb)
              Hperm) as [Hndh Hbackup].
  apply findCurrentPrimary_Some in Hc as Hc'. destruct Hc' as [Hclt Hcprim].
  subst lb'. unfold performHealthCheck.
  rewrite bool_decide_false
    by (intros Hz; by apply length_zero_iff_nil in Hz).
  cbn [nodes healthyNodes].
  set (nhb := newHealthyBackups json_Unmarshal arrivals) in *.
  set (ns := nodes lb) in *.
  set (ns1 := foldl (collectResult json_Unmarshal) ns arrivals).
  assert (Hlen1 : length ns1 = length ns) by apply collect_length.
  assert (Hprio1 : ∀ m, GetPriority (ns1 !!! m) = GetPriority (ns !!! m))
    by (intros; by apply (collect_field json_Unmarshal GetPriority)).
  assert (Horig1 : ∀ m, OriginalPriority (ns1 !!! m)
                        = OriginalPriority (ns !!! m))
    by (intros; by apply collect_field).
  assert (Hfb : failback (config lb) nhb ns1 = ns1).
  { unfold failback, findOriginalPrimary.
    rewrite (findFirst_None_intro _ nhb); [done|].
    intros x Hx. apply bool_decide_false. rewrite Horig1. by apply Horig. }
  rewrite Hfb.
  set (ns3 := restorePriorities nhb ns1).
  assert (Hlen3 : length ns3 = length ns)
    by (subst ns3; by rewrite restorePriorities_length).
  assert (Hcnhb : c ∉ nhb).
  { intros [_ Hcb]%Hbackup.
    rewrite (IsPrimary_not_IsBackup _ Hcprim) in Hcb. discriminate. }
  assert (Hprio3 : ∀ m, (m < length ns)%nat →
            GetPriority (ns3 !!! m)
            = if decide (m ∈ nhb) then OriginalPriority (ns !!! m)
              else GetPriority (ns !!! m)).
  { intros m Hm. subst ns3. rewrite restorePriorities_priority by lia.
    by rewrite Horig1, Hprio1. }
  assert (Hcp3 : findCurrentPrimary ns3 = Some c).
  { rewrite <- Hc. unfold findCurrentPrimary, nodeRefs. rewrite Hlen3.
    apply findFirst_ext. intros m Hm. apply elem_of_seq in Hm.
    unfold IsPrimary. rewrite Hprio3 by lia.
    destruct (decide (m ∈ nhb)) as [Hin|Hin]; [|done].
    rewrite bool_decide_false by (by apply Horig).
    destruct (Hbackup m Hin) as [_ Hb].
    apply bool_decide_eq_true in Hb. symmetry. apply bool_decide_false.
    lia. }
  rewrite Hcp3. cbn [promote primaryIfHealthy].
  replace (existsb _ (healthyNodes lb)) with true.
  2:{ symmetry. apply existsb_exists. exists c. split.
      - by apply list_elem_of_In.
      - by apply bool_decide_eq_true. }
  split_and!.
  - done.
  - rewrite Hprio3 by done. rewrite decide_False by done.
    by apply bool_decide_eq_true in Hcprim.
  - intros m Hm. rewrite Hprio3 by (by apply Hbackup).
    by rewrite decide_True.
Qed.

End PrimaryAcrossPass.

Lemma pass_keeps_primary_at_head_witness :
  let lb := threeNodes 3 in
  let arrivals := [(2%nat, probeOK); (1%nat, probeDown)] in
  let lb' := performHealthCheck syncedJSON arrivals lb in
  healthyNodes lb' = 0%nat :: newHealthyBackups syncedJSON arrivals
  ∧ GetPriority (nodes lb' !!! 0%nat) = 0
  ∧ ∀ m, m ∈ newHealthyBackups syncedJSON arrivals →
         GetPriority (nodes lb' !!! m) = OriginalPriority (nodes lb !!! m).
Proof.
  apply (pass_keeps_primary_at_head syncedJSON
           [(2%nat, probeOK); (1%nat, probeDown)] (threeNodes 3) 0%nat).
  - by_decide.
  - vm_compute. discriminate.
  - vm_compute. reflexivity.
  - by_decide.
  - intros m Hm. vm_compute in Hm.
    apply list_elem_of_singleton in Hm as ->. vm_compute. discriminate.
Defined.

(** ** Promotion *)

Section Promotion.
Variable json_Unmarshal : string → string + SyncingResponse.

(** The search keeps the lowest strictly positive priority seen so far,
    below [maxInt]. *)
Lemma lowestStep_min (ns : list BeaconNode) (l : list nat) :
  ∀ (acc : Z * option nat) (seen : list nat),
  acc.1 ≤ maxInt →
  (∀ x, x ∈ seen → 0 < GetPriority (ns !!! x) →
        acc.1 ≤ GetPriority (ns !!! x)) →
  (acc.2 = None → acc.1 = maxInt) →
  (∀ n, acc.2 = Some n →
        n ∈ seen ∧ GetPriority (ns !!! n) = acc.1
        ∧ 0 < GetPriority (ns !!! n) < maxInt) →
  match (foldl (lowestStep ns) acc l).2 with
  | Some n =>
    n ∈ seen ++ l ∧ 0 < GetPriority (ns !!! n) < maxInt
    ∧ ∀ x, x ∈ seen ++ l → 0 < GetPriority (ns !!! x) →
           GetPriority (ns !!! n) ≤ GetPriority (ns !!! x)
  | None =>
    ∀ x, x ∈ seen ++ l → ¬ 0 < GetPriority (ns !!! x) < maxInt
  end.
Proof.
  induction l as [|y l IH]; intros acc seen Hmax Hlow Hnone Hsome;
    cbn [foldl].
  - rewrite app_nil_r. destruct acc as [lowest [n|]]; cbn in *.
    + destruct (Hsome n eq_refl) as (Hin & Heq & Hpos).
      split; [done|]. split; [done|].
      intros x Hx Hxpos. rewrite Heq. by apply Hlow.
    + intros x Hx Hxpos. rewrite (Hnone eq_refl) in Hlow.
      specialize (Hlow x Hx). lia.
  - replace (seen ++ y :: l) with ((seen ++ [y]) ++ l)
      by (by rewrite <- app_assoc).
    apply IH; unfold lowestStep.
    + destruct (_ && _) eqn:Ht; cbn [fst]; [|done].
      apply andb_true_iff in Ht as [Ht _]. apply bool_decide_eq_true in Ht.
      lia.
    + intros x [Hx| ->%list_elem_of_singleton]%elem_of_app Hxpos.
      * destruct (_ && _) eqn:Ht; cbn [fst]; [|by apply Hlow].
        apply andb_true_iff in Ht as [Ht _]. apply bool_decide_eq_true in Ht.
        specialize (Hlow x Hx Hxpos). lia.
      * destruct (_ && _) eqn:Ht; cbn [fst]; [lia|].
        apply andb_false_iff in Ht as [Ht|Ht];
          apply bool_decide_eq_false in Ht; lia.
    + destruct (_ && _); cbn [fst snd]; [discriminate|done].
    + intros n. destruct (_ && _) eqn:Ht; cbn [fst snd].
      * intros [= <-]. apply andb_true_iff in Ht as [Ht1 Ht2].
        apply bool_decide_eq_true in Ht1, Ht2.
        split_and!; [apply elem_of_app; right; left|done|lia|lia].
      * intros Hn. destruct (Hsome n Hn) as (Hin & Heq & Hpos).
        split_and!; [apply elem_of_app; by left|done|lia|lia].
Qed.

Lemma lowestPriorityBackup_min (ns : list BeaconNode) (nhb : list nat) :
  match lowestPriorityBackup ns nhb with
  | Some n =>
    n ∈ nhb ∧ 0 < GetPriority (ns !!! n) < maxInt
    ∧ ∀ x, x ∈ nhb → 0 < GetPriority (ns !!! x) →
           GetPriority (ns !!! n) ≤ GetPriority (ns !!! x)
  | None => ∀ x, x ∈ nhb → ¬ 0 < GetPriority (ns !!! x) < maxInt
  end.
Proof.
  unfold lowestPriorityBackup.
  apply (lowestStep_min ns nhb (maxInt, None) []); cbn [fst snd].
  - done.
  - by intros x ?%not_elem_of_nil.
  - done.
  - discriminate.
Qed.

(** X12. When no node has priority 0 and a pass that probes every backup
    once finds at least one of them healthy, each with an original priority
    strictly between 0 and the largest int, the pass promotes exactly one of
    them: a node of the lowest original priority among the healthy ones. It
    ends at priority 0 with no consecutive errors, the other healthy backups
    end at their original priority, and the healthy set is the healthy
    backups in the order in which their probes were delivered, so the
    promoted node need not be at its head. *)
Theorem pass_promotes_lowest_backup (arrivals : list Arrival)
    (lb : LoadBalancer) :
  arrivals.*1 ≡ₚ backupNodes (nodes lb) →
  findCurrentPrimary (nodes lb) = None →
  newHealthyBackups json_Unmarshal arrivals ≠ [] →
  (∀ m, m ∈ newHealthyBackups json_Unmarshal arrivals →
        0 < OriginalPriority (nodes lb !!! m) < maxInt) →
  let lb' := performHealthCheck json_Unmarshal arrivals lb in
  healthyNodes lb' = newHealthyBackups json_Unmarshal arrivals
  ∧ ∃ n, (n ∈ newHealthyBackups json_Unmarshal arrivals)
    ∧ (∀ m, m ∈ newHealthyBackups json_Unmarshal arrivals →
            OriginalPriority (nodes lb !!! n)
            ≤ OriginalPriority (nodes lb !!! m))
    ∧ GetPriority (nodes lb' !!! n) = 0
    ∧ ConsecutiveErrors (nodes lb' !!! n) = 0
    ∧ ∀ m, m ∈ newHealthyBackups json_Unmarshal arrivals → m ≠ n →
           GetPriority (nodes lb' !!! m) = OriginalPriority (nodes lb !!! m).
Proof.
  intros Hperm Hc Hne Horig lb'.
  destruct (newHealthyBackups_probed json_Unmarshal arrivals (nodes lb)
              Hperm) as [Hndh Hbackup].
  subst lb'. unfold performHealthCheck.
  set (nhb := newHealthyBackups json_Unmarshal arrivals) in *.
  assert (Hbne : backupNodes (nodes lb) ≠ []).
  { destruct nhb as [|x l] eqn:Hnhb; [done|].
    intros Hnil. assert (Hx : x ∈ backupNodes (nodes lb)).
    { apply elem_of_backupNodes, Hbackup. left. }
    rewrite Hnil in Hx. by apply not_elem_of_nil in Hx. }
  rewrite bool_decide_false
    by (intros Hz; by apply length_zero_iff_nil in Hz).
  cbn [nodes healthyNodes].
  set (ns := nodes lb) in *.
  set (ns1 := foldl (collectResult json_Unmarshal) ns arrivals).
  assert (Hlen1 : length ns1 = length ns) by apply collect_length.
  assert (Hprio1 : ∀ m, GetPriority (ns1 !!! m) = GetPriority (ns !!! m))
    by (intros; by apply (collect_field json_Unmarshal GetPriority)).
  assert (Horig1 : ∀ m, OriginalPriority (ns1 !!! m)
                        = OriginalPriority (ns !!! m))
    by (intros; by apply collect_field).
  assert (Hfb : failback (config lb) nhb ns1 = ns1).
  { unfold failback.
    rewrite (findCurrentPrimary_ext ns1 ns Hlen1 Hprio1), Hc.
    by destruct (findOriginalPrimary ns1 nhb). }
  rewrite Hfb.
  set (ns3 := restorePriorities nhb ns1).
  assert (Hlen3 : length ns3 = length ns)
    by (subst ns3; by rewrite restorePriorities_length).
  assert (Horig3 : ∀ m, OriginalPriority (ns3 !!! m)
                        = OriginalPriority (ns !!! m)).
  { intros m. subst ns3. by rewrite restorePriorities_field. }
  assert (Hprio3 : ∀ m, (m < length ns)%nat →
            GetPriority (ns3 !!! m)
            = if decide (m ∈ nhb) then OriginalPriority (ns !!! m)
              else GetPriority (ns !!! m)).
  { intros m Hm. subst ns3. rewrite restorePriorities_priority by lia.
    by rewrite Horig1, Hprio1. }
  assert (Hprio3' : ∀ m, m ∈ nhb →
            GetPriority (ns3 !!! m) = OriginalPriority (ns !!! m)).
  { intros m Hm. rewrite Hprio3 by (by apply Hbackup).
    by rewrite decide_True. }
  assert (Hcp3 : findCurrentPrimary ns3 = None).
  { rewrite <- Hc. unfold findCurrentPrimary, nodeRefs. rewrite Hlen3.
    apply findFirst_ext. intros m Hm. apply elem_of_seq in Hm.
    unfold IsPrimary. rewrite Hprio3 by lia.
    destruct (decide (m ∈ nhb)) as [Hin|Hin]; [|done].
    specialize (Horig m Hin).
    rewrite bool_decide_false by lia.
    destruct (Hbackup m Hin) as [_ Hb].
    apply bool_decide_eq_true in Hb. symmetry. apply bool_decide_false.
    lia. }
  rewrite Hcp3. cbn [promote primaryIfHealthy app].
  split; [done|].
  rewrite bool_decide_true by (destruct nhb; [done|cbn; lia]).
  unfold findOriginalPrimary.
  rewrite (findFirst_None_intro _ nhb).
  2:{ intros x Hx. apply bool_decide_false. rewrite Horig3.
      specialize (Horig x Hx). lia. }
  pose proof (lowestPriorityBackup_min ns3 nhb) as Hmin.
  destruct (lowestPriorityBackup ns3 nhb) as [n|].
  - destruct Hmin as (Hin & Hpos & Hleast). exists n.
    destruct (Hbackup n Hin) as [Hnlt _].
    split_and!.
    + done.
    + intros m Hm. rewrite <- !Hprio3' by done. apply Hleast; [done|].
      rewrite Hprio3' by done. by apply Horig.
    + rewrite (onNode_field GetPriority) by done.
      by rewrite onNode_eq by lia.
    + by rewrite onNode_eq by (rewrite onNode_length; lia).
    + intros m Hm Hmn. rewrite !onNode_ne by done. by apply Hprio3'.
  - destruct nhb as [|x l] eqn:Hnhb; [done|]. exfalso.
    apply (Hmin x); [left|]. rewrite Hprio3' by left. apply Horig. left.
Qed.

End Promotion.

Lemma pass_promotes_lowest_backup_witness :
  let lb := serveAll (primaryFails "" "") httpGet 3 (threeNodes 3) in
  let arrivals := [(2%nat, probeOK); (0%nat, probeDown); (1%nat, probeOK)] in
  let lb' := performHealthCheck syncedJSON arrivals lb in
  healthyNodes lb' = newHealthyBackups syncedJSON arrivals
  ∧ ∃ n, (n ∈ newHealthyBackups syncedJSON arrivals)
    ∧ (∀ m, m ∈ newHealthyBackups syncedJSON arrivals →
            OriginalPriority (nodes lb !!! n)
            ≤ OriginalPriority (nodes lb !!! m))
    ∧ GetPriority (nodes lb' !!! n) = 0
    ∧ ConsecutiveErrors (nodes lb' !!! n) = 0
    ∧ ∀ m, m ∈ newHealthyBackups syncedJSON arrivals → m ≠ n →
           GetPriority (nodes lb' !!! m) = OriginalPriority (nodes lb !!! m).
Proof.
  apply (pass_promotes_lowest_backup syncedJSON
           [(2%nat, probeOK); (0%nat, probeDown); (1%nat, probeOK)]
           (serveAll (primaryFails "" "") httpGet 3 (threeNodes 3))).
  - by_decide.
  - vm_compute. reflexivity.
  - vm_compute. discriminate.
  - intros m Hm. vm_compute in Hm.
    apply elem_of_cons in Hm as [->|Hm];
      [|apply list_elem_of_singleton in Hm as ->]; vm_compute; done.
Defined.

(** ** Recovery of the original primary below the failback threshold *)

Section EarlyRecovery.
Variable json_Unmarshal : string → string + SyncingResponse.

(** X13. The restoration sweep does not wait for the failback threshold.
    When node 0 is the one node of original priority 0, is probed healthy
    in a pass that probes every backup once, and ends the pass with fewer
    consecutive successes than [successful_checks_for_failback], the pass
    still puts node 0 back at priority 0 and in the healthy set; the
    current primary [c] of the beginning of the pass is another node, keeps
    priority 0, is not in the rebuilt healthy set, and is not among the
    backup nodes that the next pass probes. *)
Theorem early_recovery_strands_interim_primary (arrivals : list Arrival)
    (lb : LoadBalancer) (c : nat) (resp : GetResult) :
  arrivals.*1 ≡ₚ backupNodes (nodes lb) →
  OriginalPriority (nodes lb !!! 0%nat) = 0 →
  (∀ m, (m < length (nodes lb))%nat →
        OriginalPriority (nodes lb !!! m) = 0 → m = 0%nat) →
  (0%nat, resp) ∈ arrivals →
  (HealthCheck json_Unmarshal resp).1 = true →
  findCurrentPrimary (nodes lb) = Some c →
  let lb' := performHealthCheck json_Unmarshal arrivals lb in
  ConsecutiveSuccesses (nodes lb' !!! 0%nat)
    < SuccessfulChecksForFailback (config lb) →
  GetPriority (nodes lb' !!! 0%nat) = 0
  ∧ (0%nat ∈ healthyNodes lb')
  ∧ c ≠ 0%nat
  ∧ GetPriority (nodes lb' !!! c) = 0
  ∧ (c ∉ healthyNodes lb')
  ∧ (c ∉ backupNodes (nodes lb')).
Proof.
  intros Hperm Ho Huniq Hin Hhealthy Hc lb'.
  destruct (newHealthyBackups_probed json_Unmarshal arrivals (nodes lb)
              Hperm) as [Hnd Hbackup].
  set (nhb := newHealthyBackups json_Unmarshal arrivals) in *.
  assert (Honhb : 0%nat ∈ nhb).
  { apply elem_of_newHealthyBackups. by exists resp. }
  destruct (Hbackup 0%nat Honhb) as [Holt Hobackup].
  apply findCurrentPrimary_Some in Hc as Hc'. destruct Hc' as [Hclt Hcprim].
  assert (Hco : c ≠ 0%nat).
  { intros ->. rewrite (IsPrimary_not_IsBackup _ Hcprim) in Hobackup.
    discriminate. }
  assert (Hcnhb : c ∉ nhb).
  { intros [_ Hcb]%Hbackup.
    rewrite (IsPrimary_not_IsBackup _ Hcprim) in Hcb. discriminate. }
  subst lb'. unfold performHealthCheck.
  rewrite bool_decide_false.
  2:{ intros Hz. apply length_zero_iff_nil in Hz.
      assert (Hob : 0%nat ∈ backupNodes (nodes lb))
        by (by apply elem_of_backupNodes).
      rewrite Hz in Hob. by apply not_elem_of_nil in Hob. }
  fold nhb. cbn [nodes healthyNodes].
  set (ns := nodes lb) in *.
  set (ns1 := foldl (collectResult json_Unmarshal) ns arrivals).
  assert (Hlen1 : length ns1 = length ns) by apply collect_length.
  assert (Horig1 : ∀ m, OriginalPriority (ns1 !!! m)
                        = OriginalPriority (ns !!! m))
    by (intros; by apply collect_field).
  assert (Hprio1 : ∀ m, GetPriority (ns1 !!! m) = GetPriority (ns !!! m))
    by (intros; by apply (collect_field json_Unmarshal GetPriority)).
  rewrite (promote_field ConsecutiveSuccesses) by done.
  rewrite (restorePriorities_field ConsecutiveSuccesses) by done.
  rewrite (failback_field ConsecutiveSuccesses) by done.
  fold ns1. intros Hsucc.
  assert (Hfo : findOriginalPrimary ns1 nhb = Some 0%nat).
  { apply findFirst_unique; [done|..].
    - apply bool_decide_eq_true. by rewrite Horig1.
    - intros y Hy Hy0%bool_decide_eq_true. rewrite Horig1 in Hy0.
      apply Huniq; [|done]. by apply Hbackup. }
  assert (Hfb : failback (config lb) nhb ns1 = ns1).
  { unfold failback. rewrite Hfo.
    destruct (findCurrentPrimary ns1); [|done].
    unfold GetConsecutiveSuccesses.
    rewrite (bool_decide_false (_ >= _)) by lia. done. }
  rewrite Hfb.
  set (ns3 := restorePriorities nhb ns1).
  assert (Hlen3 : length ns3 = length ns)
    by (subst ns3; by rewrite restorePriorities_length).
  assert (Hprio3 : ∀ m, (m < length ns)%nat →
            GetPriority (ns3 !!! m)
            = if decide (m ∈ nhb) then OriginalPriority (ns !!! m)
              else GetPriority (ns !!! m)).
  { intros m Hm. subst ns3. rewrite restorePriorities_priority by lia.
    by rewrite Horig1, Hprio1. }
  assert (Hp0 : GetPriority (ns3 !!! 0%nat) = 0).
  { rewrite Hprio3 by done. by rewrite decide_True. }
  assert (Hpc : GetPriority (ns3 !!! c) = 0).
  { rewrite Hprio3 by done. rewrite decide_False by done.
    by apply bool_decide_eq_true in Hcprim. }
  rewrite (findCurrentPrimary_head ns3);
    [|lia|by apply bool_decide_eq_true].
  cbn [promote primaryIfHealthy].
  split_and!; [done| |done|done| |].
  - apply elem_of_app. by right.
  - intros [Hh|Hh]%elem_of_app; [|done].
    destruct (existsb _ _); [|by apply not_elem_of_nil in Hh].
    by apply list_elem_of_singleton in Hh.
  - intros [_ Hb]%elem_of_backupNodes.
    unfold IsBackup in Hb. rewrite Hpc in Hb. done.
Qed.

End EarlyRecovery.

Lemma early_recovery_strands_interim_primary_witness :
  let lb :=
    performHealthCheck syncedJSON [(0%nat, probeDown); (1%nat, probeOK)]
      (serveAll (primaryFails "" "") httpGet 3 (twoNodes 3)) in
  let lb' := performHealthCheck syncedJSON [(0%nat, probeOK)] lb in
  GetPriority (nodes lb' !!! 0%nat) = 0
  ∧ (0%nat ∈ healthyNodes lb')
  ∧ 1%nat ≠ 0%nat
  ∧ GetPriority (nodes lb' !!! 1%nat) = 0
  ∧ (1%nat ∉ healthyNodes lb')
  ∧ (1%nat ∉ backupNodes (nodes lb')).
Proof.
  apply (early_recovery_strands_interim_primary syncedJSON
           [(0%nat, probeOK)]
           (performHealthCheck syncedJSON
              [(0%nat, probeDown); (1%nat, probeOK)]
              (serveAll (primaryFails "" "") httpGet 3 (twoNodes 3)))
           1%nat probeOK).
  - by_decide.
  - vm_compute. reflexivity.
  - intros m Hm H0. destruct m as [|[|m]].
    + reflexivity.
    + vm_compute in H0. discriminate.
    + vm_compute in Hm. lia.
  - apply elem_of_cons. by left.
  - vm_compute. reflexivity.
  - vm_compute. reflexivity.
  - vm_compute. reflexivity.
Defined.

(** ** No node twice in the healthy set *)

Section HealthyOnce.
Variable url_Parse_ok : string → bool.
Variable json_Unmarshal : string → string + SyncingResponse.
Variable IsValidBeaconEndpoint : string → bool.

Lemma started_NoDup cfg lb :
  started url_Parse_ok json_Unmarshal cfg lb → NoDup (healthyNodes lb).
Proof.
  intros [lb0 arrivals lb' Hnew Hperm Hstart].
  unfold StartupHealthCheck in Hstart. injection Hstart as <- _.
  cbn [healthyNodes]. unfold sort_Slice. rewrite merge_sort_Permutation.
  eapply sublist_NoDup; [|apply fmap_sublist, sublist_filter].
  rewrite Hperm. apply NoDup_seq.
Qed.

Lemma performHealthCheck_NoDup arrivals lb :
  arrivals.*1 ≡ₚ backupNodes (nodes lb) →
  wellFormed lb → NoDup (healthyNodes lb) →
  NoDup (healthyNodes (performHealthCheck json_Unmarshal arrivals lb)).
Proof.
  intros Hperm [Hn Ho Hv Hh _] Hnd. unfold performHealthCheck.
  case_bool_decide; [done|]. cbn [healthyNodes].
  destruct (newHealthyBackups_probed json_Unmarshal arrivals (nodes lb)
              Hperm) as [Hndh Hbackup].
  set (nhb := newHealthyBackups json_Unmarshal arrivals) in *.
  set (ns := nodes lb) in *.
  set (ns2 := failback (config lb) nhb
                (foldl (collectResult json_Unmarshal) ns arrivals)).
  set (ns3 := restorePriorities nhb ns2).
  assert (Hlen2 : length ns2 = length ns)
    by (subst ns2; by rewrite failback_length, collect_length).
  assert (Hlen3 : length ns3 = length ns)
    by (subst ns3; by rewrite restorePriorities_length).
  assert (Hname3 : ∀ m, Name (ns3 !!! m) = Name (ns !!! m)).
  { intros m. subst ns3 ns2.
    by rewrite restorePriorities_field, failback_field, collect_field. }
  assert (Horig2 : ∀ m, OriginalPriority (ns2 !!! m)
                        = OriginalPriority (ns !!! m)).
  { intros m. subst ns2. by rewrite failback_field, collect_field. }
  apply NoDup_app. split_and!; [|..|done].
  - unfold primaryIfHealthy. destruct (findCurrentPrimary ns3) as [c|];
      [|apply NoDup_nil_2].
    destruct (existsb _ _); [apply NoDup_singleton|apply NoDup_nil_2].
  - intros x Hx Hxb. unfold primaryIfHealthy in Hx.
    destruct (findCurrentPrimary ns3) as [c|] eqn:Hc;
      [|by apply not_elem_of_nil in Hx].
    destruct (existsb _ _) eqn:Hex; [|by apply not_elem_of_nil in Hx].
    apply list_elem_of_singleton in Hx as ->.
    apply findCurrentPrimary_Some in Hc as [Hclt Hcprim].
    apply bool_decide_eq_true in Hcprim.
    destruct (Hbackup c Hxb) as [Hclt' Hcb].
    apply existsb_exists in Hex as (h & Hhin & Hhn).
    apply list_elem_of_In in Hhin. apply bool_decide_eq_true in Hhn.
    rewrite !Hname3 in Hhn.
    assert (h = c) as -> by (apply (Name_inj ns); [done|by apply Hv|done..]).
    assert (Hc0 : OriginalPriority (ns !!! c) = 0).
    { rewrite <- Horig2. subst ns3.
      rewrite restorePriorities_priority in Hcprim by lia.
      by rewrite decide_True in Hcprim. }
    specialize (Hh c Hhin Hc0).
    unfold IsBackup in Hcb. rewrite Hh in Hcb. done.
Qed.

(** X14. With unique backend names, in every state reached from a
    successful startup health check by client requests and periodic
    scheduler passes, no backend is in the healthy set twice. *)
Theorem healthy_set_has_no_duplicates (cfg : Config) (lb : LoadBalancer) :
  NoDup (cfgName <$> GetAllNodes cfg) →
  reachable url_Parse_ok json_Unmarshal IsValidBeaconEndpoint cfg lb →
  NoDup (healthyNodes lb).
Proof.
  intros Hcfg Hreach.
  induction Hreach as [lb Hs|lb lb' Hreach IH Hstep].
  - by apply (started_NoDup cfg).
  - pose proof (reachable_wellFormed url_Parse_ok json_Unmarshal
                  IsValidBeaconEndpoint cfg lb Hcfg Hreach) as Hwf.
    destruct Hstep as [env r st|arrivals st Hperm].
    + destruct (requestEffect_ServeHTTP IsValidBeaconEndpoint env r st)
        as (_ & _ & Hsub & _).
      by eapply sublist_NoDup.
    + by apply performHealthCheck_NoDup.
Qed.

End HealthyOnce.

Lemma healthy_set_has_no_duplicates_witness :
  NoDup (healthyNodes (serveAll (primaryFails "" "") httpGet 3 (twoNodes 3))).
Proof.
  apply (healthy_set_has_no_duplicates anyURL syncedJSON anyPath
           (configOf 3 [nodeP; nodeB])).
  - by_decide.
  - apply serveAll_reachable, twoNodes_reachable.
Defined.

(** ** What the counters count *)

Section CounterMeaning.

Lemma callsOf_cons op o ops :
  callsOf op (o :: ops) = (if decide (o = op) then 1 else 0) + callsOf op ops.
Proof.
  unfold callsOf. rewrite filter_cons.
  destruct (decide (o = op)); cbn [length]; lia.
Qed.

Lemma runOps_cons op ops bn :
  runOps (op :: ops) bn = runOps ops (applyOp op bn).
Proof. reflexivity. Qed.

Lemma runOps_app ops1 ops2 bn :
  runOps (ops1 ++ ops2) bn = runOps ops2 (runOps ops1 bn).
Proof. apply foldl_app. Qed.

Lemma TotalFailures_runOps ops : ∀ bn,
  0 ≤ TotalFailures bn →
  TotalFailures bn + Z.of_nat (length ops) < 2 ^ 63 →
  TotalFailures (runOps ops bn)
  = TotalFailures bn + callsOf OpIncrementError ops.
Proof.
  induction ops as [|op ops IH]; intros bn H0 Hlen.
  - unfold callsOf. cbn. lia.
  - cbn [length] in Hlen. rewrite Nat2Z.inj_succ in Hlen.
    rewrite runOps_cons, callsOf_cons.
    assert (Hstep : TotalFailures (applyOp op bn)
                    = TotalFailures bn
                      + (if decide (op = OpIncrementError) then 1 else 0)).
    { destruct op; cbn; rewrite ?wrap64_small by lia;
        destruct (decide _); try done; lia. }
    rewrite IH; rewrite Hstep; destruct (decide _); lia.
Qed.

Lemma Requests_runOps ops : ∀ bn, Requests (runOps ops bn) = Requests bn.
Proof.
  induction ops as [|op ops IH]; intros bn; [done|].
  rewrite runOps_cons, IH. by destruct op.
Qed.

Lemma ConsecutiveErrors_runOps ops : ∀ bn,
  OpResetErrors ∉ ops →
  0 ≤ ConsecutiveErrors bn →
  ConsecutiveErrors bn + Z.of_nat (length ops) < 2 ^ 63 →
  ConsecutiveErrors (runOps ops bn)
  = ConsecutiveErrors bn + callsOf OpIncrementError ops.
Proof.
  induction ops as [|op ops IH]; intros bn Hno H0 Hlen.
  - unfold callsOf. cbn. lia.
  - cbn [length] in Hlen. rewrite Nat2Z.inj_succ in Hlen.
    apply not_elem_of_cons in Hno as [Hop Hno].
    rewrite runOps_cons, callsOf_cons.
    assert (Hstep : ConsecutiveErrors (applyOp op bn)
                    = ConsecutiveErrors bn
                      + (if decide (op = OpIncrementError) then 1 else 0)).
    { destruct op; cbn; rewrite ?wrap64_small by lia;
        destruct (decide _); try done; lia. }
    rewrite IH; [|done|..]; rewrite Hstep; destruct (decide _); lia.
Qed.

Lemma ConsecutiveSuccesses_runOps ops : ∀ bn,
  OpIncrementError ∉ ops → OpResetSuccesses ∉ ops →
  0 ≤ ConsecutiveSuccesses bn →
  ConsecutiveSuccesses bn + Z.of_nat (length ops) < 2 ^ 63 →
  ConsecutiveSuccesses (runOps ops bn)
  = ConsecutiveSuccesses bn + callsOf OpIncrementSuccess ops.
Proof.
  induction ops as [|op ops IH]; intros bn Hno1 Hno2 H0 Hlen.
  - unfold callsOf. cbn. lia.
  - cbn [length] in Hlen. rewrite Nat2Z.inj_succ in Hlen.
    apply not_elem_of_cons in Hno1 as [Hop1 Hno1].
    apply not_elem_of_cons in Hno2 as [Hop2 Hno2].
    rewrite runOps_cons, callsOf_cons.
    assert (Hstep : ConsecutiveSuccesses (applyOp op bn)
                    = ConsecutiveSuccesses bn
                      + (if decide (op = OpIncrementSuccess) then 1 else 0)).
    { destruct op; cbn; rewrite ?wrap64_small by lia;
        destruct (decide _); try done; lia. }
    rewrite IH; [|done|done|..]; rewrite Hstep; destruct (decide _); lia.
Qed.

(** X15. What the counters of a backend count, over any sequence of fewer
    than [2 ^ 63] IncrementError / IncrementSuccess / ResetErrors /
    ResetSuccesses calls on a freshly constructed backend:
    [total_failures] is the number of IncrementError calls;
    [consecutive_errors] is the number of IncrementError calls since the
    last ResetErrors (or since construction), whatever successes were
    recorded in between; [consecutive_successes] is the number of
    IncrementSuccess calls since the last IncrementError or ResetSuccesses
    (or since construction); the request counter is not touched. *)
Theorem counters_count_calls (url_Parse_ok : string → bool)
    (nc : NodeConfig) (bn0 : BeaconNode) (ops : list CounterOp) :
  NewBeaconNode url_Parse_ok nc = Some bn0 →
  Z.of_nat (length ops) < 2 ^ 63 →
  let bn := runOps ops bn0 in
  TotalFailures bn = callsOf OpIncrementError ops
  ∧ Requests bn = 0
  ∧ (∀ pre post,
       ops = pre ++ post →
       pre = [] ∨ last pre = Some OpResetErrors →
       OpResetErrors ∉ post →
       ConsecutiveErrors bn = callsOf OpIncrementError post)
  ∧ (∀ pre post,
       ops = pre ++ post →
       pre = [] ∨ last pre = Some OpIncrementError
       ∨ last pre = Some OpResetSuccesses →
       OpIncrementError ∉ post → OpResetSuccesses ∉ post →
       ConsecutiveSuccesses bn = callsOf OpIncrementSuccess post).
Proof.
  intros Hnew Hlen bn.
  unfold NewBeaconNode in Hnew.
  destruct (url_Parse_ok (cfgURL nc)); [|discriminate].
  injection Hnew as <-. subst bn. split_and!.
  - rewrite TotalFailures_runOps; cbn [TotalFailures]; lia.
  - by rewrite Requests_runOps.
  - intros pre post -> Hpre Hpost.
    rewrite length_app, Nat2Z.inj_add in Hlen. rewrite runOps_app.
    assert (H0 : ConsecutiveErrors (runOps pre
                   {| Name := cfgName nc; URL := cfgURL nc;
                      ConsecutiveErrors := 0; ConsecutiveSuccesses := 0;
                      TotalFailures := 0; Requests := 0;
                      Priority := 0; OriginalPriority := 0 |}) = 0).
    { destruct Hpre as [->|Hlast]; [done|].
      apply last_Some in Hlast as [pre' ->]. by rewrite runOps_app. }
    rewrite ConsecutiveErrors_runOps; [|done|..]; rewrite H0; lia.
  - intros pre post -> Hpre Hpost1 Hpost2.
    rewrite length_app, Nat2Z.inj_add in Hlen. rewrite runOps_app.
    assert (H0 : ConsecutiveSuccesses (runOps pre
                   {| Name := cfgName nc; URL := cfgURL nc;
                      ConsecutiveErrors := 0; ConsecutiveSuccesses := 0;
                      TotalFailures := 0; Requests := 0;
                      Priority := 0; OriginalPriority := 0 |}) = 0).
    { destruct Hpre as [->|[Hlast|Hlast]]; [done|..];
        apply last_Some in Hlast as [pre' ->]; by rewrite runOps_app. }
    rewrite ConsecutiveSuccesses_runOps; [|done|done|..]; rewrite H0; lia.
Qed.

End CounterMeaning.

Lemma counters_count_calls_witness :
  let bn0 := mkBeaconNode "p" "http://p" 0 0 0 0 0 0 in
  let ops := [OpIncrementError; OpIncrementSuccess; OpIncrementError;
              OpResetErrors; OpIncrementError; OpIncrementSuccess] in
  let bn := runOps ops bn0 in
  TotalFailures bn = callsOf OpIncrementError ops
  ∧ Requests bn = 0
  ∧ (∀ pre post,
       ops = pre ++ post →
       pre = [] ∨ last pre = Some OpResetErrors →
       OpResetErrors ∉ post →
       ConsecutiveErrors bn = callsOf OpIncrementError post)
  ∧ (∀ pre post,
       ops = pre ++ post →
       pre = [] ∨ last pre = Some OpIncrementError
       ∨ last pre = Some OpResetSuccesses →
       OpIncrementError ∉ post → OpResetSuccesses ∉ post →
       ConsecutiveSuccesses bn = callsOf OpIncrementSuccess post).
Proof.
  apply (counters_count_calls (λ _, true) (mkNodeConfig "p" "http://p" "")
           (mkBeaconNode "p" "http://p" 0 0 0 0 0 0)
           [OpIncrementError; OpIncrementSuccess; OpIncrementError;
            OpResetErrors; OpIncrementError; OpIncrementSuccess]).
  - reflexivity.
  - vm_compute. reflexivity.
Defined.

(** ** Construction of the load balancer *)

Section NewProperties.
Variable url_Parse_ok : string → bool.

Lemma newNodes_elem_of allNodes : ∀ i bn,
  bn ∈ newNodes url_Parse_ok i allNodes
  ↔ ∃ k nc, allNodes !! k = Some nc
            ∧ url_Parse_ok (cfgURL nc) = true
            ∧ bn = mkBeaconNode (cfgName nc) (cfgURL nc) 0 0 0 0
                                (i + Z.of_nat k) (i + Z.of_nat k).
Proof.
  induction allNodes as [|nc0 rest IH]; intros i bn; cbn [newNodes].
  - split; [by intros ?%not_elem_of_nil|]. by intros (k & nc & ? & _).
  - unfold NewBeaconNode.
    destruct (url_Parse_ok (cfgURL nc0)) eqn:Hok.
    + rewrite elem_of_cons, IH. split.
      * intros [->|(k & nc & Hk & Hnc & ->)].
        -- exists 0%nat, nc0. split_and!; [done|done|].
           cbn. by rewrite Z.add_0_r.
        -- exists (S k), nc. split_and!; [done|done|].
           f_equal; lia.
      * intros ([|k] & nc & Hk & Hnc & ->).
        -- left. injection Hk as ->. cbn. by rewrite Z.add_0_r.
        -- right. exists k, nc. split_and!; [done|done|]. f_equal; lia.
    + rewrite IH. split.
      * intros (k & nc & Hk & Hnc & ->). exists (S k), nc.
        split_and!; [done|done|]. f_equal; lia.
      * intros ([|k] & nc & Hk & Hnc & ->).
        -- injection Hk as ->. congruence.
        -- exists k, nc. split_and!; [done|done|]. f_equal; lia.
Qed.

Lemma newNodes_increasing allNodes : ∀ i m m' bn bn',
  newNodes url_Parse_ok i allNodes !! m = Some bn →
  newNodes url_Parse_ok i allNodes !! m' = Some bn' →
  (m < m')%nat → GetPriority bn < GetPriority bn'.
Proof.
  induction allNodes as [|nc0 rest IH]; intros i m m' bn bn';
    cbn [newNodes]; [done|].
  destruct (NewBeaconNode url_Parse_ok nc0) as [node|]; [|apply IH].
  destruct m' as [|m']; [lia|]. destruct m as [|m]; cbn.
  - intros [= <-] Hm' _.
    destruct (newNodes_priorities url_Parse_ok rest (i + 1) m' bn' Hm').
    cbn. lia.
  - intros Hm Hm' Hlt. apply (IH (i + 1) m m'); [done|done|lia].
Qed.

(** X16. When [New] returns a load balancer, its configuration is the one
    given, its healthy set is empty, and its nodes are exactly the
    configured backends whose URL parses, each with priority and original
    priority equal to its index in the configuration (a backend that is
    skipped keeps its index), and all counters at 0; the nodes are in
    strictly increasing order of priority. So at least one URL of the
    configuration parses, and a node of priority 0 exists exactly when the
    URL of the first configured backend parses. *)
Theorem New_numbers_nodes_by_config_index (cfg : Config)
    (lb : LoadBalancer) :
  New url_Parse_ok cfg = Some lb →
  config lb = cfg
  ∧ healthyNodes lb = []
  ∧ nodes lb ≠ []
  ∧ (∀ bn, bn ∈ nodes lb
           ↔ ∃ k nc, GetAllNodes cfg !! k = Some nc
                     ∧ url_Parse_ok (cfgURL nc) = true
                     ∧ bn = mkBeaconNode (cfgName nc) (cfgURL nc) 0 0 0 0
                                         (Z.of_nat k) (Z.of_nat k))
  ∧ (∀ m m' bn bn',
       nodes lb !! m = Some bn → nodes lb !! m' = Some bn' →
       (m < m')%nat → GetPriority bn < GetPriority bn')
  ∧ ((∃ bn, bn ∈ nodes lb ∧ IsPrimary bn = true)
     ↔ ∃ nc, head (GetAllNodes cfg) = Some nc
             ∧ url_Parse_ok (cfgURL nc) = true).
Proof.
  unfold New. case_bool_decide as Hl1; [discriminate|].
  case_bool_decide as Hl2; [discriminate|]. intros [= <-].
  cbn [config healthyNodes nodes].
  assert (Helem : ∀ bn, bn ∈ newNodes url_Parse_ok 0 (GetAllNodes cfg)
           ↔ ∃ k nc, GetAllNodes cfg !! k = Some nc
                     ∧ url_Parse_ok (cfgURL nc) = true
                     ∧ bn = mkBeaconNode (cfgName nc) (cfgURL nc) 0 0 0 0
                                         (Z.of_nat k) (Z.of_nat k)).
  { intros bn. rewrite newNodes_elem_of.
    split; intros (k & nc & Hk & Hnc & ->); exists k, nc;
      (split_and!; [done|done|f_equal; lia]). }
  split_and!; [done|done| |exact Helem|apply newNodes_increasing|].
  - intros Hnil. by rewrite Hnil in Hl2.
  - split.
    + intros (bn & [k [nc (Hk & Hnc & ->)]]%Helem & Hp).
      apply bool_decide_eq_true in Hp. cbn in Hp.
      assert (k = 0%nat) as -> by lia.
      exists nc. split; [|done]. by rewrite head_lookup.
    + intros (nc & Hhead & Hnc). rewrite head_lookup in Hhead.
      exists (mkBeaconNode (cfgName nc) (cfgURL nc) 0 0 0 0 0 0). split.
      * apply Helem. by exists 0%nat, nc.
      * reflexivity.
Qed.

End NewProperties.

Lemma New_numbers_nodes_by_config_index_witness :
  let ok := λ url : string, bool_decide (url ≠ "://p:5052") in
  let cfg :=
    configOf 3 [mkNodeConfig "p" "://p:5052" "lighthouse"; nodeB; nodeC] in
  let lb := {| nodes := [mkBeaconNode "b" "http://b:5052" 0 0 0 0 1 1;
                         mkBeaconNode "c" "http://c:5052" 0 0 0 0 2 2];
               config := cfg; healthyNodes := [] |} in
  New ok cfg = Some lb
  ∧ config lb = cfg
  ∧ healthyNodes lb = []
  ∧ nodes lb ≠ []
  ∧ (∀ bn, bn ∈ nodes lb
           ↔ ∃ k nc, GetAllNodes cfg !! k = Some nc
                     ∧ ok (cfgURL nc) = true
                     ∧ bn = mkBeaconNode (cfgName nc) (cfgURL nc) 0 0 0 0
                                         (Z.of_nat k) (Z.of_nat k))
  ∧ (∀ m m' bn bn',
       nodes lb !! m = Some bn → nodes lb !! m' = Some bn' →
       (m < m')%nat → GetPriority bn < GetPriority bn')
  ∧ ((∃ bn, bn ∈ nodes lb ∧ IsPrimary bn = true)
     ↔ ∃ nc, head (GetAllNodes cfg) = Some nc ∧ ok (cfgURL nc) = true).
Proof.
  intros ok cfg lb.
  assert (Hnew : New ok cfg = Some lb) by (vm_compute; reflexivity).
  split; [exact Hnew|].
  apply (New_numbers_nodes_by_config_index ok cfg lb Hnew).
Defined.

(** ** The rate limiter *)

Section SlidingWindow.
Import ratelimit.

Lemma remembered_Allow now ip ip' rl :
  remembered ip' (Allow now ip rl).1
  = if decide (ip' = ip)
    then filter (λ t, now - window rl < t) (remembered ip rl)
         ++ (if (Allow now ip rl).2 then [now] else [])
    else remembered ip' rl.
Proof.
  unfold remembered, Allow.
  destruct (decide (ip' = ip)) as [->|Hne].
  - destruct (clients rl !! ip) as [b|]; cbn [requests];
      case_bool_decide; cbn [fst snd clients withClients];
      rewrite lookup_insert_eq; cbn [requests]; by rewrite ?app_nil_r.
  - case_bool_decide; cbn [fst clients withClients];
      by rewrite lookup_insert_ne.
Qed.

Lemma Allow_verdict now ip rl :
  (Allow now ip rl).2
  = bool_decide (Z.of_nat (length (filter (λ t, now - window rl < t)
                                          (remembered ip rl))) < rps rl).
Proof.
  unfold remembered, Allow.
  destruct (clients rl !! ip) as [b|]; cbn [requests];
    case_bool_decide; cbn [snd]; symmetry;
    [apply bool_decide_false|apply bool_decide_true
    |apply bool_decide_false|apply bool_decide_true]; lia.
Qed.

Lemma Allow_settings now ip rl :
  rps (Allow now ip rl).1 = rps rl ∧ window (Allow now ip rl).1 = window rl.
Proof. unfold Allow. by case_bool_decide. Qed.

Lemma admittedAt_snoc ip log t ip' ok :
  admittedAt ip (log ++ [(t, ip', ok)])
  = admittedAt ip log
    ++ (if decide (ip' = ip) then if ok then [t] else [] else []).
Proof.
  unfold admittedAt. rewrite filter_app, !fmap_app. f_equal.
  rewrite filter_cons, filter_nil. cbn [fst snd].
  destruct (decide (ip' = ip)) as [->|Hne], ok; case_decide as Hd;
    try done; by destruct Hd.
Qed.

Lemma filter_filter_above (c c' : Z) (l : list Z) :
  c' ≤ c →
  filter (λ t, c < t) (filter (λ t, c' < t) l) = filter (λ t, c < t) l.
Proof.
  intros Hc. induction l as [|x l IH]; [done|].
  rewrite (filter_cons (λ t, c' < t)).
  destruct (decide (c' < x)) as [Hx|Hx].
  - rewrite !filter_cons. destruct (decide (c < x)); by rewrite IH.
  - rewrite IH, filter_cons. rewrite decide_False by lia. done.
Qed.

(** Along a run with a clock that never goes back, what the limiter
    remembers of a client agrees with the admitted calls of that client on
    every window that ends at or after the last call. *)
Lemma allowAll_remembers (requestsPerSecond w : Z) (calls : list (Z * string)) :
  StronglySorted Z.le calls.*1 →
  let st := allowAll calls (New requestsPerSecond w) in
  rps st.1 = requestsPerSecond ∧ window st.1 = w
  ∧ ∀ ip c, (∀ t, t ∈ calls.*1 → t - w ≤ c) →
            filter (λ t, c < t) (remembered ip st.1)
            = filter (λ t, c < t) (admittedAt ip st.2).
Proof.
  induction calls as [|[now ip0] calls IH] using rev_ind; intros Hsorted.
  - cbn. split_and!; [done|done|]. intros ip c _.
    unfold remembered. cbn. by rewrite lookup_empty.
  - rewrite fmap_app in Hsorted.
    apply StronglySorted_app_1_l in Hsorted as Hs1.
    destruct (IH Hs1) as (Hrps & Hw & Hinv). clear IH.
    unfold allowAll. rewrite foldl_app. cbn [foldl].
    fold (allowAll calls (New requestsPerSecond w)).
    set (st := allowAll calls (New requestsPerSecond w)) in *.
    unfold allowStep. cbn [fst snd].
    destruct (Allow_settings now ip0 st.1) as [Hrps' Hw'].
    split_and!; [congruence|congruence|].
    intros ip c Hc.
    assert (Hnow : now - w ≤ c).
    { apply Hc. rewrite fmap_app. apply elem_of_app. right. cbn. left. }
    assert (Hold : ∀ t, t ∈ calls.*1 → t - w ≤ c).
    { intros t Ht. apply Hc. rewrite fmap_app. apply elem_of_app. by left. }
    rewrite remembered_Allow, admittedAt_snoc.
    destruct (decide (ip = ip0)) as [->|Hne].
    + rewrite decide_True by done. rewrite !filter_app.
      rewrite filter_filter_above by lia. by rewrite Hinv.
    + rewrite decide_False by done. rewrite app_nil_r. by apply Hinv.
Qed.

(** X17. The limiter is a sliding window per client key. Along any run of
    [Allow] calls from a fresh limiter in which the clock never goes back,
    the next call of a client is admitted exactly when fewer than [rps]
    admitted calls of that same client lie less than [window] before it;
    refused calls and the calls of other clients do not count. So with a
    positive window an admitted call is at most the [rps]-th admitted call
    of its client in the window that ends with it. *)
Theorem limiter_is_a_sliding_window (requestsPerSecond w : Z)
    (calls : list (Z * string)) (now : Z) (ip : string) :
  StronglySorted Z.le (calls.*1 ++ [now]) →
  let st := allowAll calls (ratelimit.New requestsPerSecond w) in
  let recent := filter (λ t, now - w < t) (admittedAt ip st.2) in
  (Allow now ip st.1).2 = bool_decide (Z.of_nat (length recent) < requestsPerSecond)
  ∧ (0 < w → (Allow now ip st.1).2 = true →
       Z.of_nat (length (filter (λ t, now - w < t)
                                (admittedAt ip (allowStep st (now, ip)).2)))
       ≤ requestsPerSecond).
Proof.
  intros Hsorted st recent.
  apply StronglySorted_app_1_l in Hsorted as Hs1.
  destruct (allowAll_remembers requestsPerSecond w calls Hs1)
    as (Hrps & Hw & Hinv).
  fold st in Hrps, Hw, Hinv.
  assert (Hle : ∀ t, t ∈ calls.*1 → t - w ≤ now - w).
  { intros t Ht.
    assert (t ≤ now); [|lia].
    eapply (StronglySorted_app_1_elem_of Z.le); [exact Hsorted|exact Ht|left]. }
  assert (Hverdict : (Allow now ip st.1).2
            = bool_decide (Z.of_nat (length recent) < requestsPerSecond)).
  { rewrite Allow_verdict, Hrps, Hw. subst recent. by rewrite Hinv. }
  split; [exact Hverdict|].
  intros Hpos Hadm. unfold allowStep. cbn [fst snd].
  rewrite admittedAt_snoc, decide_True by done. rewrite Hadm.
  rewrite filter_app, length_app. fold recent.
  rewrite Hverdict in Hadm. apply bool_decide_eq_true in Hadm.
  rewrite filter_cons, filter_nil. rewrite decide_True by lia.
  cbn [length]. lia.
Qed.

End SlidingWindow.

Lemma limiter_is_a_sliding_window_witness :
  let calls := [(0, "10.0.0.1"); (1, "10.0.0.2"); (2, "10.0.0.1");
                (3, "10.0.0.1")]%string in
  let st := allowAll calls (ratelimit.New 2 10) in
  let recent :=
    filter (λ t, 11 - 10 < t) (admittedAt "10.0.0.1" st.2) in
  (ratelimit.Allow 11 "10.0.0.1" st.1).2
  = bool_decide (Z.of_nat (length recent) < 2)
  ∧ (0 < 10 → (ratelimit.Allow 11 "10.0.0.1" st.1).2 = true →
       Z.of_nat (length (filter (λ t, 11 - 10 < t)
                   (admittedAt "10.0.0.1"
                      (allowStep st (11, "10.0.0.1"%string)).2)))
       ≤ 2).
Proof.
  apply (limiter_is_a_sliding_window 2 10
           [(0, "10.0.0.1"); (1, "10.0.0.2"); (2, "10.0.0.1");
            (3, "10.0.0.1")]%string 11 "10.0.0.1").
  by_decide.
Defined.

(** ** Cleanup of the rate limiter *)

Section Cleanup.
Import ratelimit.

Lemma lookup_Allow now ip rl :
  clients (Allow now ip rl).1 !! ip
  = Some {| requests :=
              filter (λ t, now - window rl < t) (remembered ip rl)
              ++ (if (Allow now ip rl).2 then [now] else []);
            lastSeen := now |}.
Proof.
  unfold remembered, Allow.
  destruct (clients rl !! ip) as [b|]; cbn [requests];
    case_bool_decide; cbn [fst snd clients withClients];
    rewrite lookup_insert_eq; by rewrite ?app_nil_r.
Qed.

Lemma filter_above_nil (c : Z) (l : list Z) :
  (∀ t, t ∈ l → t ≤ c) → filter (λ t, c < t) l = [].
Proof.
  induction l as [|x l IH]; intros Hall; [done|].
  rewrite filter_cons, decide_False.
  - apply IH. intros t Ht. apply Hall. by right.
  - assert (x ≤ c) by (apply Hall; left). lia.
Qed.

(** [Allow] keeps every bucket stamped no earlier than its requests, as
    long as the clock does not go back behind a stamp. *)
Lemma Allow_stamped now ip rl :
  (∀ k b, clients rl !! k = Some b →
          lastSeen b ≤ now ∧ ∀ t, t ∈ requests b → t ≤ lastSeen b) →
  ∀ k b, clients (Allow now ip rl).1 !! k = Some b →
         lastSeen b ≤ now ∧ ∀ t, t ∈ requests b → t ≤ lastSeen b.
Proof.
  intros Hinv k b. destruct (decide (k = ip)) as [->|Hne].
  - rewrite lookup_Allow. intros [= <-]. cbn [requests lastSeen].
    split; [lia|]. intros t [Ht|Ht]%elem_of_app.
    + apply list_elem_of_filter in Ht as [_ Ht]. unfold remembered in Ht.
      destruct (clients rl !! ip) as [b0|] eqn:Hb0;
        [|by apply not_elem_of_nil in Ht].
      destruct (Hinv ip b0 Hb0) as [Hseen Hreq]. specialize (Hreq t Ht). lia.
    + destruct (Allow now ip rl).2; [|by apply not_elem_of_nil in Ht].
      apply list_elem_of_singleton in Ht as ->. lia.
  - unfold Allow. case_bool_decide; cbn [fst clients withClients];
      rewrite lookup_insert_ne by done; apply Hinv.
Qed.

(** X18. With a window of at most five minutes, a tick of [cleanup] is
    invisible to the clients: for a bucket whose requests are no later than
    its stamp, a call of [Allow] after the tick gets the verdict it would
    have got without the tick, and leaves the bucket of its client in the
    same state. (A bucket that [cleanup] deletes holds only requests that
    the next [Allow] would purge.) *)
Theorem cleanup_is_invisible (tick now : Z) (ip : string)
    (rl : RateLimiter) :
  window rl ≤ 5 * time_Minute →
  tick ≤ now →
  (∀ b, clients rl !! ip = Some b →
        ∀ t, t ∈ requests b → t ≤ lastSeen b) →
  (Allow now ip (cleanup tick rl)).2 = (Allow now ip rl).2
  ∧ clients (Allow now ip (cleanup tick rl)).1 !! ip
    = clients (Allow now ip rl).1 !! ip.
Proof.
  intros Hw Htick Hstamp.
  assert (Hrem : filter (λ t, now - window rl < t)
                        (remembered ip (cleanup tick rl))
                 = filter (λ t, now - window rl < t) (remembered ip rl)).
  { unfold remembered, cleanup. cbn [clients withClients].
    rewrite map_lookup_filter.
    destruct (clients rl !! ip) as [b|] eqn:Hb; cbn; [|done].
    case_guard as Hseen; cbn; [done|].
    symmetry. apply filter_above_nil.
    intros t Ht. specialize (Hstamp b eq_refl t Ht).
    cbn in Hseen. lia. }
  assert (Hverdict : (Allow now ip (cleanup tick rl)).2
                     = (Allow now ip rl).2).
  { rewrite !Allow_verdict. cbn [cleanup window rps withClients].
    by rewrite Hrem. }
  split; [exact Hverdict|].
  rewrite !lookup_Allow, Hverdict. cbn [cleanup window withClients].
  by rewrite Hrem.
Qed.

End Cleanup.

Lemma cleanup_is_invisible_witness :
  let minute := ratelimit.time_Minute in
  let rl :=
    (allowAll [(0, "10.0.0.1"); (1, "10.0.0.1")]%string
              (ratelimit.New 1 minute)).1 in
  (ratelimit.Allow (7 * minute) "10.0.0.1"
     (ratelimit.cleanup (6 * minute) rl)).2
  = (ratelimit.Allow (7 * minute) "10.0.0.1" rl).2
  ∧ ratelimit.clients
      (ratelimit.Allow (7 * minute) "10.0.0.1"
         (ratelimit.cleanup (6 * minute) rl)).1 !! "10.0.0.1"%string
    = ratelimit.clients
        (ratelimit.Allow (7 * minute) "10.0.0.1" rl).1 !! "10.0.0.1"%string.
Proof.
  apply (cleanup_is_invisible (6 * ratelimit.time_Minute)
           (7 * ratelimit.time_Minute) "10.0.0.1"
           (allowAll [(0, "10.0.0.1"); (1, "10.0.0.1")]%string
                     (ratelimit.New 1 ratelimit.time_Minute)).1).
  - vm_compute. discriminate.
  - vm_compute. discriminate.
  - intros b Hb t Ht. vm_compute in Hb. injection Hb as <-.
    cbn in Ht. apply list_elem_of_singleton in Ht as ->. vm_compute.
    discriminate.
Defined.

(** With a window longer than five minutes [cleanup] does forget live
    requests: limit 1 per ten minutes, a request admitted at time 0, a tick
    at six minutes; the request at seven minutes is refused without the
    tick and admitted after it. *)
Lemma cleanup_forgets_within_long_window :
  let minute := ratelimit.time_Minute in
  let rl := (ratelimit.Allow 0 "10.0.0.1" (ratelimit.New 1 (10 * minute))).1 in
  (ratelimit.Allow (7 * minute) "10.0.0.1" rl).2 = false
  ∧ (ratelimit.Allow (7 * minute) "10.0.0.1"
       (ratelimit.cleanup (6 * minute) rl)).2 = true.
Proof. split; vm_compute; reflexivity. Qed.

(** ** The rate-limiting middleware *)

Section MiddlewareProperties.
Import ratelimit.
Variable net_ParseIP_ok : string → bool.
Variable net_SplitHostPort : string → option string.
Context {S A : Type}.
Variable next : Request → S → S * A.

Lemma beforeComma_Some_nonempty ips first :
  beforeComma ips = Some first → ips ≠ ""%string.
Proof. by destruct ips. Qed.

(** X19. The middleware limits per client key, and the key is taken from
    the request headers first. The first element of [X-Forwarded-For] (the
    whole header when it has no comma) is the key whenever it is non-empty
    and parses as an IP address, whatever [X-Real-IP] and the remote
    address are. The request is passed to the next handler exactly when
    fewer than [rps] requests remembered for its key lie within the window;
    otherwise the answer is 429 "Rate limit exceeded", the next handler is
    not run, and the request is not remembered. The buckets of all other
    keys are left as they were. *)
Theorem middleware_limits_by_client_key (now : Z) (r : Request)
    (rl : RateLimiter) (s : S) :
  let key := getClientIP net_ParseIP_ok net_SplitHostPort r in
  let out :=
    Middleware net_ParseIP_ok net_SplitHostPort next now r (rl, s) in
  let recent := filter (λ t, now - window rl < t) (remembered key rl) in
  (∀ first,
     beforeComma (XForwardedFor r) = Some first
     ∨ (beforeComma (XForwardedFor r) = None ∧ first = XForwardedFor r) →
     first ≠ ""%string → net_ParseIP_ok first = true → key = first)
  ∧ (∀ k, k ≠ key → clients out.1.1 !! k = clients rl !! k)
  ∧ (if bool_decide (Z.of_nat (length recent) < rps rl)
     then out.1.2 = (next r s).1 ∧ out.2 = Next A (next r s).2
          ∧ remembered key out.1.1 = recent ++ [now]
     else out.1.2 = s
          ∧ out.2 = HttpError A "Rate limit exceeded" 429
          ∧ remembered key out.1.1 = recent).
Proof.
  intros key out recent. split_and!.
  - intros first Hfirst Hne Hip. subst key. unfold getClientIP.
    assert (Hxff : XForwardedFor r ≠ ""%string).
    { destruct Hfirst as [Hf|[_ <-]]; [|done].
      by apply (beforeComma_Some_nonempty _ first). }
    rewrite (bool_decide_true _ Hxff).
    assert (Hparse : parseFirstIP net_ParseIP_ok (XForwardedFor r) = first).
    { unfold parseFirstIP. destruct Hfirst as [->|[-> <-]]; by rewrite Hip. }
    rewrite Hparse. by rewrite bool_decide_true.
  - intros k Hk. subst out. unfold Middleware. fold key. cbn [fst snd].
    assert (Hother : clients (Allow now key rl).1 !! k = clients rl !! k).
    { unfold Allow. case_bool_decide; cbn [fst clients withClients];
        by rewrite lookup_insert_ne. }
    by destruct (negb (Allow now key rl).2).
  - subst out. unfold Middleware. fold key. cbn [fst snd].
    pose proof (Allow_verdict now key rl) as Hv. fold recent in Hv.
    pose proof (remembered_Allow now key key rl) as Hr.
    rewrite decide_True in Hr by done. fold recent in Hr.
    rewrite Hv in Hr |- *.
    case_bool_decide; cbn [negb fst snd]; split_and!; try done.
    by rewrite Hr, app_nil_r.
Qed.

End MiddlewareProperties.

(** ** The endpoint validator *)

Section ValidatorProperties.
Import validator.
Variable strings_TrimSpace : string → string.

Lemma stripPrefix_Some p : ∀ s rest,
  stripPrefix p s = Some rest → s = (p +:+ rest)%string.
Proof.
  induction p as [|c p IH]; intros s rest; cbn.
  - by intros [= ->].
  - destruct s as [|c' s]; [discriminate|].
    case_bool_decide as Hc; [|discriminate]. subst c'.
    intros Hs%IH. by rewrite Hs.
Qed.

Lemma beginsUnderEthAPI_match re s :
  beginsUnderEthAPI re = true → MatchString re s = true → underEthAPI s.
Proof.
  destruct re as [|[text|] re]; cbn [beginsUnderEthAPI]; try discriminate.
  intros Hb Hm. cbn [MatchString] in Hm.
  destruct (stripPrefix text s) as [rest|] eqn:Hs; [|discriminate].
  apply stripPrefix_Some in Hs as ->.
  apply existsb_exists in Hb as (prefix & Hin & Hp).
  apply bool_decide_eq_true in Hp as [rest' Hp].
  apply stripPrefix_Some in Hp as ->.
  cbn in Hin. destruct Hin as [<-|[<-|[<-|[]]]].
  - exists "1"%string, (rest' +:+ rest)%string. split; [by_decide|].
    by rewrite <- string_app_assoc.
  - exists "2"%string, (rest' +:+ rest)%string. split; [by_decide|].
    by rewrite <- string_app_assoc.
  - exists "3"%string, (rest' +:+ rest)%string. split; [by_decide|].
    by rewrite <- string_app_assoc.
Qed.

Lemma validPaths_begin_under_eth :
  forallb beginsUnderEthAPI validPaths = true.
Proof. vm_compute. reflexivity. Qed.

Lemma IsValidBeaconEndpoint_underEthAPI path :
  IsValidBeaconEndpoint strings_TrimSpace path = true →
  underEthAPI (normalizedPath strings_TrimSpace path).
Proof.
  unfold IsValidBeaconEndpoint, normalizedPath.
  case_bool_decide; [discriminate|].
  intros (re & Hin & Hm)%existsb_exists.
  apply (beginsUnderEthAPI_match re); [|done].
  pose proof validPaths_begin_under_eth as Hall.
  rewrite forallb_forall in Hall. by apply Hall.
Qed.

(** X20. With the validator of the repository in place, a request is
    either refused with 403 "Invalid Beacon Chain API endpoint", without
    any node being contacted and without any change of the shared state,
    or its path, trimmed of surrounding white space and of trailing
    slashes, lies under [/eth/v1/], [/eth/v2/] or [/eth/v3/]. *)
Theorem only_eth_api_paths_are_forwarded (env : Env) (r : Request)
    (lb : LoadBalancer) :
  let out :=
    ServeHTTP (IsValidBeaconEndpoint strings_TrimSpace) env r lb in
  out = (lb, HttpError "Invalid Beacon Chain API endpoint" 403, [])
  ∨ underEthAPI (normalizedPath strings_TrimSpace (Path r)).
Proof.
  cbv zeta. unfold ServeHTTP.
  destruct (IsValidBeaconEndpoint strings_TrimSpace (Path r)) eqn:Hv.
  - right. by apply IsValidBeaconEndpoint_underEthAPI.
  - left. reflexivity.
Qed.

End ValidatorProperties.

(** ** Accounting of the attempts *)

Section Accounting.

Lemma attemptsOn_cons m n l :
  attemptsOn m (n :: l) = (if decide (n = m) then 1 else 0) + attemptsOn m l.
Proof.
  unfold attemptsOn. rewrite filter_cons.
  destruct (decide (n = m)); cbn [length]; lia.
Qed.

Lemma serverErrorsOn_cons env i m n l :
  serverErrorsOn env i m (n :: l)
  = (if decide (n = m ∧ 500 ≤ statusCode (recorded env i n)) then 1 else 0)
    + serverErrorsOn env (S i) m l.
Proof.
  unfold serverErrorsOn. rewrite imap_cons, filter_cons.
  cbn [fst snd]. rewrite Nat.add_0_r.
  rewrite (imap_ext _ (λ j n0, ((S i + j)%nat, n0)))
    by (intros; unfold compose; f_equal; lia).
  destruct (decide _); cbn [length]; lia.
Qed.

Lemma handleNodeError_accounting node status lb m :
  (m < length (nodes lb))%nat →
  length (nodes (handleNodeError node status lb)) = length (nodes lb)
  ∧ config (handleNodeError node status lb) = config lb
  ∧ Requests (nodes (handleNodeError node status lb) !!! m)
    = Requests (nodes lb !!! m)
  ∧ TotalFailures (nodes (handleNodeError node status lb) !!! m)
    = if decide (node = m ∧ 500 ≤ status)
      then wrap64 (TotalFailures (nodes lb !!! m) + 1)
      else TotalFailures (nodes lb !!! m).
Proof.
  intros Hm. unfold handleNodeError, HTTPStatusServerErrorMin.
  case_bool_decide as Hs.
  - assert (Hreq : ∀ ns, Requests (onNode IncrementError node ns !!! m)
                         = Requests (ns !!! m))
      by (intros; by apply onNode_field).
    assert (Htf : TotalFailures (onNode IncrementError node (nodes lb) !!! m)
                  = if decide (node = m ∧ 500 ≤ status)
                    then wrap64 (TotalFailures (nodes lb !!! m) + 1)
                    else TotalFailures (nodes lb !!! m)).
    { destruct (decide (node = m)) as [->|Hne].
      - rewrite decide_True by (split; [done|lia]).
        by rewrite onNode_eq.
      - rewrite decide_False by (by intros [? _]).
        by rewrite onNode_ne. }
    destruct (_ && _); cbn [nodes config withNodes demotePrimary].
    + rewrite !onNode_length.
      rewrite (onNode_field Requests) by done.
      rewrite (onNode_field TotalFailures) by done.
      by rewrite Hreq, Htf.
    + by rewrite onNode_length, Hreq, Htf.
  - rewrite decide_False by (intros [_ ?]; lia). done.
Qed.

Lemma tryNodes_accounting env snapshot : ∀ i lb m,
  (m < length (nodes lb))%nat →
  0 ≤ Requests (nodes lb !!! m) →
  Requests (nodes lb !!! m) + Z.of_nat (length snapshot) < 2 ^ 63 →
  0 ≤ TotalFailures (nodes lb !!! m) →
  TotalFailures (nodes lb !!! m) + Z.of_nat (length snapshot) < 2 ^ 63 →
  let out := tryNodes env i snapshot lb in
  Requests (nodes out.1.1 !!! m)
  = Requests (nodes lb !!! m) + attemptsOn m out.2
  ∧ TotalFailures (nodes out.1.1 !!! m)
    = TotalFailures (nodes lb !!! m) + serverErrorsOn env i m out.2.
Proof.
  assert (Hnil : ∀ i m, attemptsOn m [] = 0 ∧ serverErrorsOn env i m [] = 0)
    by done.
  induction snapshot as [|node rest IH]; intros i lb m Hm Hr0 Hr Ht0 Ht;
    cbn [tryNodes].
  - cbn [fst snd]. destruct (Hnil i m) as [-> ->]. lia.
  - cbn [length] in Hr, Ht. rewrite Nat2Z.inj_succ in Hr, Ht.
    case_bool_decide;
      [cbn [fst snd]; destruct (Hnil i m) as [-> ->]; lia|].
    destruct (checkRequestTimeout env i);
      [cbn [fst snd]; destruct (Hnil i m) as [-> ->]; lia|].
    case_bool_decide;
      [cbn [fst snd]; destruct (Hnil i m) as [-> ->]; lia|].
    unfold attemptNodeRequest, handleSuccessResponse.
    fold (recorded env i node).
    set (lb1 := withNodes (onNode IncrementRequests node (nodes lb)) lb).
    assert (Hlen1 : length (nodes lb1) = length (nodes lb))
      by apply onNode_length.
    assert (Hreq1 : Requests (nodes lb1 !!! m)
                    = Requests (nodes lb !!! m)
                      + if decide (node = m) then 1 else 0).
    { subst lb1. cbn [nodes withNodes].
      destruct (decide (node = m)) as [->|Hne].
      - rewrite onNode_eq by done. cbn. rewrite wrap64_small; lia.
      - rewrite onNode_ne by done. lia. }
    assert (Htf1 : TotalFailures (nodes lb1 !!! m)
                   = TotalFailures (nodes lb !!! m)).
    { subst lb1. cbn [nodes withNodes]. by apply onNode_field. }
    destruct (_ && _) eqn:Hok.
    + cbn [fst snd nodes withNodes].
      rewrite (onNode_field Requests) by done.
      rewrite (onNode_field TotalFailures) by done.
      rewrite Hreq1, Htf1, attemptsOn_cons, serverErrorsOn_cons.
      destruct (Hnil (S i) m) as [-> ->].
      apply andb_true_iff in Hok as [_ Hmax].
      apply bool_decide_eq_true in Hmax.
      unfold HTTPStatusSuccessMax in Hmax.
      rewrite (decide_False (P := _ ∧ _)) by (intros [_ ?]; lia).
      destruct (decide (node = m)); lia.
    + destruct (handleNodeError_accounting node
                  (statusCode (recorded env i node)) lb1 m)
        as (Hlen2 & _ & Hreq2 & Htf2); [lia|].
      set (lb2 := handleNodeError node (statusCode (recorded env i node))
                    lb1) in *.
      assert (Htf2' : TotalFailures (nodes lb2 !!! m)
                = TotalFailures (nodes lb !!! m)
                  + if decide (node = m
                               ∧ 500 ≤ statusCode (recorded env i node))
                    then 1 else 0).
      { rewrite Htf2, Htf1. destruct (decide (node = m ∧ _)); [|lia].
        rewrite wrap64_small; lia. }
      specialize (IH (S i) lb2 m).
      destruct IH as [IHr IHt].
      * lia.
      * rewrite Hreq2, Hreq1. destruct (decide (node = m)); lia.
      * rewrite Hreq2, Hreq1. destruct (decide (node = m)); lia.
      * rewrite Htf2'. destruct (decide (node = m ∧ _)); lia.
      * rewrite Htf2'. destruct (decide (node = m ∧ _)); lia.
      * unfold contacted. cbn [fst snd].
        rewrite attemptsOn_cons, serverErrorsOn_cons.
        rewrite IHr, IHt, Hreq2, Hreq1, Htf2'. lia.
Qed.

(** X21. The counters of an HTTP request, as long as no counter wraps
    around: the request counter of a node grows by the number of attempts
    made on it, the successful one included, and its [total_failures] by
    the number of these attempts that recorded a status of 500 or more.
    Attempts that recorded a client error or nothing at all count as
    requests, never as failures. *)
Theorem http_request_accounting (env : Env) (lb : LoadBalancer) (m : nat) :
  (m < length (nodes lb))%nat →
  0 ≤ Requests (nodes lb !!! m) →
  Requests (nodes lb !!! m) + Z.of_nat (length (GetHealthyNodes lb))
    < 2 ^ 63 →
  0 ≤ TotalFailures (nodes lb !!! m) →
  TotalFailures (nodes lb !!! m) + Z.of_nat (length (GetHealthyNodes lb))
    < 2 ^ 63 →
  let out := handleHTTPRequest env lb in
  Requests (nodes out.1.1 !!! m)
  = Requests (nodes lb !!! m) + attemptsOn m out.2
  ∧ TotalFailures (nodes out.1.1 !!! m)
    = TotalFailures (nodes lb !!! m) + serverErrorsOn env 0 m out.2.
Proof. intros. by apply tryNodes_accounting. Qed.

End Accounting.

Lemma http_request_accounting_witness :
  let lb := twoNodes 3 in
  let out := handleHTTPRequest (primaryFails "" "") lb in
  Requests (nodes out.1.1 !!! 0%nat)
  = Requests (nodes lb !!! 0%nat) + attemptsOn 0 out.2
  ∧ TotalFailures (nodes out.1.1 !!! 0%nat)
    = TotalFailures (nodes lb !!! 0%nat)
      + serverErrorsOn (primaryFails "" "") 0 0 out.2.
Proof.
  apply (http_request_accounting (primaryFails "" "") (twoNodes 3) 0%nat);
    vm_compute; first [reflexivity | discriminate | lia].
Defined.

(** ** Counters on the WebSocket path *)

Section WebSocketCounters.
Variable IsValidBeaconEndpoint : string → bool.

Lemma dialFailed_length node lb :
  length (nodes (dialFailed node lb)) = length (nodes lb).
Proof.
  unfold dialFailed. destruct (IsPrimary _); [|apply onNode_length].
  case_bool_decide; cbn [nodes withNodes demotePrimary];
    by rewrite ?onNode_length.
Qed.

Lemma dialFailed_other node lb m :
  node ≠ m → nodes (dialFailed node lb) !!! m = nodes lb !!! m.
Proof.
  intros Hne. unfold dialFailed.
  destruct (IsPrimary _); [|by apply onNode_ne].
  case_bool_decide; cbn [nodes withNodes demotePrimary];
    by rewrite !onNode_ne.
Qed.

Lemma dialFailed_counts node lb :
  (node < length (nodes lb))%nat →
  let bn := nodes lb !!! node in
  let bn' := nodes (dialFailed node lb) !!! node in
  TotalFailures bn' = wrap64 (TotalFailures bn + 1)
  ∧ ConsecutiveErrors bn' = wrap64 (ConsecutiveErrors bn + 1)
  ∧ ConsecutiveSuccesses bn' = 0
  ∧ Requests bn' = Requests bn.
Proof.
  intros Hlt. cbv zeta. unfold dialFailed.
  assert (Hinc : onNode IncrementError node (nodes lb) !!! node
                 = IncrementError (nodes lb !!! node))
    by (by apply onNode_eq).
  destruct (IsPrimary _); [|cbn [nodes withNodes]; by rewrite Hinc].
  case_bool_decide; cbn [nodes withNodes demotePrimary];
    [|by rewrite Hinc].
  rewrite onNode_eq by (by rewrite onNode_length). by rewrite Hinc.
Qed.

Lemma connect_counters env snapshot : ∀ lb m,
  NoDup snapshot → (m < length (nodes lb))%nat →
  let out := connectToUpstreamWebSocket env snapshot lb in
  let bn := nodes lb !!! m in
  let bn' := nodes out.1.1 !!! m in
  length (nodes out.1.1) = length (nodes lb)
  ∧ (m ∉ out.2 → bn' = bn)
  ∧ (m ∈ out.2 → dial env m = false →
       TotalFailures bn' = wrap64 (TotalFailures bn + 1)
       ∧ ConsecutiveErrors bn' = wrap64 (ConsecutiveErrors bn + 1)
       ∧ ConsecutiveSuccesses bn' = 0
       ∧ Requests bn' = Requests bn)
  ∧ (m ∈ out.2 → dial env m = true → out.1.2 = Some m ∧ bn' = bn)
  ∧ (∀ n, out.1.2 = Some n → n ∈ out.2 ∧ dial env n = true)
  ∧ (∀ n, n ∈ out.2 → n ∈ snapshot).
Proof.
  induction snapshot as [|node rest IH]; intros lb m Hnd Hm;
    cbn [connectToUpstreamWebSocket].
  - cbn. split_and!; try done; by intros ?%not_elem_of_nil.
  - apply NoDup_cons in Hnd as [Hnode Hnd].
    destruct (dial env node) eqn:Hdial.
    + cbn [fst snd]. split_and!; try done.
      * intros ->%list_elem_of_singleton. congruence.
      * by intros ->%list_elem_of_singleton.
      * intros n [= <-]. split; [left|done].
      * intros n ->%list_elem_of_singleton. left.
    + specialize (IH (dialFailed node lb) m Hnd).
      rewrite dialFailed_length in IH. specialize (IH Hm).
      destruct (connectToUpstreamWebSocket env rest (dialFailed node lb))
        as [[lb' sel] dialled].
      cbn [fst snd] in IH |- *.
      destruct IH as (Hlen & Hout & Hfail & Hsel & Hsome & Hsub).
      split_and!.
      * done.
      * intros [Hne Hnot]%not_elem_of_cons.
        rewrite Hout by done. by apply dialFailed_other.
      * intros [->|Hin]%elem_of_cons Hd.
        -- rewrite Hout by (intros Hin; by apply Hnode, Hsub).
           by apply dialFailed_counts.
        -- assert (node ≠ m) by (intros ->; by apply Hnode, Hsub).
           rewrite <- (dialFailed_other node lb m) by done.
           by apply Hfail.
      * intros [->|Hin]%elem_of_cons Hd; [congruence|].
        assert (node ≠ m) by (intros ->; by apply Hnode, Hsub).
        rewrite <- (dialFailed_other node lb m) by done.
        by apply Hsel.
      * intros n Hn. destruct (Hsome n Hn). split; [by right|done].
      * intros n [->|Hin]%elem_of_cons; [left|right; by apply Hsub].
Qed.

(** X22. What a WebSocket upgrade does to the counters, when no node is in
    the healthy set twice. A node that was not dialled is left exactly as
    it was. Every node whose dial failed has one error counted, whatever
    the cause of the failure: [total_failures] and [consecutive_errors]
    plus one, [consecutive_successes] reset to 0, request counter
    untouched. The node whose dial succeeded gets its request counter
    incremented when the client upgrade succeeds and is otherwise left as
    it was: unlike a successful HTTP attempt, a successful dial does not
    reset its [consecutive_errors]. *)
Theorem websocket_accounting (env : Env) (r : Request) (lb : LoadBalancer)
    (m : nat) :
  IsWebSocketUpgrade r = true →
  NoDup (GetHealthyNodes lb) →
  (m < length (nodes lb))%nat →
  let out := ServeHTTP IsValidBeaconEndpoint env r lb in
  let bn := nodes lb !!! m in
  let bn' := nodes out.1.1 !!! m in
  (m ∉ out.2 → bn' = bn)
  ∧ (m ∈ out.2 → dial env m = false →
       TotalFailures bn' = wrap64 (TotalFailures bn + 1)
       ∧ ConsecutiveErrors bn' = wrap64 (ConsecutiveErrors bn + 1)
       ∧ ConsecutiveSuccesses bn' = 0
       ∧ Requests bn' = Requests bn)
  ∧ (m ∈ out.2 → dial env m = true →
       (out.1.2 = WebSocketProxied m ∧ bn' = IncrementRequests bn)
       ∨ (out.1.2 = UpgradeFailed ∧ bn' = bn)).
Proof.
  intros Hws Hnd Hm. cbv zeta. unfold ServeHTTP, handleWebSocket.
  rewrite Hws.
  destruct (negb _);
    [cbn; split_and!; [done|by intros ?%not_elem_of_nil..]|].
  case_bool_decide;
    [cbn; split_and!; [done|by intros ?%not_elem_of_nil..]|].
  pose proof (connect_counters env (GetHealthyNodes lb) lb m Hnd Hm) as Hc.
  destruct (connectToUpstreamWebSocket env (GetHealthyNodes lb) lb)
    as [[lb1 sel] dialled].
  cbn [fst snd] in Hc. destruct Hc as (Hlen & Hout & Hfail & Hsel & Hsome & _).
  destruct sel as [n|].
  - destruct (Hsome n eq_refl) as [Hn Hdn].
    destruct (negb (upgrade env)); cbn [fst snd nodes withNodes].
    + split_and!; [done|done|]. intros Hin Hd. right.
      by destruct (Hsel Hin Hd).
    + split_and!.
      * intros Hnot. rewrite onNode_ne by (intros ->; done). by apply Hout.
      * intros Hin Hd. rewrite onNode_ne by (intros ->; congruence).
        by apply Hfail.
      * intros Hin Hd. left. destruct (Hsel Hin Hd) as [[= ->] Hbn].
        split; [done|]. rewrite onNode_eq by lia. by rewrite Hbn.
  - cbn [fst snd]. split_and!; [done|done|].
    intros Hin Hd. by destruct (Hsel Hin Hd).
Qed.

End WebSocketCounters.

Lemma websocket_accounting_witness :
  let env := everyNodeAnswers 200 1 in
  let lb := twoNodes 3 in
  let out := ServeHTTP anyPath env wsUpgrade lb in
  let bn := nodes lb !!! 0%nat in
  let bn' := nodes out.1.1 !!! 0%nat in
  (0%nat ∉ out.2 → bn' = bn)
  ∧ (0%nat ∈ out.2 → dial env 0%nat = false →
       TotalFailures bn' = wrap64 (TotalFailures bn + 1)
       ∧ ConsecutiveErrors bn' = wrap64 (ConsecutiveErrors bn + 1)
       ∧ ConsecutiveSuccesses bn' = 0
       ∧ Requests bn' = Requests bn)
  ∧ (0%nat ∈ out.2 → dial env 0%nat = true →
       (out.1.2 = WebSocketProxied 0 ∧ bn' = IncrementRequests bn)
       ∨ (out.1.2 = UpgradeFailed ∧ bn' = bn)).
Proof.
  apply (websocket_accounting anyPath (everyNodeAnswers 200 1) wsUpgrade
           (twoNodes 3) 0%nat).
  - reflexivity.
  - by_decide.
  - vm_compute. lia.
Defined.

(** ** A primary that is down at startup *)

Section StartupDown.
Variable url_Parse_ok : string → bool.
Variable json_Unmarshal : string → string + SyncingResponse.
Variable IsValidBeaconEndpoint : string → bool.

Lemma steady_refl touched lb : steady touched lb lb.
Proof. unfold steady. split_and!; done. Qed.

Lemma steady_trans touched lb1 lb2 lb3 :
  steady touched lb1 lb2 → steady touched lb2 lb3 → steady touched lb1 lb3.
Proof.
  intros (Hc1 & Hh1 & Hl1 & Hf1 & Ho1) (Hc2 & Hh2 & Hl2 & Hf2 & Ho2).
  unfold steady. split_and!; try congruence.
  - intros m. destruct (Hf1 m) as (? & ? & ?), (Hf2 m) as (? & ? & ?).
    split_and!; congruence.
  - intros m Hm. by rewrite Ho2, Ho1.
Qed.

Lemma steady_mono touched touched' lb lb' :
  (∀ m, m ∈ touched → m ∈ touched') →
  steady touched lb lb' → steady touched' lb lb'.
Proof.
  intros Hsub (Hc & Hh & Hl & Hf & Ho). unfold steady.
  split_and!; try done. intros m Hm. apply Ho. intros Hin. by apply Hm, Hsub.
Qed.

Lemma steady_onNode f node lb :
  (∀ bn, Name (f bn) = Name bn) →
  (∀ bn, GetPriority (f bn) = GetPriority bn) →
  (∀ bn, OriginalPriority (f bn) = OriginalPriority bn) →
  steady [node] lb (withNodes (onNode f node (nodes lb)) lb).
Proof.
  intros Hn Hp Ho. unfold steady. cbn [config healthyNodes nodes withNodes].
  split_and!; try done.
  - apply onNode_length.
  - intros m. by rewrite !onNode_field.
  - intros m Hm. apply onNode_ne. intros ->. apply Hm. left.
Qed.

Lemma handleNodeError_steady node status lb :
  IsPrimary (nodes lb !!! node) = false →
  steady [node] lb (handleNodeError node status lb).
Proof.
  intros Hp. unfold handleNodeError.
  case_bool_decide; [|apply steady_refl].
  cbn [nodes withNodes].
  assert (Hp' : IsPrimary (onNode IncrementError node (nodes lb) !!! node)
                = false).
  { unfold IsPrimary in *. by rewrite (onNode_field GetPriority). }
  rewrite Hp'. cbn [andb]. by apply steady_onNode.
Qed.

Lemma dialFailed_steady node lb :
  IsPrimary (nodes lb !!! node) = false →
  steady [node] lb (dialFailed node lb).
Proof.
  intros Hp. unfold dialFailed. cbn [nodes withNodes].
  assert (Hp' : IsPrimary (onNode IncrementError node (nodes lb) !!! node)
                = false).
  { unfold IsPrimary in *. by rewrite (onNode_field GetPriority). }
  rewrite Hp'. by apply steady_onNode.
Qed.

Lemma steady_not_primary touched lb lb' n :
  steady touched lb lb' →
  IsPrimary (nodes lb !!! n) = false → IsPrimary (nodes lb' !!! n) = false.
Proof.
  intros (_ & _ & _ & Hf & _) Hp. destruct (Hf n) as (_ & Hprio & _).
  unfold IsPrimary in *. by rewrite Hprio.
Qed.

Lemma steady_cons node rest lb lb' :
  steady [node] lb lb' → steady (node :: rest) lb lb'.
Proof.
  apply steady_mono. intros m ->%list_elem_of_singleton. left.
Qed.

Lemma steady_tail node rest lb lb' :
  steady rest lb lb' → steady (node :: rest) lb lb'.
Proof. apply steady_mono. intros m Hm. by right. Qed.

Lemma tryNodes_steady env snapshot : ∀ i lb,
  (∀ n, n ∈ snapshot → IsPrimary (nodes lb !!! n) = false) →
  steady snapshot lb (tryNodes env i snapshot lb).1.1.
Proof.
  induction snapshot as [|node rest IH]; intros i lb Hnp; cbn [tryNodes].
  - apply steady_refl.
  - case_bool_decide; [apply steady_refl|].
    destruct (checkRequestTimeout env i); [apply steady_refl|].
    case_bool_decide; [apply steady_refl|].
    unfold attemptNodeRequest, handleSuccessResponse.
    set (lb1 := withNodes (onNode IncrementRequests node (nodes lb)) lb).
    assert (H1 : steady [node] lb lb1) by (by apply steady_onNode).
    destruct (_ && _).
    + cbn [fst]. apply steady_cons.
      apply (steady_trans _ lb lb1); [done|]. by apply steady_onNode.
    + unfold contacted. cbn [fst].
      set (lb2 := handleNodeError node
                    (statusCode (foldl applyCall
                       {| statusCode := 0; body := "" |}
                       (proxyServe env i node))) lb1).
      assert (H2 : steady [node] lb lb2).
      { apply (steady_trans _ lb lb1); [done|].
        apply handleNodeError_steady.
        apply (steady_not_primary [node] lb); [done|]. apply Hnp. left. }
      apply (steady_trans _ lb lb2); [by apply steady_cons|].
      apply steady_tail, IH. intros n Hn.
      apply (steady_not_primary [node] lb); [done|]. apply Hnp. by right.
Qed.

Lemma connect_steady env snapshot : ∀ lb,
  (∀ n, n ∈ snapshot → IsPrimary (nodes lb !!! n) = false) →
  steady snapshot lb (connectToUpstreamWebSocket env snapshot lb).1.1
  ∧ ∀ n, (connectToUpstreamWebSocket env snapshot lb).1.2 = Some n →
         n ∈ snapshot.
Proof.
  induction snapshot as [|node rest IH]; intros lb Hnp;
    cbn [connectToUpstreamWebSocket].
  - split; [apply steady_refl|done].
  - destruct (dial env node).
    + cbn [fst snd]. split; [apply steady_refl|]. intros n [= <-]. left.
    + assert (H1 : steady [node] lb (dialFailed node lb)).
      { apply dialFailed_steady, Hnp. left. }
      destruct (IH (dialFailed node lb)) as [Hs Hsel].
      { intros n Hn. apply (steady_not_primary [node] lb); [done|].
        apply Hnp. by right. }
      destruct (connectToUpstreamWebSocket env rest (dialFailed node lb))
        as [[lb' sel] dialled].
      cbn [fst snd] in *. split.
      * apply (steady_trans _ lb (dialFailed node lb));
          [by apply steady_cons|by apply steady_tail].
      * intros n Hn. right. by apply Hsel.
Qed.

Lemma ServeHTTP_steady env r lb :
  (∀ n, n ∈ healthyNodes lb → IsPrimary (nodes lb !!! n) = false) →
  steady (healthyNodes lb) lb (ServeHTTP IsValidBeaconEndpoint env r lb).1.1.
Proof.
  intros Hnp. unfold ServeHTTP, handleWebSocket, handleHTTPRequest.
  destruct (negb _); [apply steady_refl|].
  destruct (IsWebSocketUpgrade r); [|by apply tryNodes_steady].
  case_bool_decide; [apply steady_refl|].
  destruct (connect_steady env (GetHealthyNodes lb) lb Hnp) as [Hs Hsel].
  destruct (connectToUpstreamWebSocket env (GetHealthyNodes lb) lb)
    as [[lb1 sel] dialled].
  cbn [fst snd] in Hs, Hsel.
  destruct sel as [n|]; [|exact Hs].
  destruct (negb (upgrade env)); [exact Hs|]. cbn [fst].
  apply (steady_trans _ lb lb1); [exact Hs|].
  apply (steady_mono [n]).
  - intros m ->%list_elem_of_singleton.
    destruct Hs as (_ & Hh & _). by apply Hsel.
  - by apply steady_onNode.
Qed.

Lemma primaryDown_not_primary lb n :
  primaryDown lb → n ∈ healthyNodes lb → IsPrimary (nodes lb !!! n) = false.
Proof.
  intros (_ & _ & Hv & Hp & H0) Hn. apply bool_decide_false.
  intros Hz. destruct (Hp n (Hv n Hn)) as [_ Hiff].
  apply Hiff in Hz as ->. done.
Qed.

Lemma primaryDown_steady lb lb' :
  primaryDown lb → steady (healthyNodes lb) lb lb' →
  primaryDown lb' ∧ nodes lb' !!! 0%nat = nodes lb !!! 0%nat.
Proof.
  intros (Hn & Hlen & Hv & Hp & H0) (Hc & Hh & Hl & Hf & Ho).
  split; [|by apply Ho].
  unfold primaryDown. rewrite Hh, Hl. split_and!; try done.
  - rewrite (fmap_Name_eq (nodes lb) (nodes lb')); [done|done|].
    intros m. by destruct (Hf m).
  - intros m Hm. destruct (Hf m) as (_ & -> & ->). by apply Hp.
Qed.

Lemma restorePriorities_at_home nhb : ∀ ns,
  (∀ m, m ∈ nhb → GetPriority (ns !!! m) = OriginalPriority (ns !!! m)) →
  restorePriorities nhb ns = ns.
Proof.
  unfold restorePriorities.
  induction nhb as [|n l IH]; intros ns Hhome; cbn [foldl]; [done|].
  unfold restoreOne at 2.
  rewrite bool_decide_false by (intros Hne; apply Hne, Hhome; left).
  apply IH. intros m Hm. apply Hhome. by right.
Qed.

Lemma performHealthCheck_primaryDown arrivals lb :
  arrivals.*1 ≡ₚ backupNodes (nodes lb) →
  primaryDown lb →
  let lb' := performHealthCheck json_Unmarshal arrivals lb in
  primaryDown lb'
  ∧ nodes lb' !!! 0%nat = nodes lb !!! 0%nat
  ∧ ∀ m, GetPriority (nodes lb' !!! m) = GetPriority (nodes lb !!! m).
Proof.
  intros Hperm Hdown lb'. subst lb'. unfold performHealthCheck.
  case_bool_decide; [done|].
  destruct Hdown as (Hn & Hlen & Hv & Hp & H0).
  destruct (newHealthyBackups_probed json_Unmarshal arrivals (nodes lb)
              Hperm) as [Hndh Hbackup].
  set (nhb := newHealthyBackups json_Unmarshal arrivals) in *.
  set (ns := nodes lb) in *.
  set (ns1 := foldl (collectResult json_Unmarshal) ns arrivals).
  assert (Hlen1 : length ns1 = length ns) by apply collect_length.
  assert (Hprio1 : ∀ m, GetPriority (ns1 !!! m) = GetPriority (ns !!! m))
    by (intros; by apply (collect_field json_Unmarshal GetPriority)).
  assert (Horig1 : ∀ m, OriginalPriority (ns1 !!! m)
                        = OriginalPriority (ns !!! m))
    by (intros; by apply collect_field).
  assert (Hname1 : ∀ m, Name (ns1 !!! m) = Name (ns !!! m))
    by (intros; by apply collect_field).
  assert (Hp0 : GetPriority (ns !!! 0%nat) = 0).
  { destruct (Hp 0%nat Hlen) as [_ Hiff]. by apply Hiff. }
  assert (Hnhb : ∀ m, m ∈ nhb → (m < length ns)%nat ∧ m ≠ 0%nat).
  { intros m Hm. destruct (Hbackup m Hm) as [Hlt Hb]. split; [done|].
    intros ->. unfold IsBackup in Hb. rewrite Hp0 in Hb. done. }
  assert (Hfb : failback (config lb) nhb ns1 = ns1).
  { unfold failback, findOriginalPrimary.
    rewrite (findFirst_None_intro _ nhb); [done|].
    intros x Hx. apply bool_decide_false. rewrite Horig1.
    destruct (Hnhb x Hx) as [Hlt Hne].
    destruct (Hp x Hlt) as [Heq Hiff]. rewrite <- Heq. by rewrite Hiff. }
  rewrite Hfb.
  rewrite restorePriorities_at_home.
  2:{ intros m Hm. rewrite Hprio1, Horig1.
      destruct (Hnhb m Hm) as [Hlt _]. by destruct (Hp m Hlt). }
  rewrite (findCurrentPrimary_head ns1);
    [|lia|apply bool_decide_eq_true; by rewrite Hprio1].
  cbn [promote primaryIfHealthy nodes healthyNodes].
  replace (existsb _ (healthyNodes lb)) with false.
  2:{ symmetry. apply not_true_is_false.
      intros (h & Hhin & Hhn)%existsb_exists.
      apply list_elem_of_In in Hhin. apply bool_decide_eq_true in Hhn.
      rewrite !Hname1 in Hhn.
      assert (h = 0%nat) as ->
        by (apply (Name_inj ns); [done|by apply Hv|done|done]).
      done. }
  cbn [app]. split_and!.
  - unfold primaryDown. cbn [nodes healthyNodes]. rewrite Hlen1.
    split_and!.
    + by rewrite (fmap_Name_eq ns ns1).
    + done.
    + intros m Hm. by apply Hnhb.
    + intros m Hm. rewrite Hprio1, Horig1. by apply Hp.
    + intros Hin. by destruct (Hnhb 0%nat Hin).
  - apply collect_other. rewrite Hperm.
    intros [_ Hb]%elem_of_backupNodes.
    unfold IsBackup in Hb. fold ns in Hb. rewrite Hp0 in Hb. done.
  - exact Hprio1.
Qed.

Lemma started_primaryDown cfg lb0 :
  NoDup (cfgName <$> GetAllNodes cfg) →
  started url_Parse_ok json_Unmarshal cfg lb0 →
  GetPriority (nodes lb0 !!! 0%nat) = 0 →
  0%nat ∉ healthyNodes lb0 →
  primaryDown lb0.
Proof.
  intros Hcfg Hstart Hp0 H0.
  destruct (started_wellFormed url_Parse_ok json_Unmarshal cfg lb0
              Hcfg Hstart) as [Hn _ Hv _ _].
  destruct Hstart as [lbN arrivals lb' Hnew Hperm Hs].
  unfold New in Hnew. case_bool_decide as Hl1; [discriminate|].
  case_bool_decide as Hl2; [discriminate|]. injection Hnew as <-.
  unfold StartupHealthCheck in Hs. cbn [nodes config] in Hs.
  injection Hs as <- _. cbn [nodes healthyNodes] in *.
  set (ns := newNodes url_Parse_ok 0 (GetAllNodes cfg)) in *.
  unfold primaryDown. cbn [nodes healthyNodes]. fold ns.
  split_and!; [done| |done| |done].
  - destruct ns; [done|cbn; lia].
  - intros m Hm.
    destruct (newNodes_priorities url_Parse_ok (GetAllNodes cfg) 0 m
                (ns !!! m)) as [Hle Heq];
      [by apply list_lookup_lookup_total_lt|].
    split; [done|]. split.
    + intros Hz. lia.
    + by intros ->.
Qed.

(** X23. A primary that is down at startup never comes back. When the
    startup health check succeeds without node 0, the node at priority 0,
    then in every state reached afterwards by client requests and
    periodic scheduler passes node 0 is still outside the healthy set and
    exactly as it was: it is never probed (only backups are) and never
    contacted (only healthy nodes are). No backup is ever promoted in its
    place: every priority stays as configured and the healthy set never
    holds a primary. *)
Theorem primary_down_at_startup_never_returns (cfg : Config)
    (lb0 lb : LoadBalancer) :
  NoDup (cfgName <$> GetAllNodes cfg) →
  started url_Parse_ok json_Unmarshal cfg lb0 →
  GetPriority (nodes lb0 !!! 0%nat) = 0 →
  0%nat ∉ healthyNodes lb0 →
  rtc (step json_Unmarshal IsValidBeaconEndpoint) lb0 lb →
  (0%nat ∉ healthyNodes lb)
  ∧ nodes lb !!! 0%nat = nodes lb0 !!! 0%nat
  ∧ (∀ m, GetPriority (nodes lb !!! m) = GetPriority (nodes lb0 !!! m))
  ∧ healthyPrimaries lb = [].
Proof.
  intros Hcfg Hstart Hp0 H0 Hsteps.
  pose proof (started_primaryDown cfg lb0 Hcfg Hstart Hp0 H0) as Hdown0.
  assert (Hinv : primaryDown lb
                 ∧ nodes lb !!! 0%nat = nodes lb0 !!! 0%nat
                 ∧ ∀ m, GetPriority (nodes lb !!! m)
                        = GetPriority (nodes lb0 !!! m)).
  { revert lb Hsteps.
    apply (rtc_ind_r (λ lb, primaryDown lb
                            ∧ nodes lb !!! 0%nat = nodes lb0 !!! 0%nat
                            ∧ ∀ m, GetPriority (nodes lb !!! m)
                                   = GetPriority (nodes lb0 !!! m)));
      [done|].
    intros lb1 lb2 _ Hstep IH.
    destruct IH as (Hdown & Hnode & Hprio).
    destruct Hstep as [env r st|arrivals st Hperm].
    - pose proof (ServeHTTP_steady env r st
                    (λ n, primaryDown_not_primary st n Hdown)) as Hs.
      destruct (primaryDown_steady _ _ Hdown Hs) as [Hdown' Hnode'].
      split_and!; [done|congruence|].
      intros m. destruct Hs as (_ & _ & _ & Hf & _).
      destruct (Hf m) as (_ & -> & _). apply Hprio.
    - destruct (performHealthCheck_primaryDown arrivals st Hperm Hdown)
        as (Hdown' & Hnode' & Hprio').
      split_and!; [done|congruence|]. intros m. by rewrite Hprio'. }
  destruct Hinv as (Hdown & Hnode & Hprio).
  split_and!; [by destruct Hdown as (_ & _ & _ & _ & ?)|done|done|].
  unfold healthyPrimaries. apply elem_of_nil_inv.
  intros n [Hp Hin]%list_elem_of_filter.
  by rewrite (primaryDown_not_primary lb n Hdown Hin) in Hp.
Qed.

End StartupDown.

Lemma primary_down_at_startup_never_returns_witness :
  let cfg := configOf 3 [nodeP; nodeB] in
  let lb0 := startWith cfg [(0%nat, probeDown); (1%nat, probeOK)] in
  let lb :=
    performHealthCheck syncedJSON [(1%nat, probeOK)]
      (ServeHTTP anyPath (everyNodeAnswers 200 1) httpGet lb0).1.1 in
  (0%nat ∉ healthyNodes lb)
  ∧ nodes lb !!! 0%nat = nodes lb0 !!! 0%nat
  ∧ (∀ m, GetPriority (nodes lb !!! m) = GetPriority (nodes lb0 !!! m))
  ∧ healthyPrimaries lb = [].
Proof.
  apply (primary_down_at_startup_never_returns anyURL syncedJSON anyPath
           (configOf 3 [nodeP; nodeB])).
  - by_decide.
  - eapply startWith_started; [reflexivity|by_decide|reflexivity].
  - vm_compute. reflexivity.
  - by_decide.
  - eapply rtc_l; [apply step_request|].
    apply rtc_once. apply step_periodic. by_decide.
Defined.
